(** * DPLL_Example: the notebook's DPLL solver, embedded and checked

    The notebook [DPLL.ipynb] defines a [Literal] class whose equality and
    hash look at the name only, a three-valued clause test
    [clauseSatisfied], the driver [DPLLSatisfiable] that ranks the symbols
    in a [heapq] heap, and the recursive search [DPLL] that shares one
    [model] dict and one [symbols] heap between all its frames.

    The embedding keeps that shape.  Python objects that are passed around
    by reference (the knowledge-base list, its clauses, the
    [unsatisfied_clauses] list of every frame) live in an object store and
    are named by their location; the [symbols] heap and the [model] dict,
    of which a run creates exactly one each, are fields of the run state.
    Code runs in a state monad whose outcome is a value, a Python
    exception, or one of two conditions that only the embedding has. *)

From stdpp Require Import gmap strings list fin_maps.
From Stdlib Require Import ZArith.

Local Open Scope Z_scope.
Local Open Scope nat_scope.

(** ** Outcomes and the state monad *)

(** The exceptions the modelled code can raise. *)
Inductive exn := TypeError | IndexError | KeyError.

(** [Val] is a normal return and [Raise] a Python exception.  [BadRef] (a
    location that holds no object of the expected kind) and [OutOfFuel]
    have no Python counterpart. *)
Inductive outcome (A : Type) :=
  | Val (a : A)
  | Raise (e : exn)
  | BadRef
  | OutOfFuel.
Arguments Val {A} a.
Arguments Raise {A} e.
Arguments BadRef {A}.
Arguments OutOfFuel {A}.

(** A computation over a state [S]: the state survives an exception, as
    Python's heap does. *)
Definition M (S A : Type) : Type := S → outcome A * S.

Definition ret {S A} (a : A) : M S A := λ s, (Val a, s).

Definition bind {S A B} (m : M S A) (k : A → M S B) : M S B :=
  λ s, match m s with
       | (Val a, s') => k a s'
       | (Raise e, s') => (Raise e, s')
       | (BadRef, s') => (BadRef, s')
       | (OutOfFuel, s') => (OutOfFuel, s')
       end.

Definition raise {S A} (e : exn) : M S A := λ s, (Raise e, s).
Definition out_of_fuel {S A} : M S A := λ s, (OutOfFuel, s).
Definition get {S} : M S S := λ s, (Val s, s).
Definition gets {S A} (f : S → A) : M S A := λ s, (Val (f s), s).
Definition modify {S} (f : S → S) : M S unit := λ s, (Val tt, f s).

Notation "'let*' x ':=' m 'in' k" := (bind m (λ x, k))
  (at level 10, x pattern, m at level 100, k at level 200,
   format "'[v' 'let*'  x  ':='  m  'in' '/' k ']'").

(** What one pass of a loop body asks for: go on with the loop-local
    variables [l], or leave the enclosing function with [r]. *)
Inductive ctl (L R : Type) :=
  | Continue (l : L)
  | Return (r : R).
Arguments Continue {L R} l.
Arguments Return {L R} r.

(** [for x in xs: body], with the loop-local variables threaded through. *)
Fixpoint for_in {S A L R} (xs : list A) (body : A → L → M S (ctl L R)) (l : L)
    : M S (ctl L R) :=
  match xs with
  | [] => ret (Continue l)
  | x :: xs' =>
      let* c := body x l in
      match c with
      | Continue l' => for_in xs' body l'
      | Return r => ret (Return r)
      end
  end.

(** [for x in xs: body] for a body that never leaves the function. *)
Fixpoint for_each {S A L} (xs : list A) (body : A → L → M S L) (l : L) : M S L :=
  match xs with
  | [] => ret l
  | x :: xs' => let* l' := body x l in for_each xs' body l'
  end.

(** ** Literals *)

(** [Literal(name, sign)]; [sign] is [False] for a negated literal. *)
Record Literal := mkLiteral { name : string; sign : bool }.

(** [Literal.__neg__] *)
Definition neg (l : Literal) : Literal :=
  {| name := name l; sign := negb (sign l) |}.

(** [Literal.__eq__]: the names only.  [Literal.__hash__] hashes the name,
    so a dict or set keyed by literals is keyed by name. *)
Definition Literal_eq (l1 l2 : Literal) : bool := String.eqb (name l1) (name l2).

(** [Literal.__lt__]: the names as strings. *)
Definition Literal_lt (l1 l2 : Literal) : bool := String.ltb (name l1) (name l2).

(** A set display [{l1, ..., ln}] of literals adds its elements from left
    to right and drops one that is [__eq__] to an element already there.
    Python walks a set in an order that depends on the hashes; the
    elements are listed here in the order they were added, which is one of
    the orders a walk can take, and the only one for a single element. *)
Definition set_add (s : list Literal) (l : Literal) : list Literal :=
  if existsb (Literal_eq l) s then s else s ++ [l].

Definition set_display (ls : list Literal) : list Literal :=
  foldl set_add [] ls.

(** ** Truth states, the model, the object store *)

(** What a model entry holds: [True], [False] or the string ["Free"]. *)
Inductive TruthState := StTrue | StFalse | Free.

#[global] Instance TruthState_eq_dec : EqDecision TruthState.
Proof. solve_decision. Defined.

(** Locations in the object store. *)
Abbreviation loc := nat (only parsing).

(** A clause is whatever [for literal in clause] walks through, in that
    order: the elements of a set, or of a list or tuple. *)
Abbreviation Clause := (list Literal).

Inductive obj :=
  | ClauseObj (lits : Clause)
  | ListObj (items : list loc).

(** ** The symbol queue: [heapq] on a list of [((importance, -cnt), literal)] *)

(** The notebook keeps the queue in a Python list and works on it with
    [heapq.heappush] and [heapq.heappop].  The functions below follow
    CPython's [heapq] module; every comparison they make is [<] on two
    entries. *)

(** [class QueueImportance(Enum)]: a plain [Enum], not an [IntEnum]. *)
Inductive QueueImportance := PURE | UNIT | REST.

#[global] Instance QueueImportance_eq_dec : EqDecision QueueImportance.
Proof. solve_decision. Defined.

(** [QueueImportance.value] *)
Definition importance_value (q : QueueImportance) : Z :=
  match q with PURE => 1 | UNIT => 2 | REST => 3 end%Z.

Definition key : Type := QueueImportance * Z.
Definition entry : Type := key * Literal.

(** [==] on members of a plain [Enum] is identity. *)
Definition importance_eq (a b : QueueImportance) : bool := bool_decide (a = b).

(** [<] on members of a plain [Enum] is not defined: Python raises
    [TypeError], whatever the two members are. *)
Definition importance_lt (a b : QueueImportance) : exn + bool := inl TypeError.

(** [==] and [<] on the pairs [(importance, -cnt)]: tuples compare at the
    first position where they differ, and by length when there is none. *)
Definition key_eq (k1 k2 : key) : bool :=
  importance_eq k1.1 k2.1 && (k1.2 =? k2.2)%Z.

Definition key_lt (k1 k2 : key) : exn + bool :=
  if negb (importance_eq k1.1 k2.1) then importance_lt k1.1 k2.1
  else if negb (k1.2 =? k2.2)%Z then inr (k1.2 <? k2.2)%Z
  else inr false.

(** [<] on heap entries, the comparison [heapq] uses. *)
Definition entry_lt (e1 e2 : entry) : exn + bool :=
  if negb (key_eq e1.1 e2.1) then key_lt e1.1 e2.1
  else if negb (Literal_eq e1.2 e2.2) then inr (Literal_lt e1.2 e2.2)
  else inr false.

Abbreviation heap := (list entry).

Definition compare_lt {S} (e1 e2 : entry) : M S bool :=
  match entry_lt e1 e2 with
  | inl e => raise e
  | inr b => ret b
  end.

(** [heap[i]] and [heap[i] = x]; the indices are never negative here. *)
Definition heap_get (i : nat) : M heap entry :=
  λ h, match h !! i with
       | Some x => (Val x, h)
       | None => (Raise IndexError, h)
       end.

Definition heap_set (i : nat) (x : entry) : M heap unit :=
  λ h, if decide (i < length h) then (Val tt, <[i := x]> h)
       else (Raise IndexError, h).

(** The [while pos > startpos] loop of [heapq._siftdown]; returns the
    position where [newitem] goes. *)
Fixpoint siftdown_loop (fuel : nat) (newitem : entry) (startpos pos : nat)
    : M heap nat :=
  if startpos <? pos then
    match fuel with
    | 0 => out_of_fuel
    | S fuel' =>
        let parentpos := Nat.shiftr (pos - 1) 1 in
        let* parent := heap_get parentpos in
        let* smaller := compare_lt newitem parent in
        if smaller then
          let* _ := heap_set pos parent in
          siftdown_loop fuel' newitem startpos parentpos
        else ret pos
    end
  else ret pos.

(** [heapq._siftdown(heap, startpos, pos)] *)
Definition siftdown (startpos pos : nat) : M heap unit :=
  let* newitem := heap_get pos in
  let* pos' := siftdown_loop pos newitem startpos pos in
  heap_set pos' newitem.

(** [heapq.heappush(heap, item)] *)
Definition heappush (item : entry) : M heap unit :=
  let* _ := modify (λ h, h ++ [item]) in
  let* h := get in
  siftdown 0 (length h - 1).

(** The [while childpos < endpos] loop of [heapq._siftup]; returns the leaf
    position that is left empty. *)
Fixpoint siftup_loop (fuel : nat) (endpos pos childpos : nat) : M heap nat :=
  if childpos <? endpos then
    match fuel with
    | 0 => out_of_fuel
    | S fuel' =>
        let rightpos := childpos + 1 in
        let* childpos' :=
          (if rightpos <? endpos then
             let* l := heap_get childpos in
             let* r := heap_get rightpos in
             let* smaller := compare_lt l r in
             ret (if negb smaller then rightpos else childpos)
           else ret childpos) in
        let* child := heap_get childpos' in
        let* _ := heap_set pos child in
        siftup_loop fuel' endpos childpos' (2 * childpos' + 1)
    end
  else ret pos.

(** [heapq._siftup(heap, pos)] *)
Definition siftup (pos : nat) : M heap unit :=
  let* h := get in
  let endpos := length h in
  let startpos := pos in
  let* newitem := heap_get pos in
  let* pos' := siftup_loop endpos endpos pos (2 * pos + 1) in
  let* _ := heap_set pos' newitem in
  siftdown startpos pos'.

(** [list.pop()] *)
Definition list_pop : M heap entry :=
  λ h, match last h with
       | Some x => (Val x, removelast h)
       | None => (Raise IndexError, h)
       end.

(** [heapq.heappop(heap)] *)
Definition heappop : M heap entry :=
  let* lastelt := list_pop in
  let* h := get in
  match h with
  | [] => ret lastelt
  | _ :: _ =>
      let* returnitem := heap_get 0 in
      let* _ := heap_set 0 lastelt in
      let* _ := siftup 0 in
      ret returnitem
  end.

(** ** The run state *)

(** [objs] is the object store: location [i] names [objs !! i].  [symbols]
    and [model] are the one heap and the one dict that [DPLLSatisfiable]
    creates and every [DPLL] frame works on. *)
Record state := mkState {
  objs : list obj;
  symbols : heap;
  model : gmap string TruthState
}.

Definition set_objs (f : list obj → list obj) (s : state) : state :=
  {| objs := f (objs s); symbols := symbols s; model := model s |}.
Definition set_symbols (h : heap) (s : state) : state :=
  {| objs := objs s; symbols := h; model := model s |}.
Definition set_model (f : gmap string TruthState → gmap string TruthState)
    (s : state) : state :=
  {| objs := objs s; symbols := symbols s; model := f (model s) |}.

(** Run a [heapq] call on the shared [symbols] list. *)
Definition on_symbols {A} (m : M heap A) : M state A :=
  λ s, let '(r, h) := m (symbols s) in (r, set_symbols h s).

(** Walk a clause: [for literal in clause], [len(clause)]. *)
Definition read_clause (c : loc) : M state Clause :=
  λ s, match objs s !! c with
       | Some (ClauseObj lits) => (Val lits, s)
       | _ => (BadRef, s)
       end.

(** Walk a list of clauses. *)
Definition read_list (l : loc) : M state (list loc) :=
  λ s, match objs s !! l with
       | Some (ListObj items) => (Val items, s)
       | _ => (BadRef, s)
       end.

(** [[]]: a new, empty list object. *)
Definition new_list : M state loc :=
  λ s, (Val (length (objs s)), set_objs (λ o, o ++ [ListObj []]) s).

(** [l.append(x)] *)
Definition list_append (l : loc) (x : loc) : M state unit :=
  λ s, match objs s !! l with
       | Some (ListObj items) =>
           (Val tt, set_objs (λ o, <[l := ListObj (items ++ [x])]> o) s)
       | _ => (BadRef, s)
       end.

(** [model[P] = v]; the key is the literal's name. *)
Definition model_set (P : Literal) (v : TruthState) : M state unit :=
  modify (set_model (λ m, <[name P := v]> m)).

(** ** [clauseSatisfied] *)

(** The body of [for literal in clause]; the loop-local variable is
    [clause_has_free]. *)
Definition literal_step (literal : Literal) (clause_has_free : bool)
    : M state (ctl bool bool) :=
  let* m := gets model in
  match m !! name literal with
  | Some tested_literal =>
      if decide (tested_literal = Free) then ret (Continue true)
      else if sign literal then
        if decide (tested_literal = StTrue) then ret (Return true)
        else ret (Continue clause_has_free)
      else
        if decide (tested_literal = StFalse) then ret (Return true)
        else ret (Continue clause_has_free)
  | None => ret (Continue clause_has_free)
  end.

(** Returns [Some true] for Python's [True] (the clause is satisfied),
    [None] for [None] (pending: some literal is free) and [Some false] for
    [False] (falsified). *)
Definition clauseSatisfied (clause : loc) : M state (option bool) :=
  let clause_has_free := false in
  let* literals := read_clause clause in
  let* scan := for_in literals literal_step clause_has_free in
  match scan with
  | Return b => ret (Some b)
  | Continue clause_has_free =>
      if clause_has_free then ret None else ret (Some false)
  end.

(** ** [DPLL] *)

(** The [for clause in clauses] loop of [DPLL]. *)
Definition DPLL_scan (clauses : list loc) (unsatisfied_clauses : loc)
    : M state (ctl unit bool) :=
  for_in clauses (λ clause _,
    let* c := clauseSatisfied clause in
    if decide (c = Some false) then ret (Return false)
    else
      let* _ := (if decide (c = None)
                 then list_append unsatisfied_clauses clause
                 else ret tt) in
      let* pending := read_list unsatisfied_clauses in
      match pending with
      | [] => ret (Return true)
      | _ :: _ => ret (Continue tt)
      end) tt.

(** [DPLL(clauses, symbols, model)] with a bound on the depth of the
    recursion.  The result is the flag [satisfiable]; the model returned
    with it is the [model] of the final state.  The interpreter's own
    recursion limit is not modelled. *)
Fixpoint DPLL_rec (fuel : nat) (clauses : loc) : M state bool :=
  match fuel with
  | 0 => out_of_fuel
  | S fuel' =>
      let satisfiable := false in
      let* unsatisfied_clauses := new_list in
      let* items := read_list clauses in
      let* scan := DPLL_scan items unsatisfied_clauses in
      match scan with
      | Return b => ret b
      | Continue _ =>
          let* syms := gets symbols in
          if 0 <? length syms then
            let* (cnt, P) := on_symbols heappop in
            let* _ := model_set P StTrue in
            let* satisfiable := DPLL_rec fuel' unsatisfied_clauses in
            if negb satisfiable then
              let* _ := model_set P StFalse in
              let* satisfiable := DPLL_rec fuel' unsatisfied_clauses in
              if negb satisfiable then
                let* _ := model_set P Free in
                let* _ := on_symbols (heappush (cnt, P)) in
                ret satisfiable
              else ret satisfiable
            else ret satisfiable
          else ret satisfiable
      end
  end.

(** Every frame below the first has popped a symbol, so the recursion is
    no deeper than one more than the number of queued symbols. *)
Definition DPLL (clauses : loc) : M state bool :=
  let* syms := gets symbols in
  DPLL_rec (S (length syms)) clauses.

(** ** [DPLLSatisfiable] *)

(** The three local tables of [DPLLSatisfiable].  [symbols_ranking] keeps
    its keys in the order they were first inserted, which is the order
    [.items()] walks them in; its keys, like those of [pure_symbols] and
    the members of [unit_clauses], are told apart by name. *)
Record ranker := mkRanker {
  symbols_ranking : list (Literal * Z);
  pure_symbols : gmap string (gset bool);
  unit_clauses : gset string
}.

(** [symbols_ranking[literal] += 1] on a [defaultdict(lambda: 0)]. *)
Fixpoint ranking_incr (d : list (Literal * Z)) (literal : Literal)
    : list (Literal * Z) :=
  match d with
  | [] => [(literal, 1%Z)]
  | (k, cnt) :: d' =>
      if Literal_eq k literal then (k, (cnt + 1)%Z) :: d'
      else (k, cnt) :: ranking_incr d' literal
  end.

(** [s.union(clause)]: a new set; [s] itself stays as it is. *)
Definition set_union (s : gset string) (clause : Clause) : gset string :=
  s ∪ list_to_set (name <$> clause).

(** [d[k]] *)
Definition dict_get {S V} (d : gmap string V) (k : string) : M S V :=
  match d !! k with
  | Some v => ret v
  | None => raise KeyError
  end.

(** The body of [for literal in clause]: count the occurrence and record
    the sign. *)
Definition rank_literal (literal : Literal) (r : ranker) : M state ranker :=
  let ranking := ranking_incr (symbols_ranking r) literal in
  let pure :=
    if decide (pure_symbols r !! name literal = None)
    then <[name literal := ∅]> (pure_symbols r)
    else pure_symbols r in
  let* signs := dict_get pure (name literal) in
  let pure := <[name literal := signs ∪ {[sign literal]}]> pure in
  ret {| symbols_ranking := ranking;
         pure_symbols := pure;
         unit_clauses := unit_clauses r |}.

(** The body of [for clause in kb].  The result of [unit_clauses.union] is
    not bound to anything. *)
Definition rank_clause (clause : loc) (r : ranker) : M state ranker :=
  let* literals := read_clause clause in
  let r :=
    if length literals =? 1
    then let _ := set_union (unit_clauses r) literals in r
    else r in
  for_each literals rank_literal r.

(** The second loop: what is pushed for one symbol. *)
Definition rank_entry (r : ranker) (literal : Literal) (cnt : Z) : M state entry :=
  let* signs := dict_get (pure_symbols r) (name literal) in
  if size signs =? 1 then ret ((PURE, (- cnt)%Z), literal)
  else if negb (bool_decide (name literal ∈ unit_clauses r))
       then ret ((REST, (- cnt)%Z), literal)
       else ret ((UNIT, (- cnt)%Z), literal).

(** [{symbol: 'Free' for symbol in symbols_ranking.keys()}] *)
Definition initial_model (d : list (Literal * Z)) : gmap string TruthState :=
  list_to_map ((λ kv, (name kv.1, Free)) <$> d).

(** The first loop of [DPLLSatisfiable], over the clauses of the [kb]. *)
Definition rank_symbols (kb_items : list loc) : M state ranker :=
  for_each kb_items rank_clause
    {| symbols_ranking := []; pure_symbols := ∅; unit_clauses := ∅ |}.

(** The second loop, over [symbols_ranking.items()]. *)
Definition push_symbol (r : ranker) (kv : Literal * Z) (_ : unit) : M state unit :=
  let* e := rank_entry r kv.1 kv.2 in
  on_symbols (heappush e).

Definition push_symbols (r : ranker) : M state unit :=
  for_each (symbols_ranking r) (push_symbol r) tt.

(** [DPLLSatisfiable] up to the point where the heap [symbols] is built. *)
Definition build_queue (kb : loc) : M state ranker :=
  let* kb_items := read_list kb in
  let* r := rank_symbols kb_items in
  let* _ := modify (set_symbols []) in
  let* _ := push_symbols r in
  ret r.

(** [DPLLSatisfiable(kb)] *)
Definition DPLLSatisfiable (kb : loc) : M state bool :=
  let clauses := kb in
  let* r := build_queue kb in
  let* _ := modify (set_model (λ _, initial_model (symbols_ranking r))) in
  DPLL clauses.

(** ** Running the solver on a knowledge base *)

(** A store that holds the clauses of [kb] at locations [0 .. n-1] and the
    list of them at location [n]. *)
Definition load (kb : list Clause) : state * loc :=
  ({| objs := (ClauseObj <$> kb) ++ [ListObj (seq 0 (length kb))];
      symbols := [];
      model := ∅ |},
   length kb).

(** The pair [(satisfiable, model)] that [DPLLSatisfiable(kb)] returns. *)
Definition solve (kb : list Clause) : outcome (bool * gmap string TruthState) :=
  let '(s, k) := load kb in
  match DPLLSatisfiable k s with
  | (Val b, s') => Val (b, model s')
  | (Raise e, _) => Raise e
  | (BadRef, _) => BadRef
  | (OutOfFuel, _) => OutOfFuel
  end.

(** The heap [symbols] as [DPLLSatisfiable(kb)] hands it to [DPLL]. *)
Definition queue_of (kb : list Clause) : outcome heap :=
  let '(s, k) := load kb in
  match build_queue k s with
  | (Val _, s') => Val (symbols s')
  | (Raise e, _) => Raise e
  | (BadRef, _) => BadRef
  | (OutOfFuel, _) => OutOfFuel
  end.

(** The clauses a knowledge base holds in a given state, when [kb] names
    a list of clause objects. *)
Definition read_kb (s : state) (kb : loc) : option (list Clause) :=
  match objs s !! kb with
  | Some (ListObj items) =>
      mapM (λ c, match objs s !! c with
                 | Some (ClauseObj lits) => Some lits
                 | _ => None
                 end) items
  | _ => None
  end.

(** [clauseSatisfied(clause, model)] for a clause and a model given as
    values: the clause is the only object of the store. *)
Definition evaluate (clause : Clause) (m : gmap string TruthState)
    : outcome (option bool) :=
  (clauseSatisfied 0 {| objs := [ClauseObj clause]; symbols := []; model := m |}).1.

(** The literals of the notebook's last cell. *)
Definition A : Literal := mkLiteral "A" true.
Definition B : Literal := mkLiteral "B" true.
Definition C : Literal := mkLiteral "C" true.
Definition D : Literal := mkLiteral "D" true.
Definition E : Literal := mkLiteral "E" true.
Definition F : Literal := mkLiteral "F" true.

(** ** Words of the specification *)

(** The literal is made true by the state its symbol is committed to. *)
Definition lit_matches (m : gmap string TruthState) (l : Literal) : Prop :=
  m !! name l = Some (if sign l then StTrue else StFalse).

(** The literal's symbol is [Free]. *)
Definition lit_free (m : gmap string TruthState) (l : Literal) : Prop :=
  m !! name l = Some Free.

Definition lit_matchesb (m : gmap string TruthState) (l : Literal) : bool :=
  bool_decide (m !! name l = Some (if sign l then StTrue else StFalse)).
Definition lit_freeb (m : gmap string TruthState) (l : Literal) : bool :=
  bool_decide (m !! name l = Some Free).

(** ** Relations between the states before and after a run *)

(** [m] takes every state to an [R]-related one, whatever its outcome. *)
Definition always {S X} (R : relation S) (m : M S X) : Prop :=
  ∀ s, R s (m s).2.

(** The store only grows at its end. *)
Definition grows (s s' : state) : Prop := objs s `prefix_of` objs s'.

(** The objects below location [u] stay as they are. *)
Definition keeps (u : loc) (s s' : state) : Prop :=
  ∀ o0 : list obj, length o0 ≤ u → o0 `prefix_of` objs s → o0 `prefix_of` objs s'.

(** Every entry of [m'] is the entry of [m] or is [Free]. *)
Definition undone (m m' : gmap string TruthState) : Prop :=
  ∀ k, m' !! k = m !! k ∨ m' !! k = Some Free.

(** The heap and the model are as they were; the store may differ. *)
Definition same_search (s s' : state) : Prop :=
  symbols s' = symbols s ∧ model s' = model s.

(** The heap is as long as it was. *)
Definition same_length (h h' : heap) : Prop := length h' = length h.

(** The bounds of the embedding are not what stops [m]. *)
Definition never_out_of_fuel {S X} (m : M S X) : Prop :=
  ∀ s, (m s).1 ≠ OutOfFuel.

(** ** The queue and the tables of the driver *)

(** The importance an entry was queued with. *)
Definition importance (e : entry) : QueueImportance := e.1.1.

(** Every entry of the heap has importance [c]. *)
Definition uniform (c : QueueImportance) (h : heap) : Prop :=
  Forall (λ e, importance e = c) h.

(** The symbol [x] occurs in [kb] with sign [b]. *)
Definition occurs (kb : list Clause) (x : string) (b : bool) : Prop :=
  ∃ c, c ∈ kb ∧ mkLiteral x b ∈ c.

(** The keys of [symbols_ranking], by name. *)
Definition names (d : list (Literal * Z)) : list string :=
  (λ kv, name kv.1) <$> d.

(** The importance [rank_entry] gives the symbol named [x]. *)
Definition class_of (r : ranker) (x : string) : QueueImportance :=
  match pure_symbols r !! x with
  | Some signs =>
      if size signs =? 1 then PURE
      else if negb (bool_decide (x ∈ unit_clauses r)) then REST else UNIT
  | None => REST
  end.

(** The tables after the literals [Ls] have gone through the first loop. *)
Record ranked (Ls : list Literal) (r : ranker) : Prop := {
  ranked_names :
    ∀ x, x ∈ names (symbols_ranking r) ↔ is_Some (pure_symbols r !! x);
  ranked_signs :
    ∀ x b, (∃ signs, pure_symbols r !! x = Some signs ∧ b ∈ signs)
           ↔ mkLiteral x b ∈ Ls;
  ranked_units : unit_clauses r = ∅
}.

(** ** What the search works with *)

(** The value [clauseSatisfied] returns, as a function of the model and of
    the literals of the clause. *)
Definition clause_value (m : gmap string TruthState) (lits : Clause) : option bool :=
  if existsb (lit_matchesb m) lits then Some true
  else if existsb (lit_freeb m) lits then None
  else Some false.

(** The loop of [DPLL] over the clauses [ps], each given with its
    location, started with [pending] in [unsatisfied_clauses]: how the
    loop ends and what [unsatisfied_clauses] holds then. *)
Fixpoint scan_pure (m : gmap string TruthState) (ps pending : list (loc * Clause))
    : ctl unit bool * list (loc * Clause) :=
  match ps with
  | [] => (Continue tt, pending)
  | p :: ps' =>
      match clause_value m p.2 with
      | Some false => (Return false, pending)
      | None => scan_pure m ps' (pending ++ [p])
      | Some true =>
          match pending with
          | [] => (Return true, pending)
          | _ :: _ => scan_pure m ps' pending
          end
      end
  end.

(** The list object at [cl] holds the locations of the clauses [ps]. *)
Definition clauses_at (s : state) (cl : loc) (ps : list (loc * Clause)) : Prop :=
  objs s !! cl = Some (ListObj ps.*1) ∧
  Forall (λ p, objs s !! p.1 = Some (ClauseObj p.2)) ps.

(** The names of the queued symbols. *)
Definition queued (h : heap) : list string := (λ e, name e.2) <$> h.

(** The queue holds each symbol once, and holds exactly the symbols that
    are [Free] in the model. *)
Definition queue_inv (s : state) : Prop :=
  NoDup (queued (symbols s)) ∧
  ∀ x, x ∈ queued (symbols s) ↔ model s !! x = Some Free.

(** Every symbol of the clauses has an entry in the model. *)
Definition covered (m : gmap string TruthState) (cs : list Clause) : Prop :=
  ∀ c l, c ∈ cs → l ∈ c → is_Some (m !! name l).

(** A truth assignment satisfies a clause when it makes one of its
    literals true. *)
Definition satisfies (v : string → bool) (c : Clause) : Prop :=
  ∃ l, l ∈ c ∧ v (name l) = sign l.

(** The assignment agrees with what the model has committed. *)
Definition extends (m : gmap string TruthState) (v : string → bool) : Prop :=
  ∀ x, (m !! x = Some StTrue → v x = true) ∧ (m !! x = Some StFalse → v x = false).

(** Two literals are the same value: the same name and the same sign.
    (Python's [==] on literals is [Literal_eq], which looks at the name
    only.) *)
#[global] Instance Literal_same_dec : EqDecision Literal.
Proof. solve_decision. Defined.

(** The entry the second loop of [DPLLSatisfiable] pushes for an item of
    [symbols_ranking]. *)
Definition entry_of (r : ranker) (kv : Literal * Z) : entry :=
  ((class_of r (name kv.1), (- kv.2)%Z), kv.1).

(** How many literals of [Ls] have the symbol [x]. *)
Definition occurrences (x : string) (Ls : list Literal) : nat :=
  length (filter (λ l, name l = x) Ls).

(** [Literal.__str__]: the name, after a ["-"] when the sign is [False]. *)
Definition Literal_str (l : Literal) : string :=
  if sign l then name l else String.append "-" (name l).

(** [Literal.__repr__]: the name. *)
Definition Literal_repr (l : Literal) : string := name l.

(** The string begins with ["-"]. *)
Definition starts_with_minus (x : string) : Prop :=
  ∃ rest, x = String.append "-" rest.

(** [m'] keeps every commitment of [m]; it may commit symbols that are
    [Free] or absent in [m]. *)
Definition commits_more (m m' : gmap string TruthState) : Prop :=
  ∀ x st, m !! x = Some st → st ≠ Free → m' !! x = Some st.

(** The literal's symbol has an entry in the model: [literal in model]. *)
Definition in_model (m : gmap string TruthState) (l : Literal) : bool :=
  bool_decide (is_Some (m !! name l)).

(** ** The importance of the symbols of a knowledge base *)

(** The knowledge base has a symbol that occurs with one sign only and a
    symbol that occurs with both signs. *)
Definition two_importances (kb : list Clause) : Prop :=
  ∃ x b y, occurs kb x b ∧ ¬ occurs kb x (negb b) ∧
           occurs kb y true ∧ occurs kb y false.

(** ** The order of the queue *)

(** [e1 <= e2] for two heap entries, as [heapq] tests it: [e2 < e1] is
    [False]. *)
Definition entry_le (e1 e2 : entry) : Prop := entry_lt e2 e1 = inr false.

(** The position above [j] in the heap. *)
Definition parent (j : nat) : nat := Nat.shiftr (j - 1) 1.

(** The invariant of [heapq]: no entry is smaller than the one above it. *)
Definition heap_ordered (h : heap) : Prop :=
  ∀ j x p, 0 < j → h !! j = Some x → h !! parent j = Some p → entry_le p x.

(** The invariant but for the position [pos], which is being filled. *)
Definition ordered_but (pos : nat) (h : heap) : Prop :=
  ∀ j x p, 0 < j → j ≠ pos → parent j ≠ pos →
    h !! j = Some x → h !! parent j = Some p → entry_le p x.

(** [item] may go above the entries below [pos]. *)
Definition fits_above (item : entry) (pos : nat) (h : heap) : Prop :=
  ∀ j x, 0 < j → parent j = pos → h !! j = Some x → entry_le item x.

(** The entry above [pos] may go above the entries below [pos]. *)
Definition skips (pos : nat) (h : heap) : Prop :=
  ∀ j x g, 0 < pos → 0 < j → parent j = pos →
    h !! j = Some x → h !! parent pos = Some g → entry_le g x.

(** The queue as [heapq] keeps it: entries of one importance, none
    smaller than the one above it. *)
Definition queue_ready (h : heap) : Prop :=
  (∃ c, uniform c h) ∧ heap_ordered h.

(** ** States that differ in the order of a walk *)

(** What the search reads of a queue entry: the pair it is ordered by and
    the name of its literal. *)
Definition entry_key (e : entry) : key * string := (e.1, name e.2).

(** Two objects that differ at most in the order in which a clause is
    walked. *)
Definition obj_sim (o o' : obj) : Prop :=
  match o, o' with
  | ClauseObj lits, ClauseObj lits' => lits ≡ₚ lits'
  | ListObj items, ListObj items' => items = items'
  | _, _ => False
  end.

(** Two states of the search that differ at most in the order in which
    the clauses are walked, in the sign of the literal that stands for a
    symbol in the queue, and in the layout of the queue. *)
Record sim (c : QueueImportance) (s t : state) : Prop := {
  sim_model : model s = model t;
  sim_queue : entry_key <$> symbols s ≡ₚ entry_key <$> symbols t;
  sim_uniform : uniform c (symbols s);
  sim_ordered_l : heap_ordered (symbols s);
  sim_ordered_r : heap_ordered (symbols t);
  sim_objs : Forall2 obj_sim (objs s) (objs t)
}.

(** A computation that maps states so related to states so related, with
    the same result. *)
Definition simulates {X} (c : QueueImportance) (m : M state X) : Prop :=
  ∀ s t x s1, sim c s t → m s = (Val x, s1) →
    ∃ t1, m t = (Val x, t1) ∧ sim c s1 t1.

(** The importance of a symbol by the signs it has among [Ls]. *)
Definition sign_class (Ls : list Literal) (x : string) : QueueImportance :=
  if bool_decide (mkLiteral x true ∈ Ls ∧ mkLiteral x false ∈ Ls)
  then REST else PURE.

(** What the queue holds for the symbol [x] of the literals [Ls]. *)
Definition symbol_key (Ls : list Literal) (x : string) : key * string :=
  ((sign_class Ls x, (- Z.of_nat (occurrences x Ls))%Z), x).

(** The assignment that makes the literal [l] true and otherwise follows
    what the model has committed. *)
Definition assignment_for (m : gmap string TruthState) (l : Literal)
    : string → bool :=
  λ x, if decide (x = name l) then sign l
       else bool_decide (m !! x = Some StTrue).

(** ** States used as instances *)

Definition pending_state : state :=
  {| objs := [ClauseObj [neg A; B]]; symbols := [];
     model := {[ "A"%string := StTrue; "B"%string := Free ]} |}.

Definition tautology_state : state :=
  {| objs := [ClauseObj [A; neg A]]; symbols := [];
     model := {[ "A"%string := StFalse ]} |}.

(** A knowledge base whose search fails, at the point where
    [DPLLSatisfiable] would call [DPLL]: the clauses [{Z}], [{A}], [{-A}]
    at locations 0 to 2, the list of them at 3. *)
Definition failing_state : state :=
  {| objs := [ClauseObj [mkLiteral "Z" true]; ClauseObj [A]; ClauseObj [neg A];
              ListObj [0; 1; 2]];
     symbols := [((REST, (-2)%Z), A); ((REST, (-1)%Z), mkLiteral "Z" true)];
     model := initial_model [(A, 2%Z); (mkLiteral "Z" true, 1%Z)] |}.

(** Two walks of one clause, and a model. *)
Definition two_walks_state : state :=
  {| objs := [ClauseObj [neg A; B; E]; ClauseObj [E; neg A; B; E]];
     symbols := []; model := {[ "B"%string := StTrue ]} |}.

(** A clause under a model, and under the model with [B] committed. *)
Definition before_commit_state : state :=
  {| objs := [ClauseObj [neg A; B]]; symbols := [];
     model := {[ "A"%string := StFalse; "B"%string := Free ]} |}.
Definition after_commit_state : state :=
  {| objs := [ClauseObj [neg A; B]]; symbols := [];
     model := {[ "A"%string := StFalse; "B"%string := StFalse ]} |}.

(** A clause with symbols the model lacks, and the clause without them. *)
Definition missing_symbols_state : state :=
  {| objs := [ClauseObj [C; neg A; D]; ClauseObj [neg A]]; symbols := [];
     model := {[ "A"%string := StTrue ]} |}.

(** The clause [{A, B}] at the point where [DPLLSatisfiable] would call
    [DPLL]: the clause at location 0, the list of clauses at 1. *)
Definition branching_state : state :=
  {| objs := [ClauseObj [A; B]; ListObj [0]];
     symbols := [((PURE, (-1)%Z), A); ((PURE, (-1)%Z), B)];
     model := initial_model [(A, 1%Z); (B, 1%Z)] |}.

(** * Properties *)

(** ** The loop over the literals of a clause *)

Section clauseSatisfied.
Implicit Types (s : state) (lits : Clause) (l : Literal).

Lemma literal_step_run l hf s :
  literal_step l hf s =
    (Val (if lit_matchesb (model s) l then Return true
          else Continue (hf || lit_freeb (model s) l)), s).
Proof.
  unfold literal_step, bind, gets, lit_matchesb, lit_freeb, lit_matches, lit_free.
  destruct (model s !! name l) as [[]|], (sign l), hf; reflexivity.
Qed.

Lemma literals_loop_run lits hf s :
  for_in lits literal_step hf s =
    (Val (if existsb (lit_matchesb (model s)) lits then Return true
          else Continue (hf || existsb (lit_freeb (model s)) lits)), s).
Proof.
  revert hf. induction lits as [|l lits IH]; intros hf; simpl.
  - by rewrite orb_false_r.
  - unfold bind at 1. rewrite literal_step_run.
    destruct (lit_matchesb (model s) l); simpl; [done|].
    rewrite IH. by rewrite orb_assoc.
Qed.

(** What a call returns, and that it leaves the state alone. *)
Lemma clauseSatisfied_run s c lits :
  objs s !! c = Some (ClauseObj lits) →
  clauseSatisfied c s =
    (Val (if existsb (lit_matchesb (model s)) lits then Some true
          else if existsb (lit_freeb (model s)) lits then None
          else Some false), s).
Proof.
  intros Hc. unfold clauseSatisfied, bind at 1, read_clause. rewrite Hc.
  unfold bind. rewrite literals_loop_run.
  destruct (existsb (lit_matchesb (model s)) lits); [done|]. simpl.
  by destruct (existsb (lit_freeb (model s)) lits).
Qed.

(** Whatever the outcome, the state after a call is the state before. *)
Lemma clauseSatisfied_state c s : (clauseSatisfied c s).2 = s.
Proof.
  destruct (objs s !! c) as [[lits|items]|] eqn:Hc.
  - by rewrite (clauseSatisfied_run _ _ _ Hc).
  - unfold clauseSatisfied, bind, read_clause. by rewrite Hc.
  - unfold clauseSatisfied, bind, read_clause. by rewrite Hc.
Qed.

Lemma existsb_matches m lits :
  existsb (lit_matchesb m) lits = true ↔ ∃ l, l ∈ lits ∧ lit_matches m l.
Proof.
  rewrite existsb_exists. unfold lit_matchesb.
  split; intros (l & Hl & H); exists l; (split; [by apply list_elem_of_In|]).
  - by apply bool_decide_eq_true in H.
  - by apply bool_decide_eq_true.
Qed.

Lemma existsb_free m lits :
  existsb (lit_freeb m) lits = true ↔ ∃ l, l ∈ lits ∧ lit_free m l.
Proof.
  rewrite existsb_exists. unfold lit_freeb.
  split; intros (l & Hl & H); exists l; (split; [by apply list_elem_of_In|]).
  - by apply bool_decide_eq_true in H.
  - by apply bool_decide_eq_true.
Qed.
End clauseSatisfied.

(** C8.  [clauseSatisfied] returns [True] exactly when some literal of the
    clause is made true by its symbol's committed state; failing that, it
    returns [None] exactly when some literal's symbol is [Free]; failing
    both, it returns [False].  The empty clause gives [False], and the
    call changes nothing: the state after it is the state before.  The
    statement holds for every model, also one that lacks some symbol of
    the clause. *)
Theorem clauseSatisfied_three_valued (s : state) (c : loc) (lits : Clause) :
  objs s !! c = Some (ClauseObj lits) →
  ∃ v, clauseSatisfied c s = (Val v, s) ∧
    (v = Some true ↔ ∃ l, l ∈ lits ∧ lit_matches (model s) l) ∧
    (v = None ↔
       (¬ ∃ l, l ∈ lits ∧ lit_matches (model s) l) ∧
       ∃ l, l ∈ lits ∧ lit_free (model s) l) ∧
    (v = Some false ↔
       (¬ ∃ l, l ∈ lits ∧ lit_matches (model s) l) ∧
       ¬ ∃ l, l ∈ lits ∧ lit_free (model s) l) ∧
    (lits = [] → v = Some false).
Proof.
  intros Hc. eexists. split; [by apply clauseSatisfied_run|].
  rewrite <- !existsb_matches, <- !existsb_free.
  destruct (existsb (lit_matchesb (model s)) lits) eqn:Hm,
           (existsb (lit_freeb (model s)) lits) eqn:Hf;
    repeat split; try done; try (intros []; done); try (by intros ->).
Qed.

Lemma clauseSatisfied_three_valued_witness :
  objs pending_state !! 0 = Some (ClauseObj [neg A; B]) ∧
  ∃ v, clauseSatisfied 0 pending_state = (Val v, pending_state) ∧
    (v = Some true ↔ ∃ l, l ∈ [neg A; B] ∧ lit_matches (model pending_state) l) ∧
    (v = None ↔
       (¬ ∃ l, l ∈ [neg A; B] ∧ lit_matches (model pending_state) l) ∧
       ∃ l, l ∈ [neg A; B] ∧ lit_free (model pending_state) l) ∧
    (v = Some false ↔
       (¬ ∃ l, l ∈ [neg A; B] ∧ lit_matches (model pending_state) l) ∧
       ¬ ∃ l, l ∈ [neg A; B] ∧ lit_free (model pending_state) l) ∧
    ([neg A; B] = [] → v = Some false).
Proof.
  split; [reflexivity|].
  apply (clauseSatisfied_three_valued pending_state 0 [neg A; B]).
  reflexivity.
Defined.

(** ** A clause with both polarities of a symbol *)

(** The set display [{A, -A}] holds one literal, the first one written,
    because [-A == A]; with [A] committed to [False] the clause is
    falsified. *)
Lemma both_polarities_set_falsified :
  set_display [A; neg A] = [A] ∧
  evaluate (set_display [A; neg A]) {[ "A"%string := StFalse ]} = Val (Some false).
Proof. split; reflexivity. Qed.

(** C9, amended.  A clause that, as it is walked, has a positive and a
    negative literal of a symbol with a model entry is never falsified: it
    is satisfied once the symbol is committed either way, and pending or
    satisfied while the symbol is [Free]. *)
Theorem both_polarities_never_falsified
    (s : state) (c : loc) (lits : Clause) (x : string) (st : TruthState) :
  objs s !! c = Some (ClauseObj lits) →
  mkLiteral x true ∈ lits →
  mkLiteral x false ∈ lits →
  model s !! x = Some st →
  ∃ v, clauseSatisfied c s = (Val v, s) ∧
       v ≠ Some false ∧ (st ≠ Free → v = Some true).
Proof.
  intros Hc Hpos Hneg Hx.
  eexists. split; [by apply clauseSatisfied_run|].
  destruct st.
  - assert (existsb (lit_matchesb (model s)) lits = true) as ->; [|done].
    apply existsb_matches. exists (mkLiteral x true). by split.
  - assert (existsb (lit_matchesb (model s)) lits = true) as ->; [|done].
    apply existsb_matches. exists (mkLiteral x false). by split.
  - assert (existsb (lit_freeb (model s)) lits = true) as ->.
    { apply existsb_free. exists (mkLiteral x true). by split. }
    by destruct (existsb (lit_matchesb (model s)) lits).
Qed.

Lemma both_polarities_never_falsified_witness :
  (objs tautology_state !! 0 = Some (ClauseObj [A; neg A]) ∧
   mkLiteral "A" true ∈ [A; neg A] ∧
   mkLiteral "A" false ∈ [A; neg A] ∧
   model tautology_state !! "A"%string = Some StFalse) ∧
  ∃ v, clauseSatisfied 0 tautology_state = (Val v, tautology_state) ∧
       v ≠ Some false ∧ (StFalse ≠ Free → v = Some true).
Proof.
  assert (mkLiteral "A" true ∈ [A; neg A]) as Hpos.
  { apply list_elem_of_In. simpl. auto. }
  assert (mkLiteral "A" false ∈ [A; neg A]) as Hneg.
  { apply list_elem_of_In. simpl. auto. }
  split; [by repeat split|].
  apply (both_polarities_never_falsified tautology_state 0 [A; neg A] "A" StFalse
           eq_refl Hpos Hneg eq_refl).
Defined.

(** ** What a run leaves of the objects it was given *)

Section frame.
Context {S : Type} {R : relation S} `{!PreOrder R}.

Lemma always_ret {X} (x : X) : always R (ret x).
Proof. intros s. reflexivity. Qed.

Lemma always_raise {X} e : always R (raise e : M S X).
Proof. intros s. reflexivity. Qed.

Lemma always_out_of_fuel {X} : always R (out_of_fuel : M S X).
Proof. intros s. reflexivity. Qed.

Lemma always_gets {X} (f : S → X) : always R (gets f).
Proof. intros s. reflexivity. Qed.

Lemma always_bind {X Y} (m : M S X) (k : X → M S Y) :
  always R m → (∀ x, always R (k x)) → always R (bind m k).
Proof.
  intros Hm Hk s. unfold bind. specialize (Hm s).
  destruct (m s) as [[x| | |] s1]; simpl in *; try done.
  etrans; [exact Hm|]. apply Hk.
Qed.

Lemma always_for_in {X L Y} (xs : list X) (body : X → L → M S (ctl L Y)) l :
  (∀ x l, always R (body x l)) → always R (for_in xs body l).
Proof.
  intros Hb. revert l. induction xs as [|x xs IH]; intros l; simpl.
  - apply always_ret.
  - apply always_bind; [apply Hb|]. intros [l'|r]; [apply IH|apply always_ret].
Qed.

Lemma always_for_each {X L} (xs : list X) (body : X → L → M S L) l :
  (∀ x l, always R (body x l)) → always R (for_each xs body l).
Proof.
  intros Hb. revert l. induction xs as [|x xs IH]; intros l; simpl.
  - apply always_ret.
  - apply always_bind; [apply Hb|]. intros l'. apply IH.
Qed.

Lemma always_same {X} (m : M S X) : (∀ s, (m s).2 = s) → always R m.
Proof. intros H s. by rewrite H. Qed.
End frame.

Lemma always_mono {S X} (R1 R2 : relation S) (m : M S X) :
  (∀ s s', R1 s s' → R2 s s') → always R1 m → always R2 m.
Proof. intros H Hm s. apply H, Hm. Qed.

#[local] Instance grows_preorder : PreOrder grows.
Proof.
  split.
  - intros s. unfold grows. reflexivity.
  - intros s1 s2 s3. unfold grows. intros H1 H2. by etrans.
Qed.

#[local] Instance keeps_preorder u : PreOrder (keeps u).
Proof.
  split.
  - by intros s o0 _ H.
  - intros s1 s2 s3 H1 H2 o0 Hl H. by apply H2, H1.
Qed.

Lemma grows_keeps u s s' : grows s s' → keeps u s s'.
Proof. intros H o0 _ H0. unfold grows in H. by etrans. Qed.

Lemma read_list_state l s : (read_list l s).2 = s.
Proof. unfold read_list. by destruct (objs s !! l) as [[]|]. Qed.

Lemma read_clause_state c s : (read_clause c s).2 = s.
Proof. unfold read_clause. by destruct (objs s !! c) as [[]|]. Qed.

Lemma on_symbols_objs {X} (m : M heap X) s : objs (on_symbols m s).2 = objs s.
Proof. unfold on_symbols. by destruct (m (symbols s)). Qed.

Lemma list_append_keeps u x : always (keeps u) (list_append u x).
Proof.
  intros s o0 Hl [k Hk]. unfold list_append.
  destruct (objs s !! u) as [[lits|items]|]; simpl; try by exists k.
  rewrite Hk, insert_app_r_alt by done. by eexists.
Qed.

Lemma DPLL_scan_keeps items u : always (keeps u) (DPLL_scan items u).
Proof.
  apply always_for_in. intros clause _.
  apply always_bind; [|].
  { apply always_same. apply clauseSatisfied_state. }
  intros c. destruct (decide (c = Some false)); [by apply always_ret|].
  apply always_bind; [|].
  { destruct (decide (c = None)); [apply list_append_keeps|by apply always_ret]. }
  intros _. apply always_bind; [|].
  { apply always_same. apply read_list_state. }
  intros [|? ?]; by apply always_ret.
Qed.

Lemma same_objs_grows {X} (m : M state X) :
  (∀ s, objs (m s).2 = objs s) → always grows m.
Proof. intros H s. unfold grows. by rewrite H. Qed.

Lemma on_symbols_grows {X} (m : M heap X) : always grows (on_symbols m).
Proof. apply same_objs_grows, on_symbols_objs. Qed.

Lemma model_set_grows P v : always grows (model_set P v).
Proof. intros s. unfold grows. reflexivity. Qed.

Lemma DPLL_rec_grows fuel clauses : always grows (DPLL_rec fuel clauses).
Proof.
  revert clauses. induction fuel as [|fuel IH]; intros clauses.
  - by apply always_out_of_fuel.
  - intros s. unfold grows.
    set (u := length (objs s)).
    set (s1 := set_objs (λ o, o ++ [ListObj []]) s).
    enough (keeps u s1 (DPLL_rec (Datatypes.S fuel) clauses s).2) as H.
    { apply H; [done|]. by exists [ListObj []]. }
    change (DPLL_rec (Datatypes.S fuel) clauses s) with
      ((let* items := read_list clauses in
        let* scan := DPLL_scan items u in
        match scan with
        | Return b => ret b
        | Continue _ =>
            let* syms := gets symbols in
            if 0 <? length syms then
              let* (cnt, P) := on_symbols heappop in
              let* _ := model_set P StTrue in
              let* satisfiable := DPLL_rec fuel u in
              if negb satisfiable then
                let* _ := model_set P StFalse in
                let* satisfiable := DPLL_rec fuel u in
                if negb satisfiable then
                  let* _ := model_set P Free in
                  let* _ := on_symbols (heappush (cnt, P)) in
                  ret satisfiable
                else ret satisfiable
              else ret satisfiable
            else ret false
        end) s1).
    generalize s1. change (always (keeps u) ?m) with (∀ s, keeps u s (m s).2).
    assert (∀ X (m : M state X), always grows m → always (keeps u) m) as Hg.
    { intros X m. apply always_mono, grows_keeps. }
    apply always_bind; [|].
    { apply always_same. apply read_list_state. }
    intros items. apply always_bind; [apply DPLL_scan_keeps|].
    intros [_|b]; [|by apply always_ret].
    apply always_bind; [by apply always_gets|].
    intros syms. destruct (0 <? length syms); [|by apply always_ret].
    apply always_bind; [apply Hg, on_symbols_grows|].
    intros [cnt P].
    apply always_bind; [apply Hg, model_set_grows|]. intros _.
    apply always_bind; [apply Hg, IH|]. intros sat1.
    destruct sat1; simpl; [by apply always_ret|].
    apply always_bind; [apply Hg, model_set_grows|]. intros _.
    apply always_bind; [apply Hg, IH|]. intros sat2.
    destruct sat2; simpl; [by apply always_ret|].
    apply always_bind; [apply Hg, model_set_grows|]. intros _.
    apply always_bind; [apply Hg, on_symbols_grows|]. intros _.
    by apply always_ret.
Qed.

Lemma dict_get_state {S V} (d : gmap string V) k (s : S) : (dict_get d k s).2 = s.
Proof. unfold dict_get. by destruct (d !! k). Qed.

Lemma rank_literal_state l r s : (rank_literal l r s).2 = s.
Proof.
  unfold rank_literal, bind, dict_get. by destruct (_ !! name l).
Qed.

Lemma rank_clause_state clause r s : (rank_clause clause r s).2 = s.
Proof.
  symmetry. revert s. change (always eq (rank_clause clause r)).
  apply always_bind.
  { apply always_same. apply read_clause_state. }
  intros lits. apply always_for_each. intros l r0.
  apply always_same. apply rank_literal_state.
Qed.

Lemma build_queue_grows kb : always grows (build_queue kb).
Proof.
  apply always_bind.
  { apply always_same. apply read_list_state. }
  intros items. apply always_bind.
  { apply always_for_each. intros c r. apply always_same. apply rank_clause_state. }
  intros r. apply always_bind; [by apply same_objs_grows|]. intros _.
  apply always_bind; [|intros; by apply always_ret].
  apply always_for_each. intros kv u. apply always_bind.
  - unfold rank_entry, dict_get. apply always_bind.
    + destruct (_ !! _); [by apply always_ret|by apply always_raise].
    + intros signs. destruct (size signs =? 1); [by apply always_ret|].
      destruct (negb _); by apply always_ret.
  - intros e. apply on_symbols_grows.
Qed.

Lemma DPLLSatisfiable_grows kb : always grows (DPLLSatisfiable kb).
Proof.
  apply always_bind; [apply build_queue_grows|]. intros r.
  apply always_bind; [by apply same_objs_grows|]. intros _.
  apply always_bind; [by apply always_gets|]. intros syms.
  apply DPLL_rec_grows.
Qed.

Lemma read_kb_grows s s' kb cs :
  grows s s' → read_kb s kb = Some cs → read_kb s' kb = Some cs.
Proof.
  unfold grows, read_kb. intros Hg.
  destruct (objs s !! kb) as [[lits|items]|] eqn:Hkb; try done.
  rewrite (prefix_lookup_Some _ _ _ _ Hkb Hg).
  rewrite !mapM_Some. intros H. eapply Forall2_impl; [exact H|]. intros c lits.
  cbv beta. destruct (objs s !! c) as [[lits'|its]|] eqn:Hc; try done.
  by rewrite (prefix_lookup_Some _ _ _ _ Hc Hg).
Qed.

(** C10.  [DPLLSatisfiable] leaves its knowledge base as it found it: the
    clauses read from [kb] before the call, in their order and with their
    literals and signs, are the clauses read from it afterwards, whether
    the call returned or raised. *)
Theorem DPLLSatisfiable_keeps_kb (s : state) (kb : loc) (cs : list Clause) :
  read_kb s kb = Some cs →
  read_kb (DPLLSatisfiable kb s).2 kb = Some cs.
Proof. apply read_kb_grows, DPLLSatisfiable_grows. Qed.

Lemma DPLLSatisfiable_keeps_kb_witness :
  read_kb (load [[neg A; B; E]; [neg B; A]; [neg E; A]]).1 3
    = Some [[neg A; B; E]; [neg B; A]; [neg E; A]] ∧
  read_kb (DPLLSatisfiable 3 (load [[neg A; B; E]; [neg B; A]; [neg E; A]]).1).2 3
    = Some [[neg A; B; E]; [neg B; A]; [neg E; A]].
Proof.
  split; [reflexivity|].
  apply (DPLLSatisfiable_keeps_kb
           (load [[neg A; B; E]; [neg B; A]; [neg E; A]]).1 3
           [[neg A; B; E]; [neg B; A]; [neg E; A]]).
  reflexivity.
Defined.

(** ** The model after a run that reports [False] *)

#[local] Instance same_search_preorder : PreOrder same_search.
Proof.
  split.
  - by intros s.
  - intros s1 s2 s3 [H1 H1'] [H2 H2']. unfold same_search in *. split; congruence.
Qed.

Lemma bind_Val {S X Y} (m : M S X) (k : X → M S Y) s y s' :
  bind m k s = (Val y, s') →
  ∃ x s1, m s = (Val x, s1) ∧ k x s1 = (Val y, s').
Proof.
  unfold bind. destruct (m s) as [[x| | |] s1]; try done. eauto.
Qed.

Lemma on_symbols_model {X} (m : M heap X) s : model (on_symbols m s).2 = model s.
Proof. unfold on_symbols. by destruct (m (symbols s)). Qed.

Lemma list_append_search u x : always same_search (list_append u x).
Proof.
  intros s. unfold list_append, same_search.
  by destruct (objs s !! u) as [[]|].
Qed.

Lemma DPLL_scan_search items u : always same_search (DPLL_scan items u).
Proof.
  apply always_for_in. intros clause _.
  apply always_bind.
  { apply always_same. apply clauseSatisfied_state. }
  intros c. destruct (decide (c = Some false)); [by apply always_ret|].
  apply always_bind.
  { destruct (decide (c = None)); [apply list_append_search|by apply always_ret]. }
  intros _. apply always_bind.
  { apply always_same. apply read_list_state. }
  intros [|? ?]; by apply always_ret.
Qed.

Lemma undone_refl m : undone m m.
Proof. intros k. by left. Qed.

Lemma DPLL_rec_undone fuel clauses s s' :
  DPLL_rec fuel clauses s = (Val false, s') → undone (model s) (model s').
Proof.
  revert clauses s s'. induction fuel as [|fuel IH]; intros clauses s s' H; [done|].
  cbn [DPLL_rec] in H.
  apply bind_Val in H as (u & s1 & Hnew & H).
  assert (model s1 = model s) as Hm1 by (by injection Hnew as <- <-).
  apply bind_Val in H as (items & s2 & Hrd & H).
  assert (s2 = s1) as -> by (by rewrite <- (read_list_state clauses s1), Hrd).
  apply bind_Val in H as (scan & s3 & Hscan & H).
  assert (model s3 = model s1) as Hm3.
  { pose proof (DPLL_scan_search items u s1) as [_ Hs]. by rewrite Hscan in Hs. }
  rewrite <- Hm1, <- Hm3. clear Hm1 Hm3 Hnew Hrd Hscan.
  destruct scan as [[]|b].
  2: { injection H as -> <-. apply undone_refl. }
  apply bind_Val in H as (syms & s4 & Hg & H). injection Hg as <- <-.
  destruct (0 <? length (symbols s3)).
  2: { injection H as <-. apply undone_refl. }
  apply bind_Val in H as ([cnt P] & s5 & Hpop & H).
  assert (model s5 = model s3) as Hm5.
  { by rewrite <- (on_symbols_model heappop s3), Hpop. }
  apply bind_Val in H as ([] & s6 & Hset & H). injection Hset as <-.
  apply bind_Val in H as (sat1 & s7 & Hrec1 & H).
  destruct sat1; [done|]. cbn [negb] in H.
  apply IH in Hrec1. cbn in Hrec1.
  apply bind_Val in H as ([] & s8 & Hset & H). injection Hset as <-.
  apply bind_Val in H as (sat2 & s9 & Hrec2 & H).
  destruct sat2; [done|]. cbn [negb] in H.
  apply IH in Hrec2. cbn in Hrec2.
  apply bind_Val in H as ([] & s10 & Hset & H). injection Hset as <-.
  apply bind_Val in H as ([] & s11 & Hpush & H).
  injection H as <-.
  assert (model s11 = <[name P := Free]> (model s9)) as ->.
  { pose proof (on_symbols_model (heappush (cnt, P))
                  (set_model (λ m, <[name P := Free]> m) s9)) as Hp.
    by rewrite Hpush in Hp. }
  rewrite Hm5 in Hrec1. intros k.
  destruct (decide (k = name P)) as [->|Hk].
  - right. apply lookup_insert_eq.
  - rewrite lookup_insert_ne by done.
    destruct (Hrec2 k) as [H2|H2]; [|by right].
    rewrite lookup_insert_ne in H2 by done.
    destruct (Hrec1 k) as [H1|H1]; [|right; congruence].
    rewrite lookup_insert_ne in H1 by done.
    left. congruence.
Qed.

Lemma initial_model_free d k v : initial_model d !! k = Some v → v = Free.
Proof.
  unfold initial_model. intros H.
  apply elem_of_list_to_map_2 in H. apply list_elem_of_fmap in H as (kv & Heq & _).
  by injection Heq.
Qed.

Lemma DPLLSatisfiable_false_free kb s s' :
  DPLLSatisfiable kb s = (Val false, s') →
  ∀ k v, model s' !! k = Some v → v = Free.
Proof.
  unfold DPLLSatisfiable. intros H.
  apply bind_Val in H as (r & s1 & _ & H).
  apply bind_Val in H as ([] & s2 & Hset & H). injection Hset as <-.
  apply bind_Val in H as (syms & s3 & Hg & H). injection Hg as _ <-.
  apply DPLL_rec_undone in H. cbn in H.
  intros k v Hk. destruct (H k) as [Hk'|Hk']; rewrite Hk' in Hk.
  - by apply initial_model_free in Hk.
  - congruence.
Qed.

(** C5.  When [DPLLSatisfiable] returns [False], every entry of the model
    it returns is [Free]. *)
Theorem unsatisfiable_model_all_free
    (kb : list Clause) (m : gmap string TruthState) :
  solve kb = Val (false, m) →
  ∀ k v, m !! k = Some v → v = Free.
Proof.
  unfold solve. destruct (load kb) as [s k0].
  destruct (DPLLSatisfiable k0 s) as [[b| | |] s'] eqn:Hrun; try done.
  intros [= -> <-]. by apply (DPLLSatisfiable_false_free _ _ _ Hrun).
Qed.

Lemma unsatisfiable_model_all_free_witness :
  solve [[mkLiteral "Z" true]; [A]; [neg A]; [mkLiteral "Z" false]]
    = Val (false, {[ "A"%string := Free; "Z"%string := Free ]}) ∧
  ∀ k v,
    ({[ "A"%string := Free; "Z"%string := Free ]} : gmap string TruthState) !! k
      = Some v → v = Free.
Proof.
  assert (solve [[mkLiteral "Z" true]; [A]; [neg A]; [mkLiteral "Z" false]]
          = Val (false, {[ "A"%string := Free; "Z"%string := Free ]})) as Hrun.
  { vm_compute. reflexivity. }
  split; [exact Hrun|].
  exact (unsatisfiable_model_all_free _ _ Hrun).
Defined.

(** ** The recursion bound is never reached *)

#[local] Instance same_length_preorder : PreOrder same_length.
Proof.
  split.
  - by intros h.
  - intros h1 h2 h3 H1 H2. unfold same_length in *. congruence.
Qed.

Lemma bind_fuel {S X Y} (m : M S X) (k : X → M S Y) s :
  (m s).1 ≠ OutOfFuel →
  (∀ x s1, m s = (Val x, s1) → (k x s1).1 ≠ OutOfFuel) →
  (bind m k s).1 ≠ OutOfFuel.
Proof.
  unfold bind. destruct (m s) as [[x| | |] s1]; simpl; try done.
  intros _ H. by apply H.
Qed.

Lemma heap_get_state i h : (heap_get i h).2 = h.
Proof. unfold heap_get. by destruct (h !! i). Qed.

Lemma heap_get_fuel i h : (heap_get i h).1 ≠ OutOfFuel.
Proof. unfold heap_get. by destruct (h !! i). Qed.

Lemma compare_lt_state {S} e1 e2 (s : S) : (compare_lt e1 e2 s).2 = s.
Proof. unfold compare_lt. by destruct (entry_lt e1 e2). Qed.

Lemma compare_lt_fuel {S} e1 e2 (s : S) : (compare_lt e1 e2 s).1 ≠ OutOfFuel.
Proof. unfold compare_lt. by destruct (entry_lt e1 e2). Qed.

Lemma heap_set_length i x : always same_length (heap_set i x).
Proof.
  intros h. unfold heap_set, same_length.
  destruct (decide (i < length h)); simpl; [apply length_insert|done].
Qed.

Lemma heap_set_fuel i x h : (heap_set i x h).1 ≠ OutOfFuel.
Proof. unfold heap_set. by destruct (decide (i < length h)). Qed.

Lemma siftdown_loop_length fuel newitem startpos pos :
  always same_length (siftdown_loop fuel newitem startpos pos).
Proof.
  revert pos. induction fuel as [|fuel IH]; intros pos; simpl;
    (destruct (startpos <? pos); [|by apply always_ret]).
  - by apply always_out_of_fuel.
  - apply always_bind; [apply always_same, heap_get_state|]. intros parent.
    apply always_bind; [apply always_same, compare_lt_state|]. intros [|].
    + apply always_bind; [apply heap_set_length|]. intros _. apply IH.
    + by apply always_ret.
Qed.

Lemma shiftr_pred_le pos : Nat.shiftr (pos - 1) 1 ≤ pos - 1.
Proof.
  change (Nat.shiftr (pos - 1) 1) with (Nat.div2 (pos - 1)).
  rewrite Nat.div2_div. apply Nat.Div0.div_le_upper_bound. lia.
Qed.

Lemma siftdown_loop_fuel fuel newitem startpos pos h :
  pos ≤ fuel → (siftdown_loop fuel newitem startpos pos h).1 ≠ OutOfFuel.
Proof.
  revert pos h. induction fuel as [|fuel IH]; intros pos h Hle; simpl;
    (destruct (startpos <? pos) eqn:Hlt; [|done]).
  - apply Nat.ltb_lt in Hlt. lia.
  - apply bind_fuel; [apply heap_get_fuel|]. intros parent h1 _.
    apply bind_fuel; [apply compare_lt_fuel|]. intros [|] h2 _; [|done].
    apply bind_fuel; [apply heap_set_fuel|]. intros _ h3 _.
    apply IH. pose proof (shiftr_pred_le pos) as Hp.
    change (Nat.shiftr (pos - 1) 1) with (Nat.div2 (pos - 1)) in Hp.
    apply Nat.ltb_lt in Hlt. lia.
Qed.

Lemma siftdown_length startpos pos : always same_length (siftdown startpos pos).
Proof.
  apply always_bind; [apply always_same, heap_get_state|]. intros newitem.
  apply always_bind; [apply siftdown_loop_length|]. intros pos'.
  apply heap_set_length.
Qed.

Lemma siftdown_fuel startpos pos h : (siftdown startpos pos h).1 ≠ OutOfFuel.
Proof.
  apply bind_fuel; [apply heap_get_fuel|]. intros newitem h1 _.
  apply bind_fuel; [by apply siftdown_loop_fuel|]. intros pos' h2 _.
  apply heap_set_fuel.
Qed.

Lemma heappush_length item h : length (heappush item h).2 = Datatypes.S (length h).
Proof.
  unfold heappush, bind at 1, modify. unfold bind, get.
  rewrite (siftdown_length 0 _ (h ++ [item])).
  rewrite length_app. simpl. lia.
Qed.

Lemma heappush_fuel item h : (heappush item h).1 ≠ OutOfFuel.
Proof.
  apply bind_fuel; [done|]. intros _ h1 _.
  apply bind_fuel; [done|]. intros h2 h3 _. apply siftdown_fuel.
Qed.

Lemma siftup_loop_length fuel endpos pos childpos :
  always same_length (siftup_loop fuel endpos pos childpos).
Proof.
  revert pos childpos. induction fuel as [|fuel IH]; intros pos childpos; simpl;
    (destruct (childpos <? endpos); [|by apply always_ret]).
  - by apply always_out_of_fuel.
  - apply always_bind.
    { destruct (childpos + 1 <? endpos); [|by apply always_ret].
      apply always_bind; [apply always_same, heap_get_state|]. intros l.
      apply always_bind; [apply always_same, heap_get_state|]. intros r.
      apply always_bind; [apply always_same, compare_lt_state|]. intros b.
      by apply always_ret. }
    intros childpos'.
    apply always_bind; [apply always_same, heap_get_state|]. intros child.
    apply always_bind; [apply heap_set_length|]. intros _. apply IH.
Qed.

Lemma siftup_loop_fuel fuel endpos pos childpos h :
  endpos ≤ fuel + childpos →
  (siftup_loop fuel endpos pos childpos h).1 ≠ OutOfFuel.
Proof.
  revert pos childpos h.
  induction fuel as [|fuel IH]; intros pos childpos h Hle; simpl;
    (destruct (childpos <? endpos) eqn:Hlt; [|done]).
  - apply Nat.ltb_lt in Hlt. lia.
  - apply Nat.ltb_lt in Hlt.
    unfold bind at 1.
    destruct (childpos + 1 <? endpos).
    + unfold bind at 1. pose proof (heap_get_fuel childpos h) as Hl.
      destruct (heap_get childpos h) as [[l| | |] h1]; simpl in *; try done.
      unfold bind at 1. pose proof (heap_get_fuel (childpos + 1) h1) as Hr.
      destruct (heap_get (childpos + 1) h1) as [[r| | |] h2]; simpl in *; try done.
      unfold bind at 1. pose proof (compare_lt_fuel l r h2) as Hc.
      destruct (compare_lt l r h2) as [[b| | |] h3]; simpl in *; try done.
      apply bind_fuel; [apply heap_get_fuel|]. intros child h4 _.
      apply bind_fuel; [apply heap_set_fuel|]. intros _ h5 _.
      apply IH. destruct b; simpl; lia.
    + simpl.
      apply bind_fuel; [apply heap_get_fuel|]. intros child h4 _.
      apply bind_fuel; [apply heap_set_fuel|]. intros _ h5 _.
      apply IH. lia.
Qed.

Lemma siftup_length pos : always same_length (siftup pos).
Proof.
  apply always_bind; [by apply always_gets|]. intros h.
  apply always_bind; [apply always_same, heap_get_state|]. intros newitem.
  apply always_bind; [apply siftup_loop_length|]. intros pos'.
  apply always_bind; [apply heap_set_length|]. intros _.
  apply siftdown_length.
Qed.

Lemma siftup_fuel pos h : (siftup pos h).1 ≠ OutOfFuel.
Proof.
  apply bind_fuel; [done|]. intros h0 h1 [= <- <-].
  apply bind_fuel; [apply heap_get_fuel|]. intros newitem h2 _.
  apply bind_fuel; [apply siftup_loop_fuel; lia|]. intros pos' h3 _.
  apply bind_fuel; [apply heap_set_fuel|]. intros _ h4 _.
  apply siftdown_fuel.
Qed.

Lemma heappop_fuel h : (heappop h).1 ≠ OutOfFuel.
Proof.
  apply bind_fuel.
  { unfold list_pop. by destruct (last h). }
  intros lastelt h1 _. apply bind_fuel; [done|]. intros h2 h3 _.
  destruct h2; [done|].
  apply bind_fuel; [apply heap_get_fuel|]. intros returnitem h4 _.
  apply bind_fuel; [apply heap_set_fuel|]. intros _ h5 _.
  apply bind_fuel; [apply siftup_fuel|]. by intros _ h6 _.
Qed.

Lemma heappop_length h e h' :
  heappop h = (Val e, h') → length h = Datatypes.S (length h').
Proof.
  intros H. apply bind_Val in H as (lastelt & h1 & Hpop & H).
  assert (length h = Datatypes.S (length h1)) as ->.
  { unfold list_pop in Hpop. destruct (last h) eqn:Hlast; [|done].
    injection Hpop as _ <-. apply last_Some in Hlast as [h0 ->].
    rewrite removelast_last, length_app. simpl. lia. }
  f_equal. clear Hpop.
  assert (always same_length
            (let* h2 := get in
             match h2 with
             | [] => ret lastelt
             | _ :: _ =>
                 let* returnitem := heap_get 0 in
                 let* _ := heap_set 0 lastelt in
                 let* _ := siftup 0 in
                 ret returnitem
             end)) as Hlen.
  { apply always_bind; [by apply always_gets|]. intros [|? ?]; [by apply always_ret|].
    apply always_bind; [apply always_same, heap_get_state|]. intros returnitem.
    apply always_bind; [apply heap_set_length|]. intros _.
    apply always_bind; [apply siftup_length|]. intros _. by apply always_ret. }
  specialize (Hlen h1). rewrite H in Hlen. by symmetry.
Qed.

Lemma never_bind {S X Y} (m : M S X) (k : X → M S Y) :
  never_out_of_fuel m → (∀ x, never_out_of_fuel (k x)) →
  never_out_of_fuel (bind m k).
Proof. intros Hm Hk s. apply bind_fuel; [apply Hm|]. intros x s1 _. apply Hk. Qed.

Lemma never_for_in {S X L Y} (xs : list X) (body : X → L → M S (ctl L Y)) l :
  (∀ x l, never_out_of_fuel (body x l)) → never_out_of_fuel (for_in xs body l).
Proof.
  intros Hb. revert l. induction xs as [|x xs IH]; intros l; simpl; [done|].
  apply never_bind; [apply Hb|]. intros [l'|r]; [apply IH|done].
Qed.

Lemma never_for_each {S X L} (xs : list X) (body : X → L → M S L) l :
  (∀ x l, never_out_of_fuel (body x l)) → never_out_of_fuel (for_each xs body l).
Proof.
  intros Hb. revert l. induction xs as [|x xs IH]; intros l; simpl; [done|].
  apply never_bind; [apply Hb|]. intros l'. apply IH.
Qed.

Lemma read_clause_never c : never_out_of_fuel (read_clause c).
Proof. intros s. unfold read_clause. by destruct (objs s !! c) as [[]|]. Qed.

Lemma read_list_never l : never_out_of_fuel (read_list l).
Proof. intros s. unfold read_list. by destruct (objs s !! l) as [[]|]. Qed.

Lemma clauseSatisfied_never c : never_out_of_fuel (clauseSatisfied c).
Proof.
  apply never_bind; [apply read_clause_never|]. intros lits.
  apply never_bind.
  - apply never_for_in. intros l hf s. by rewrite literal_step_run.
  - intros [[|]|b]; done.
Qed.

Lemma DPLL_scan_never items u : never_out_of_fuel (DPLL_scan items u).
Proof.
  apply never_for_in. intros clause _.
  apply never_bind; [apply clauseSatisfied_never|]. intros c.
  destruct (decide (c = Some false)); [done|].
  apply never_bind.
  { destruct (decide (c = None)); [|done].
    intros s. unfold list_append. by destruct (objs s !! u) as [[]|]. }
  intros _. apply never_bind; [apply read_list_never|]. by intros [|? ?].
Qed.

Lemma on_symbols_fst {X} (m : M heap X) s : (on_symbols m s).1 = (m (symbols s)).1.
Proof. unfold on_symbols. by destruct (m (symbols s)). Qed.

Lemma on_symbols_symbols {X} (m : M heap X) s :
  symbols (on_symbols m s).2 = (m (symbols s)).2.
Proof. unfold on_symbols. by destruct (m (symbols s)). Qed.

(** A frame that reports [False] hands the queue back as long as it got
    it. *)
Lemma DPLL_rec_false_symbols fuel clauses s s' :
  DPLL_rec fuel clauses s = (Val false, s') →
  length (symbols s') = length (symbols s).
Proof.
  revert clauses s s'. induction fuel as [|fuel IH]; intros clauses s s' H; [done|].
  cbn [DPLL_rec] in H.
  apply bind_Val in H as (u & s1 & Hnew & H).
  assert (symbols s1 = symbols s) as Hm1 by (by injection Hnew as <- <-).
  apply bind_Val in H as (items & s2 & Hrd & H).
  assert (s2 = s1) as -> by (by rewrite <- (read_list_state clauses s1), Hrd).
  apply bind_Val in H as (scan & s3 & Hscan & H).
  assert (symbols s3 = symbols s1) as Hm3.
  { pose proof (DPLL_scan_search items u s1) as [Hs _]. by rewrite Hscan in Hs. }
  rewrite <- Hm1, <- Hm3. clear Hm1 Hm3 Hnew Hrd Hscan.
  destruct scan as [[]|b].
  2: { by injection H as -> <-. }
  apply bind_Val in H as (syms & s4 & Hg & H). injection Hg as <- <-.
  destruct (0 <? length (symbols s3)).
  2: { by injection H as <-. }
  apply bind_Val in H as ([cnt P] & s5 & Hpop & H).
  assert (length (symbols s3) = Datatypes.S (length (symbols s5))) as ->.
  { pose proof (on_symbols_symbols heappop s3) as Hs.
    pose proof (on_symbols_fst heappop s3) as Hf.
    rewrite Hpop in Hs, Hf. simpl in Hs, Hf.
    destruct (heappop (symbols s3)) as [r h'] eqn:Hh. simpl in *. subst.
    by apply heappop_length in Hh. }
  apply bind_Val in H as ([] & s6 & Hset & H). injection Hset as <-.
  apply bind_Val in H as (sat1 & s7 & Hrec1 & H).
  destruct sat1; [done|]. cbn [negb] in H.
  apply IH in Hrec1. cbn in Hrec1.
  apply bind_Val in H as ([] & s8 & Hset & H). injection Hset as <-.
  apply bind_Val in H as (sat2 & s9 & Hrec2 & H).
  destruct sat2; [done|]. cbn [negb] in H.
  apply IH in Hrec2. cbn in Hrec2.
  apply bind_Val in H as ([] & s10 & Hset & H). injection Hset as <-.
  apply bind_Val in H as ([] & s11 & Hpush & H).
  injection H as <-.
  pose proof (on_symbols_symbols (heappush (cnt, P))
                (set_model (λ m, <[name P := Free]> m) s9)) as Hs.
  rewrite Hpush in Hs. simpl in Hs. rewrite Hs, heappush_length. congruence.
Qed.

Lemma DPLL_rec_fuel fuel clauses s :
  length (symbols s) < fuel → (DPLL_rec fuel clauses s).1 ≠ OutOfFuel.
Proof.
  revert clauses s. induction fuel as [|fuel IH]; intros clauses s Hlt; [lia|].
  cbn [DPLL_rec].
  apply bind_fuel; [done|]. intros u s1 Hnew.
  assert (symbols s1 = symbols s) as Hm1 by (by injection Hnew as <- <-).
  apply bind_fuel; [apply read_list_never|]. intros items s2 Hrd.
  assert (s2 = s1) as -> by (by rewrite <- (read_list_state clauses s1), Hrd).
  apply bind_fuel; [apply DPLL_scan_never|]. intros scan s3 Hscan.
  assert (symbols s3 = symbols s1) as Hm3.
  { pose proof (DPLL_scan_search items u s1) as [Hs _]. by rewrite Hscan in Hs. }
  rewrite <- Hm1, <- Hm3 in Hlt. clear Hm1 Hm3 Hnew Hrd Hscan.
  destruct scan as [[]|b]; [|done].
  apply bind_fuel; [done|]. intros syms s4 [= <- <-].
  destruct (0 <? length (symbols s3)); [|done].
  apply bind_fuel.
  { rewrite on_symbols_fst. apply heappop_fuel. }
  intros [cnt P] s5 Hpop.
  assert (length (symbols s3) = Datatypes.S (length (symbols s5))) as Hlen.
  { pose proof (on_symbols_symbols heappop s3) as Hs.
    pose proof (on_symbols_fst heappop s3) as Hf.
    rewrite Hpop in Hs, Hf. simpl in Hs, Hf.
    destruct (heappop (symbols s3)) as [r h'] eqn:Hh. simpl in *. subst.
    by apply heappop_length in Hh. }
  apply bind_fuel; [done|]. intros [] s6 [= <-].
  apply bind_fuel; [apply IH; simpl; lia|]. intros sat1 s7 Hrec1.
  destruct sat1; [done|]. cbn [negb].
  apply DPLL_rec_false_symbols in Hrec1. cbn in Hrec1.
  apply bind_fuel; [done|]. intros [] s8 [= <-].
  apply bind_fuel; [apply IH; simpl; lia|]. intros sat2 s9 Hrec2.
  destruct sat2; [done|]. cbn [negb].
  apply bind_fuel; [done|]. intros [] s10 [= <-].
  apply bind_fuel; [|done].
  rewrite on_symbols_fst. apply heappush_fuel.
Qed.

Lemma rank_clause_never clause r : never_out_of_fuel (rank_clause clause r).
Proof.
  apply never_bind; [apply read_clause_never|]. intros lits.
  apply never_for_each. intros l r0 s.
  unfold rank_literal, bind, dict_get. by destruct (_ !! name l).
Qed.

Lemma build_queue_never kb : never_out_of_fuel (build_queue kb).
Proof.
  apply never_bind; [apply read_list_never|]. intros items.
  apply never_bind; [apply never_for_each, rank_clause_never|]. intros r.
  apply never_bind; [done|]. intros _.
  apply never_bind; [|done].
  apply never_for_each. intros kv u. apply never_bind.
  - intros s. unfold rank_entry, bind, dict_get.
    destruct (_ !! _); simpl; [|done].
    destruct (size _ =? 1); [done|]. by destruct (negb _).
  - intros e s. rewrite on_symbols_fst. apply heappush_fuel.
Qed.

(** The bounds on the loops of [heapq] and on the depth of [DPLL] are
    never hit: a call of [DPLLSatisfiable] returns or raises. *)
Theorem DPLLSatisfiable_terminates kb s : (DPLLSatisfiable kb s).1 ≠ OutOfFuel.
Proof.
  revert s. apply never_bind; [apply build_queue_never|]. intros r.
  apply never_bind; [done|]. intros _.
  intros s. apply bind_fuel; [done|]. intros syms s1 [= <- <-].
  apply DPLL_rec_fuel. lia.
Qed.

(** ** Runs on the knowledge bases the specification names *)

(** C1.  On [[{A}, {-A}]] the call returns [True] with [A] committed to
    [True]: the frame entered with [A = True] finds [{A}] satisfied while
    nothing is pending yet, and returns before it looks at [{-A}]. *)
Theorem solve_contradicting_units :
  solve [set_display [A]; set_display [neg A]]
  = Val (true, {[ "A"%string := StTrue ]}).
Proof. vm_compute. reflexivity. Qed.

(** C2.  A run that returns [True] with a model under which a clause of
    the knowledge base is falsified. *)
Theorem solve_true_leaves_falsified_clause :
  ∃ m, solve [set_display [A]; set_display [neg A]] = Val (true, m) ∧
       evaluate (set_display [neg A]) m = Val (Some false).
Proof.
  exists {[ "A"%string := StTrue ]}. split; vm_compute; reflexivity.
Qed.

(** C3.  A knowledge base with a pure symbol, [B], and one that is not,
    [A]: pushing the second ranked symbol compares [(REST, -2)] with
    [(PURE, -1)], and the call raises [TypeError]. *)
Theorem solve_raises_TypeError :
  solve [set_display [A]; set_display [neg A]; set_display [B]] = Raise TypeError.
Proof. vm_compute. reflexivity. Qed.

(** C6.  On the empty knowledge base the loop over the clauses does not
    run, no symbol is queued, and the call returns the initial [False]. *)
Theorem solve_empty_kb : solve [] = Val (false, ∅).
Proof. vm_compute. reflexivity. Qed.

(** [A] occurs with both signs and in the unit clause [{A}], and it is
    queued as [REST]. *)
Lemma unit_symbol_ranked_REST :
  queue_of [set_display [A]; set_display [neg A]] = Val [((REST, (-2)%Z), A)].
Proof. vm_compute. reflexivity. Qed.

(** ** Pushing symbols of different importance *)

Lemma entry_lt_same e1 e2 :
  importance e1 = importance e2 → ∃ b, entry_lt e1 e2 = inr b.
Proof.
  destruct e1 as [[c1 n1] l1], e2 as [[c2 n2] l2]. unfold importance. simpl.
  intros ->. unfold entry_lt, key_eq, key_lt, importance_eq. simpl.
  rewrite bool_decide_eq_true_2 by done. simpl.
  destruct (n1 =? n2)%Z; simpl; [|by eexists].
  destruct (Literal_eq l1 l2); simpl; by eexists.
Qed.

Lemma entry_lt_differ e1 e2 :
  importance e1 ≠ importance e2 → entry_lt e1 e2 = inl TypeError.
Proof.
  destruct e1 as [[c1 n1] l1], e2 as [[c2 n2] l2]. unfold importance. simpl.
  intros Hne. unfold entry_lt, key_eq, key_lt, importance_eq. simpl.
  by rewrite bool_decide_eq_false_2 by done.
Qed.

Section one_importance.
Variable c : QueueImportance.

Lemma siftdown_loop_uniform fuel newitem pos h :
  pos ≤ fuel → pos < length h → uniform c h → importance newitem = c →
  ∃ pos' h', siftdown_loop fuel newitem 0 pos h = (Val pos', h') ∧
             pos' < length h' ∧ uniform c h' ∧ length h' = length h.
Proof.
  revert pos h. induction fuel as [|fuel IH]; intros pos h Hle Hpos Hu Hn;
    cbn [siftdown_loop].
  - assert (pos = 0) as -> by lia. by exists 0, h.
  - destruct (0 <? pos) eqn:Hlt; [|by exists pos, h].
    apply Nat.ltb_lt in Hlt.
    pose proof (shiftr_pred_le pos) as Hp.
    destruct (lookup_lt_is_Some_2 h (Nat.shiftr (pos - 1) 1)) as [parent Hpar];
      [lia|].
    unfold bind at 1, heap_get. rewrite Hpar.
    assert (importance parent = c) as Hpc.
    { exact (Forall_lookup_1 _ _ _ _ Hu Hpar). }
    destruct (entry_lt_same newitem parent) as [b Hb]; [congruence|].
    unfold bind at 1, compare_lt. rewrite Hb. cbn [ret].
    destruct b; [|by exists pos, h].
    unfold bind at 1, heap_set. rewrite decide_True by done.
    destruct (IH (Nat.shiftr (pos - 1) 1) (<[pos := parent]> h))
      as (pos' & h' & Hrun & Hlt' & Hu' & Hlen').
    + lia.
    + rewrite length_insert. lia.
    + by apply Forall_insert.
    + done.
    + exists pos', h'. rewrite length_insert in Hlen'. done.
Qed.

(** Pushing an entry of the same importance goes through. *)
Lemma heappush_uniform item h :
  uniform c h → importance item = c →
  ∃ h', heappush item h = (Val tt, h') ∧ uniform c h' ∧ h' ≠ [].
Proof.
  intros Hu Hi. unfold heappush, bind at 1, modify. unfold bind at 1, get.
  unfold siftdown, bind at 1, heap_get.
  rewrite length_app. simpl.
  replace (length h + 1 - 1) with (length h) by lia.
  rewrite lookup_app_r, Nat.sub_diag by done. simpl.
  destruct (siftdown_loop_uniform (length h) item (length h) (h ++ [item]))
    as (pos' & h' & Hrun & Hlt' & Hu' & Hlen'); try done.
  { rewrite length_app. simpl. lia. }
  { apply Forall_app. split; [done|]. by apply Forall_singleton. }
  unfold bind. rewrite Hrun. unfold heap_set. rewrite decide_True by done.
  eexists. split; [done|]. split.
  - by apply Forall_insert.
  - intros Hnil. apply (f_equal length) in Hnil.
    rewrite length_insert in Hnil. simpl in Hnil. lia.
Qed.

(** Pushing an entry of another importance on a heap that is not empty
    raises [TypeError] at its first comparison. *)
Lemma heappush_differ item h :
  uniform c h → h ≠ [] → importance item ≠ c →
  (heappush item h).1 = Raise TypeError.
Proof.
  intros Hu Hne Hi. unfold heappush, bind at 1, modify. unfold bind at 1, get.
  unfold siftdown, bind at 1, heap_get.
  rewrite length_app. simpl.
  replace (length h + 1 - 1) with (length h) by lia.
  rewrite lookup_app_r, Nat.sub_diag by done. simpl.
  destruct h as [|e0 h0]; [done|]. unfold bind at 1.
  cbn [length siftdown_loop Nat.ltb Nat.leb].
  pose proof (shiftr_pred_le (Datatypes.S (length h0))) as Hp.
  destruct (lookup_lt_is_Some_2 (e0 :: h0)
              (Nat.shiftr (Datatypes.S (length h0) - 1) 1)) as [parent Hpar].
  { simpl in *. lia. }
  unfold bind at 1, heap_get.
  rewrite lookup_app_l by (simpl in *; lia). rewrite Hpar.
  unfold bind at 1, compare_lt. rewrite entry_lt_differ; [done|].
  apply (Forall_lookup_1 _ _ _ _ Hu) in Hpar. congruence.
Qed.
End one_importance.

#[local] Set Warnings "-clear-no-such-hyp".

(** ** What the first loop records *)

Lemma Literal_eq_spec k l : Literal_eq k l = true ↔ name k = name l.
Proof. unfold Literal_eq. apply String.eqb_eq. Qed.

Lemma names_ranking_incr d l x :
  x ∈ names (ranking_incr d l) ↔ x ∈ names d ∨ x = name l.
Proof.
  unfold names. induction d as [|[k cnt] d IH]; simpl.
  - rewrite list_elem_of_singleton. set_solver.
  - destruct (Literal_eq k l) eqn:Hkl; simpl.
    + apply Literal_eq_spec in Hkl. rewrite !elem_of_cons. naive_solver.
    + rewrite !elem_of_cons, IH. naive_solver.
Qed.

Lemma ranked_nil : ranked [] {| symbols_ranking := []; pure_symbols := ∅; unit_clauses := ∅ |}.
Proof.
  split; simpl.
  - intros x. rewrite lookup_empty. split; [by intros ?%elem_of_nil|by intros []].
  - intros x b. rewrite lookup_empty. split; [by intros (? & ? & _)|by intros ?%elem_of_nil].
  - done.
Qed.

Lemma rank_literal_ranked Ls r l s :
  ranked Ls r → ∃ r', rank_literal l r s = (Val r', s) ∧ ranked (Ls ++ [l]) r'.
Proof.
  intros [Hn Hs Hu]. unfold rank_literal, bind, dict_get.
  set (pure := if decide (pure_symbols r !! name l = None)
               then <[name l := ∅]> (pure_symbols r) else pure_symbols r).
  assert (∃ signs0, pure !! name l = Some signs0 ∧
            ∀ b, b ∈ signs0 ↔ mkLiteral (name l) b ∈ Ls) as (signs0 & Hl & Hs0).
  { unfold pure. destruct (decide (pure_symbols r !! name l = None)) as [Hnone|Hsome].
    - exists ∅. rewrite lookup_insert_eq. split; [done|]. intros b.
      rewrite <- Hs, Hnone. set_solver.
    - destruct (pure_symbols r !! name l) as [signs|] eqn:Hlk; [|done].
      exists signs. split; [done|]. intros b. rewrite <- Hs, Hlk. naive_solver. }
  assert (∀ x, x ≠ name l → pure !! x = pure_symbols r !! x) as Hother.
  { intros x Hx. unfold pure. destruct (decide _); [|done].
    by rewrite lookup_insert_ne. }
  rewrite Hl. eexists. split; [done|]. split; simpl.
  - intros x. rewrite names_ranking_incr, Hn.
    destruct (decide (x = name l)) as [->|Hx].
    + rewrite lookup_insert_eq. naive_solver.
    + rewrite lookup_insert_ne, Hother by done. naive_solver.
  - intros x b. rewrite elem_of_app, list_elem_of_singleton, <- Hs.
    destruct (decide (x = name l)) as [->|Hx].
    + rewrite lookup_insert_eq. split.
      * intros (signs & [= <-] & Hb). apply elem_of_union in Hb as [Hb|Hb].
        -- left. by apply Hs, Hs0.
        -- right. apply elem_of_singleton in Hb as ->. by destruct l.
      * intros [Hb|Hb].
        -- eexists. split; [done|]. apply elem_of_union. left.
           by apply Hs0, Hs.
        -- eexists. split; [done|]. apply elem_of_union. right.
           apply (f_equal sign) in Hb. simpl in Hb. by apply elem_of_singleton.
    + rewrite lookup_insert_ne, Hother by done. split; [by left|].
      intros [H|H]; [done|]. destruct Hx. by subst l.
  - done.
Qed.

Lemma rank_literals_ranked lits Ls r s :
  ranked Ls r →
  ∃ r', for_each lits rank_literal r s = (Val r', s) ∧ ranked (Ls ++ lits) r'.
Proof.
  revert Ls r. induction lits as [|l lits IH]; intros Ls r Hr; simpl.
  - exists r. by rewrite app_nil_r.
  - destruct (rank_literal_ranked Ls r l s Hr) as (r1 & Hrun & Hr1).
    unfold bind. rewrite Hrun.
    destruct (IH _ _ Hr1) as (r2 & Hrun2 & Hr2).
    exists r2. by rewrite <- app_assoc in Hr2.
Qed.

Lemma rank_clause_ranked Ls r c lits s :
  objs s !! c = Some (ClauseObj lits) → ranked Ls r →
  ∃ r', rank_clause c r s = (Val r', s) ∧ ranked (Ls ++ lits) r'.
Proof.
  intros Hc Hr. unfold rank_clause, bind, read_clause. rewrite Hc.
  apply rank_literals_ranked. by destruct (length lits =? 1).
Qed.

Lemma rank_symbols_ranked items kb Ls r s :
  Forall2 (λ c lits, objs s !! c = Some (ClauseObj lits)) items kb →
  ranked Ls r →
  ∃ r', for_each items rank_clause r s = (Val r', s) ∧ ranked (Ls ++ concat kb) r'.
Proof.
  intros HF. revert Ls r. induction HF as [|c lits items kb Hc HF IH]; intros Ls r Hr; simpl.
  - exists r. by rewrite app_nil_r.
  - destruct (rank_clause_ranked Ls r c lits s Hc Hr) as (r1 & Hrun & Hr1).
    unfold bind. rewrite Hrun.
    destruct (IH _ _ Hr1) as (r2 & Hrun2 & Hr2).
    exists r2. by rewrite <- app_assoc in Hr2.
Qed.

Lemma occurs_concat kb x b : occurs kb x b ↔ mkLiteral x b ∈ concat kb.
Proof.
  unfold occurs. induction kb as [|c kb IH]; simpl.
  - split; [by intros (? & ?%elem_of_nil & _)|by intros ?%elem_of_nil].
  - rewrite elem_of_app, <- IH. split.
    + intros (c' & [->|Hc']%elem_of_cons & Hl); [by left|right; eauto].
    + intros [Hl|(c' & Hc' & Hl)].
      * exists c. split; [apply elem_of_cons; by left|done].
      * exists c'. split; [apply elem_of_cons; by right|done].
Qed.

Lemma class_of_pure Ls r x b :
  ranked Ls r → mkLiteral x b ∈ Ls → mkLiteral x (negb b) ∉ Ls →
  class_of r x = PURE.
Proof.
  intros [_ Hs _] Hin Hnot. apply Hs in Hin as (signs & Hl & Hb).
  unfold class_of. rewrite Hl.
  assert (signs = {[b]}) as ->.
  { apply set_eq. intros b'. rewrite elem_of_singleton. split.
    - intros Hb'. destruct (decide (b' = b)); [done|].
      destruct Hnot. apply Hs. exists signs. split; [done|].
      by destruct b, b'.
    - by intros ->. }
  by rewrite size_singleton.
Qed.

Lemma class_of_mixed Ls r y :
  ranked Ls r → mkLiteral y true ∈ Ls → mkLiteral y false ∈ Ls →
  class_of r y = REST.
Proof.
  intros [_ Hs Hu] Ht Hf.
  apply Hs in Ht as (signs & Hl & Ht). apply Hs in Hf as (signs' & Hl' & Hf).
  rewrite Hl in Hl'. injection Hl' as <-.
  unfold class_of. rewrite Hl, Hu.
  destruct (size signs =? 1) eqn:Hsz; [|done].
  apply Nat.eqb_eq in Hsz.
  by pose proof (size_singleton_inv _ _ _ Hsz Ht Hf).
Qed.

(** No symbol is given the importance [UNIT]: [unit_clauses] stays empty. *)
Lemma class_of_never_UNIT Ls r x : ranked Ls r → class_of r x ≠ UNIT.
Proof.
  intros [_ _ Hu]. unfold class_of. rewrite Hu.
  destruct (pure_symbols r !! x) as [signs|]; [|done].
  by destruct (size signs =? 1).
Qed.

Lemma rank_entry_run r l cnt s :
  is_Some (pure_symbols r !! name l) →
  rank_entry r l cnt s = (Val ((class_of r (name l), (- cnt)%Z), l), s).
Proof.
  intros [signs Hl]. unfold rank_entry, class_of, bind, dict_get. rewrite Hl. simpl.
  destruct (size signs =? 1); [done|]. by destruct (negb _).
Qed.

(** Once the heap holds entries of one importance, a later symbol of
    another importance makes the second loop raise [TypeError]. *)
Lemma push_loop_raises r c kvs s :
  (∀ kv, kv ∈ kvs → is_Some (pure_symbols r !! name kv.1)) →
  uniform c (symbols s) → symbols s ≠ [] →
  (∃ kv, kv ∈ kvs ∧ class_of r (name kv.1) ≠ c) →
  (for_each kvs (push_symbol r) tt s).1 = Raise TypeError.
Proof.
  revert s. induction kvs as [|kv kvs IH]; intros s Hsome Hu Hne Hex; simpl.
  { by destruct Hex as (? & ?%elem_of_nil & _). }
  unfold bind at 1, push_symbol, bind at 1.
  rewrite rank_entry_run by (apply Hsome, elem_of_cons; by left).
  destruct (decide (class_of r (name kv.1) = c)) as [Hc|Hc].
  - destruct (heappush_uniform c (class_of r (name kv.1), (- kv.2)%Z, kv.1)
                (symbols s) Hu Hc) as (h' & Hpush & Hu' & Hne').
    unfold on_symbols. rewrite Hpush.
    apply IH; simpl; try done.
    + intros kv' Hkv'. apply Hsome, elem_of_cons. by right.
    + destruct Hex as (kv' & [->|Hin]%elem_of_cons & Hcls); [done|by exists kv'].
  - pose proof (heappush_differ c (class_of r (name kv.1), (- kv.2)%Z, kv.1)
                  (symbols s) Hu Hne Hc) as Hpush.
    unfold on_symbols.
    destruct (heappush _ (symbols s)) as [o h']. simpl in Hpush. by subst o.
Qed.

(** A knowledge base with a symbol of one sign only and a symbol of both
    signs: ranking its symbols raises [TypeError]. *)
Lemma push_symbols_raises r Ls x b y s :
  ranked Ls r → symbols s = [] →
  mkLiteral x b ∈ Ls → mkLiteral x (negb b) ∉ Ls →
  mkLiteral y true ∈ Ls → mkLiteral y false ∈ Ls →
  (push_symbols r s).1 = Raise TypeError.
Proof.
  intros Hr Hs Hx Hnx Hyt Hyf. unfold push_symbols.
  pose proof (class_of_pure _ _ _ _ Hr Hx Hnx) as Hcx.
  pose proof (class_of_mixed _ _ _ Hr Hyt Hyf) as Hcy.
  assert (∀ z b', mkLiteral z b' ∈ Ls →
            ∃ kv, kv ∈ symbols_ranking r ∧ name kv.1 = z) as Hin.
  { intros z b' Hz. apply (ranked_signs _ _ Hr) in Hz as (signs & Hl & _).
    assert (z ∈ names (symbols_ranking r)) as Hn.
    { apply (ranked_names _ _ Hr). by eexists. }
    apply list_elem_of_fmap in Hn as (kv & -> & Hkv). eauto. }
  assert (∀ kv, kv ∈ symbols_ranking r → is_Some (pure_symbols r !! name kv.1))
    as Hsome.
  { intros kv Hkv. apply (ranked_names _ _ Hr). apply list_elem_of_fmap. eauto. }
  destruct (Hin x b Hx) as (kvx & Hkvx & Hnx').
  destruct (Hin y true Hyt) as (kvy & Hkvy & Hny').
  destruct (symbols_ranking r) as [|kv1 rest] eqn:Hrank.
  { by apply elem_of_nil in Hkvx. }
  cbn [for_each]. unfold bind at 1, push_symbol, bind at 1.
  rewrite rank_entry_run by (apply Hsome, elem_of_cons; by left).
  set (c := class_of r (name kv1.1)).
  destruct (heappush_uniform c (c, (- kv1.2)%Z, kv1.1) []) as (h' & Hpush & Hu' & Hne');
    [by apply Forall_nil|done|].
  unfold on_symbols. rewrite Hs, Hpush.
  apply (push_loop_raises r c); try done.
  - intros kv Hkv. apply Hsome, elem_of_cons. by right.
  - destruct (decide (c = PURE)) as [Hc|Hc].
    + exists kvy. apply elem_of_cons in Hkvy as [->|Hkvy].
      * unfold c in Hc. congruence.
      * split; [done|]. congruence.
    + exists kvx. apply elem_of_cons in Hkvx as [->|Hkvx].
      * unfold c in Hc. congruence.
      * split; [done|]. congruence.
Qed.

(** A knowledge base with a symbol of one sign only and a symbol of both
    signs: ranking its symbols raises [TypeError]. *)
Lemma build_queue_mixed_raises s k kb x b y :
  read_kb s k = Some kb →
  occurs kb x b → ¬ occurs kb x (negb b) →
  occurs kb y true → occurs kb y false →
  (build_queue k s).1 = Raise TypeError.
Proof.
  intros Hkb Hx Hnx Hyt Hyf. rewrite occurs_concat in *.
  unfold read_kb in Hkb.
  destruct (objs s !! k) as [[|items]|] eqn:Hk; try done.
  apply mapM_Some in Hkb.
  assert (Forall2 (λ c lits, objs s !! c = Some (ClauseObj lits)) items kb) as HF.
  { eapply Forall2_impl; [exact Hkb|]. intros c lits. cbv beta.
    by destruct (objs s !! c) as [[]|]; intros [= ->]. }
  destruct (rank_symbols_ranked items kb [] _ s HF ranked_nil) as (r & Hrun & Hr).
  simpl in Hr.
  unfold build_queue, bind at 1, read_list. rewrite Hk.
  unfold bind at 1, rank_symbols. rewrite Hrun.
  unfold bind at 1, modify. unfold bind at 1.
  pose proof (push_symbols_raises r _ x b y (set_symbols [] s) Hr eq_refl
                Hx Hnx Hyt Hyf) as Hp.
  destruct (push_symbols r (set_symbols [] s)) as [o s']. simpl in Hp. by subst o.
Qed.

(** A second loop that runs to its end leaves a heap of one importance. *)
Lemma push_loop_uniform r c kvs s s' :
  (∀ kv, kv ∈ kvs → is_Some (pure_symbols r !! name kv.1)) →
  uniform c (symbols s) → symbols s ≠ [] →
  for_each kvs (push_symbol r) tt s = (Val tt, s') →
  uniform c (symbols s').
Proof.
  revert s. induction kvs as [|kv kvs IH]; intros s Hsome Hu Hne Hrun; simpl in Hrun.
  { by injection Hrun as <-. }
  apply bind_Val in Hrun as ([] & s1 & Hone & Hrun).
  unfold push_symbol in Hone. apply bind_Val in Hone as (e & s0 & He & Hone).
  rewrite rank_entry_run in He by (apply Hsome, elem_of_cons; by left).
  injection He as <- <-.
  destruct (decide (class_of r (name kv.1) = c)) as [Hc|Hc].
  - destruct (heappush_uniform c (class_of r (name kv.1), (- kv.2)%Z, kv.1)
                (symbols s) Hu Hc) as (h' & Hpush & Hu' & Hne').
    unfold on_symbols in Hone. rewrite Hpush in Hone. injection Hone as <-.
    apply (IH (set_symbols h' s)); try done.
    intros kv' Hkv'. apply Hsome, elem_of_cons. by right.
  - pose proof (heappush_differ c (class_of r (name kv.1), (- kv.2)%Z, kv.1)
                  (symbols s) Hu Hne Hc) as Hpush.
    unfold on_symbols in Hone.
    destruct (heappush _ (symbols s)) as [o h']. simpl in Hpush. by subst o.
Qed.

Lemma push_symbols_uniform r Ls s s' :
  ranked Ls r → symbols s = [] →
  push_symbols r s = (Val tt, s') →
  ∃ c, c ≠ UNIT ∧ uniform c (symbols s').
Proof.
  intros Hr Hs Hrun. unfold push_symbols in Hrun.
  assert (∀ kv, kv ∈ symbols_ranking r → is_Some (pure_symbols r !! name kv.1))
    as Hsome.
  { intros kv Hkv. apply (ranked_names _ _ Hr). apply list_elem_of_fmap. eauto. }
  destruct (symbols_ranking r) as [|kv1 rest].
  { injection Hrun as <-. exists REST. split; [done|]. rewrite Hs. apply Forall_nil_2. }
  exists (class_of r (name kv1.1)). split; [by eapply class_of_never_UNIT|].
  cbn [for_each] in Hrun.
  apply bind_Val in Hrun as ([] & s1 & Hone & Hrun).
  unfold push_symbol in Hone. apply bind_Val in Hone as (e & s0 & He & Hone).
  rewrite rank_entry_run in He by (apply Hsome, elem_of_cons; by left).
  injection He as <- <-.
  destruct (heappush_uniform (class_of r (name kv1.1))
              (class_of r (name kv1.1), (- kv1.2)%Z, kv1.1) [])
    as (h' & Hpush & Hu' & Hne'); [by apply Forall_nil|done|].
  unfold on_symbols in Hone. rewrite Hs, Hpush in Hone. injection Hone as <-.
  apply (push_loop_uniform r _ rest (set_symbols h' s)); try done.
  intros kv Hkv. apply Hsome, elem_of_cons. by right.
Qed.

Lemma build_queue_uniform s k kb r s' :
  read_kb s k = Some kb →
  build_queue k s = (Val r, s') →
  ∃ c, c ≠ UNIT ∧ uniform c (symbols s').
Proof.
  intros Hkb Hrun. unfold read_kb in Hkb.
  destruct (objs s !! k) as [[|items]|] eqn:Hk; try done.
  apply mapM_Some in Hkb.
  assert (Forall2 (λ c lits, objs s !! c = Some (ClauseObj lits)) items kb) as HF.
  { eapply Forall2_impl; [exact Hkb|]. intros c lits. cbv beta.
    by destruct (objs s !! c) as [[]|]; intros [= ->]. }
  destruct (rank_symbols_ranked items kb [] _ s HF ranked_nil) as (r0 & Hrank & Hr).
  unfold build_queue in Hrun.
  apply bind_Val in Hrun as (items' & s1 & Hrd & Hrun).
  unfold read_list in Hrd. rewrite Hk in Hrd. injection Hrd as <- <-.
  apply bind_Val in Hrun as (r1 & s2 & Hrank' & Hrun).
  unfold rank_symbols in Hrank'. rewrite Hrank in Hrank'. injection Hrank' as <- <-.
  apply bind_Val in Hrun as ([] & s3 & Hmod & Hrun). injection Hmod as <-.
  apply bind_Val in Hrun as ([] & s4 & Hpush & Hrun). injection Hrun as <- <-.
  by apply (push_symbols_uniform r0 _ (set_symbols [] s) _ Hr eq_refl Hpush).
Qed.

Lemma read_kb_load kb : read_kb (load kb).1 (load kb).2 = Some kb.
Proof.
  unfold read_kb, load. simpl.
  rewrite lookup_app_r by (by rewrite length_fmap).
  rewrite length_fmap, Nat.sub_diag. simpl.
  apply mapM_Some, Forall2_same_length_lookup_2.
  - by rewrite length_seq.
  - intros i c lits Hc Hlits. apply lookup_seq in Hc as [-> Hi]. simpl.
    rewrite lookup_app_l by (by rewrite length_fmap).
    by rewrite list_lookup_fmap, Hlits.
Qed.

(** C4.  Whenever the knowledge base has a symbol that occurs with one
    sign only and a symbol that occurs with both, [DPLLSatisfiable] raises
    [TypeError] while it builds the queue: [DPLL] is not entered and no
    symbol is popped or decided, pure or not. *)
Theorem pure_and_mixed_symbols_raise (kb : list Clause) (x y : string) (b : bool) :
  occurs kb x b → ¬ occurs kb x (negb b) →
  occurs kb y true → occurs kb y false →
  queue_of kb = Raise TypeError ∧ solve kb = Raise TypeError.
Proof.
  intros Hx Hnx Hyt Hyf.
  pose proof (build_queue_mixed_raises _ _ _ _ _ _ (read_kb_load kb) Hx Hnx Hyt Hyf)
    as Hq.
  unfold queue_of, solve, DPLLSatisfiable, bind at 1.
  destruct (load kb) as [s k]. simpl in Hq.
  destruct (build_queue k s) as [o s']. simpl in Hq. by subst o.
Qed.

Lemma pure_and_mixed_symbols_raise_witness :
  (occurs [[A]; [neg A]; [B]] "B" true ∧
   ¬ occurs [[A]; [neg A]; [B]] "B" (negb true) ∧
   occurs [[A]; [neg A]; [B]] "A" true ∧
   occurs [[A]; [neg A]; [B]] "A" false) ∧
  queue_of [[A]; [neg A]; [B]] = Raise TypeError ∧
  solve [[A]; [neg A]; [B]] = Raise TypeError.
Proof.
  assert (occurs [[A]; [neg A]; [B]] "B" true) as H1.
  { exists [B]. split; apply list_elem_of_In; simpl; auto. }
  assert (¬ occurs [[A]; [neg A]; [B]] "B" (negb true)) as H2.
  { intros (c & Hc & Hl). apply list_elem_of_In in Hc. simpl in Hc.
    destruct Hc as [<-|[<-|[<-|[]]]]; apply list_elem_of_In in Hl; simpl in Hl;
      destruct Hl as [Hl|[]]; discriminate Hl. }
  assert (occurs [[A]; [neg A]; [B]] "A" true) as H3.
  { exists [A]. split; apply list_elem_of_In; simpl; auto. }
  assert (occurs [[A]; [neg A]; [B]] "A" false) as H4.
  { exists [neg A]. split; apply list_elem_of_In; simpl; auto. }
  split; [done|].
  exact (pure_and_mixed_symbols_raise [[A]; [neg A]; [B]] "B" "A" true H1 H2 H3 H4).
Defined.

(** C7.  No symbol of any knowledge base is queued as [UNIT], whether or
    not it occurs in a clause of length one: the set [unit_clauses] that
    the classification consults is never added to. *)
Theorem queue_never_UNIT (kb : list Clause) (h : heap) :
  queue_of kb = Val h → Forall (λ e, importance e ≠ UNIT) h.
Proof.
  unfold queue_of. pose proof (read_kb_load kb) as Hkb.
  destruct (load kb) as [s k]. simpl in Hkb.
  destruct (build_queue k s) as [[r| | |] s'] eqn:Hrun; try done.
  intros [= <-].
  destruct (build_queue_uniform _ _ _ _ _ Hkb Hrun) as (c & Hc & Hu).
  eapply Forall_impl; [exact Hu|]. intros e He. cbv beta in *. congruence.
Qed.

Lemma queue_never_UNIT_witness :
  queue_of [set_display [A]; set_display [neg A]] = Val [((REST, (-2)%Z), A)] ∧
  Forall (λ e, importance e ≠ UNIT) [((REST, (-2)%Z), A)].
Proof.
  split; [exact unit_symbol_ranked_REST|].
  exact (queue_never_UNIT _ _ unit_symbol_ranked_REST).
Defined.

(** * Further properties of the notebook's code *)

(** ** The heap keeps its entries *)

Lemma insert_Permutation {X} (h : list X) j a c :
  h !! j = Some c → a :: h ≡ₚ c :: <[j := a]> h.
Proof.
  intros Hj. pose proof (lookup_lt_Some _ _ _ Hj) as Hlt.
  rewrite insert_take_drop by done.
  rewrite <- (take_drop_middle h j c Hj) at 1.
  rewrite <- !Permutation_middle. apply perm_swap.
Qed.

(** Writing [a], read at [i], over position [j] and then [b] over [i]
    amounts to writing [b] over [j]. *)
Lemma insert_insert_Permutation {X} (h : list X) i j a b :
  h !! i = Some a → i ≠ j → j < length h →
  <[i := b]> (<[j := a]> h) ≡ₚ <[j := b]> h.
Proof.
  intros Hi Hij Hj.
  destruct (lookup_lt_is_Some_2 h j Hj) as [c Hc].
  assert (<[j := a]> h !! i = Some a) as Hi' by (by rewrite list_lookup_insert_ne).
  pose proof (insert_Permutation h j a c Hc) as H1.
  pose proof (insert_Permutation (<[j := a]> h) i b a Hi') as H2.
  pose proof (insert_Permutation h j b c Hc) as H3.
  apply (Permutation_cons_inv (a := c)), (Permutation_cons_inv (a := a)).
  transitivity (c :: b :: <[j := a]> h); [rewrite H2; apply perm_swap|].
  transitivity (b :: a :: h); [rewrite H1; apply perm_swap|].
  rewrite <- H3. apply perm_swap.
Qed.

Lemma heap_get_Val i h x h' : heap_get i h = (Val x, h') → h !! i = Some x ∧ h' = h.
Proof. unfold heap_get. destruct (h !! i); by intros [= <- <-]. Qed.

Lemma heap_set_Val i x h u h' :
  heap_set i x h = (Val u, h') → i < length h ∧ h' = <[i := x]> h.
Proof. unfold heap_set. destruct (decide (i < length h)); by intros [= <- <-]. Qed.

Lemma compare_lt_Val {S} e1 e2 (s : S) b s' :
  compare_lt e1 e2 s = (Val b, s') → entry_lt e1 e2 = inr b ∧ s' = s.
Proof. unfold compare_lt. destruct (entry_lt e1 e2); by intros [= <- <-]. Qed.

Lemma siftdown_loop_Permutation fuel newitem startpos pos h pos' h' :
  siftdown_loop fuel newitem startpos pos h = (Val pos', h') →
  pos < length h →
  pos' ≤ pos ∧ length h' = length h ∧
  <[pos' := newitem]> h' ≡ₚ <[pos := newitem]> h.
Proof.
  revert pos h. induction fuel as [|fuel IH]; intros pos h Hrun Hpos;
    cbn [siftdown_loop] in Hrun;
    (destruct (startpos <? pos) eqn:Hlt; [|by injection Hrun as <- <-]).
  { done. }
  apply Nat.ltb_lt in Hlt. pose proof (shiftr_pred_le pos) as Hp.
  apply bind_Val in Hrun as (parent & h1 & Hget & Hrun).
  apply heap_get_Val in Hget as [Hpar ->].
  apply bind_Val in Hrun as (b & h2 & Hcmp & Hrun).
  apply compare_lt_Val in Hcmp as [_ ->].
  destruct b; [|by injection Hrun as <- <-].
  apply bind_Val in Hrun as ([] & h3 & Hset & Hrun).
  apply heap_set_Val in Hset as [_ ->].
  apply IH in Hrun as (Hle & Hlen & Hperm); [|rewrite length_insert; lia].
  rewrite length_insert in Hlen. split; [lia|]. split; [done|].
  rewrite Hperm. apply insert_insert_Permutation; [done|lia|done].
Qed.

Lemma siftdown_Permutation startpos pos h h' :
  siftdown startpos pos h = (Val tt, h') → h' ≡ₚ h.
Proof.
  intros Hrun. apply bind_Val in Hrun as (newitem & h1 & Hget & Hrun).
  apply heap_get_Val in Hget as [Hnew ->].
  apply bind_Val in Hrun as (pos' & h2 & Hloop & Hrun).
  apply siftdown_loop_Permutation in Hloop as (_ & _ & Hperm);
    [|by eapply lookup_lt_Some].
  apply heap_set_Val in Hrun as [_ ->].
  by rewrite Hperm, list_insert_id.
Qed.

Lemma heappush_Permutation item h h' :
  heappush item h = (Val tt, h') → h' ≡ₚ item :: h.
Proof.
  intros Hrun. apply bind_Val in Hrun as ([] & h1 & [= <-] & Hrun).
  apply bind_Val in Hrun as (h2 & h3 & [= <- <-] & Hrun).
  apply siftdown_Permutation in Hrun. rewrite Hrun.
  by rewrite <- Permutation_cons_append.
Qed.

Lemma siftup_loop_Permutation fuel endpos pos childpos h pos' h' newitem :
  siftup_loop fuel endpos pos childpos h = (Val pos', h') →
  pos < childpos → pos < length h →
  length h' = length h ∧ <[pos' := newitem]> h' ≡ₚ <[pos := newitem]> h.
Proof.
  revert pos childpos h. induction fuel as [|fuel IH]; intros pos childpos h Hrun Hc Hpos;
    cbn [siftup_loop] in Hrun;
    (destruct (childpos <? endpos) eqn:Hlt; [|by injection Hrun as <- <-]).
  { done. }
  apply bind_Val in Hrun as (c' & h1 & Hpick & Hrun).
  assert (h1 = h ∧ childpos ≤ c') as [-> Hc'].
  { destruct (childpos + 1 <? endpos).
    - apply bind_Val in Hpick as (l & h2 & Hl & Hpick).
      apply heap_get_Val in Hl as [_ ->].
      apply bind_Val in Hpick as (r & h3 & Hr & Hpick).
      apply heap_get_Val in Hr as [_ ->].
      apply bind_Val in Hpick as (b & h4 & Hb & Hpick).
      apply compare_lt_Val in Hb as [_ ->].
      injection Hpick as <- <-. split; [done|]. destruct b; simpl; lia.
    - injection Hpick as <- <-. by split. }
  apply bind_Val in Hrun as (child & h2 & Hget & Hrun).
  apply heap_get_Val in Hget as [Hchild ->].
  apply bind_Val in Hrun as ([] & h3 & Hset & Hrun).
  apply heap_set_Val in Hset as [_ ->].
  apply IH in Hrun as (Hlen & Hperm).
  - rewrite length_insert in Hlen. split; [done|].
    rewrite Hperm. apply insert_insert_Permutation; [done|lia|done].
  - lia.
  - rewrite length_insert. by eapply lookup_lt_Some.
Qed.

Lemma siftup_Permutation pos h h' : siftup pos h = (Val tt, h') → h' ≡ₚ h.
Proof.
  intros Hrun. apply bind_Val in Hrun as (h0 & h1 & [= <- <-] & Hrun).
  apply bind_Val in Hrun as (newitem & h1 & Hget & Hrun).
  apply heap_get_Val in Hget as [Hnew ->].
  apply bind_Val in Hrun as (pos' & h2 & Hloop & Hrun).
  apply (siftup_loop_Permutation _ _ _ _ _ _ _ newitem) in Hloop as (_ & Hperm);
    [|lia|by eapply lookup_lt_Some].
  apply bind_Val in Hrun as ([] & h3 & Hset & Hrun).
  apply heap_set_Val in Hset as [_ ->].
  apply siftdown_Permutation in Hrun.
  by rewrite Hrun, Hperm, list_insert_id.
Qed.

Lemma heappop_Permutation h e h' : heappop h = (Val e, h') → h ≡ₚ e :: h'.
Proof.
  intros Hrun. apply bind_Val in Hrun as (lastelt & h1 & Hpop & Hrun).
  unfold list_pop in Hpop. destruct (last h) eqn:Hlast; [|done].
  injection Hpop as -> <-. apply last_Some in Hlast as [h0 ->].
  rewrite removelast_last in Hrun.
  apply bind_Val in Hrun as (h2 & h3 & [= <- <-] & Hrun).
  rewrite <- Permutation_cons_append.
  destruct h0 as [|e0 h0]; [by injection Hrun as <- <-|].
  apply bind_Val in Hrun as (returnitem & h3 & Hget & Hrun).
  apply heap_get_Val in Hget as [[= ->] ->].
  apply bind_Val in Hrun as ([] & h4 & Hset & Hrun).
  apply heap_set_Val in Hset as [_ ->].
  apply bind_Val in Hrun as ([] & h5 & Hup & Hrun). injection Hrun as <- <-.
  apply siftup_Permutation in Hup. rewrite Hup. simpl. apply perm_swap.
Qed.

(** ** The loop of [DPLL] over the clauses *)

Lemma clauseSatisfied_value s c lits :
  objs s !! c = Some (ClauseObj lits) →
  clauseSatisfied c s = (Val (clause_value (model s) lits), s).
Proof. apply clauseSatisfied_run. Qed.

Lemma DPLL_scan_run ps pending u s :
  Forall (λ p, objs s !! p.1 = Some (ClauseObj p.2)) ps →
  objs s !! u = Some (ListObj pending.*1) →
  ∃ s', DPLL_scan ps.*1 u s = (Val (scan_pure (model s) ps pending).1, s') ∧
        symbols s' = symbols s ∧ model s' = model s ∧
        objs s' = <[u := ListObj (scan_pure (model s) ps pending).2.*1]> (objs s).
Proof.
  unfold DPLL_scan. revert pending s.
  induction ps as [|[c lits] ps IH]; intros pending s Hps Hu.
  { exists s. simpl. by rewrite list_insert_id. }
  apply Forall_cons in Hps as [Hc Hps]. simpl in Hc.
  cbn [fmap list_fmap for_in scan_pure fst snd].
  unfold bind at 1. unfold bind at 1. rewrite (clauseSatisfied_value _ _ _ Hc).
  destruct (clause_value (model s) lits) as [[|]|] eqn:Hv.
  - rewrite decide_False by done. unfold bind at 1. rewrite decide_False by done.
    cbn [ret]. unfold bind at 1, read_list. rewrite Hu.
    destruct pending as [|p pending]; cbn [fmap list_fmap].
    + exists s. simpl. by rewrite list_insert_id.
    + apply (IH (p :: pending) s Hps Hu).
  - rewrite decide_True by done. exists s. simpl. by rewrite list_insert_id.
  - rewrite decide_False by done. unfold bind at 1. rewrite decide_True by done.
    unfold list_append. rewrite Hu.
    set (s1 := set_objs (λ o, <[u := ListObj (pending.*1 ++ [c])]> o) s).
    assert (objs s1 !! u = Some (ListObj (pending ++ [(c, lits)]).*1)) as Hu1.
    { simpl. rewrite list_lookup_insert_eq by (by eapply lookup_lt_Some).
      by rewrite fmap_app. }
    assert (Forall (λ p, objs s1 !! p.1 = Some (ClauseObj p.2)) ps) as Hps1.
    { eapply Forall_impl; [exact Hps|]. intros p Hp. cbv beta in Hp. simpl.
      rewrite list_lookup_insert_ne; [done|]. intros Heq. rewrite <- Heq in Hp.
      congruence. }
    unfold bind at 1, read_list. rewrite Hu1.
    rewrite fmap_app. cbn [fmap list_fmap fst].
    destruct (pending.*1 ++ [c]) as [|? ?] eqn:Happ.
    { by apply app_eq_nil in Happ as [_ ?]. }
    destruct (IH (pending ++ [(c, lits)]) s1 Hps1 Hu1) as (s' & Hrun & Hsy & Hm & Ho).
    exists s'. split; [exact Hrun|]. split; [done|]. split; [done|].
    rewrite Ho. simpl. by rewrite list_insert_insert_eq.
Qed.

Lemma scan_pure_grows m ps pending r pending' :
  scan_pure m ps pending = (r, pending') →
  (∃ more, pending' = pending ++ more ∧ ∀ p, p ∈ more → p ∈ ps) ∧
  (pending ≠ [] → r ≠ Return true).
Proof.
  revert pending. induction ps as [|p ps IH]; intros pending Hrun; simpl in Hrun.
  { injection Hrun as <- <-. split; [|done].
    exists []. rewrite app_nil_r. split; [done|]. by intros ? ?%elem_of_nil. }
  destruct (clause_value m p.2) as [[|]|].
  - destruct pending as [|q pending].
    + injection Hrun as <- <-. split; [|by intros []].
      exists []. split; [done|]. by intros ? ?%elem_of_nil.
    + apply IH in Hrun as [(more & -> & Hmore) Hr]. split; [|done].
      exists more. split; [done|]. intros p' Hp'. apply elem_of_cons. right. auto.
  - injection Hrun as <- <-. split; [|done].
    exists []. rewrite app_nil_r. split; [done|]. by intros ? ?%elem_of_nil.
  - apply IH in Hrun as [(more & -> & Hmore) Hr]. split.
    + exists (p :: more). rewrite <- app_assoc. split; [done|].
      intros p' [->|Hp']%elem_of_cons; apply elem_of_cons; [by left|right; auto].
    + intros _. apply Hr. by destruct pending.
Qed.

(** The loop returns [True] only on its first clause, and only when that
    clause is satisfied. *)
Lemma scan_pure_true m ps pending' :
  scan_pure m ps [] = (Return true, pending') →
  ∃ p rest, ps = p :: rest ∧ clause_value m p.2 = Some true.
Proof.
  destruct ps as [|p ps]; simpl; [done|].
  destruct (clause_value m p.2) as [[|]|] eqn:Hv; [by eauto|done|].
  intros Hrun. apply scan_pure_grows in Hrun as [_ Hr]. by destruct Hr.
Qed.

Lemma scan_pure_false m ps pending pending' :
  scan_pure m ps pending = (Return false, pending') →
  ∃ p, p ∈ ps ∧ clause_value m p.2 = Some false.
Proof.
  revert pending. induction ps as [|p ps IH]; intros pending Hrun; simpl in Hrun; [done|].
  destruct (clause_value m p.2) as [[|]|] eqn:Hv.
  - destruct pending; [done|].
    apply IH in Hrun as (q & Hq & Hqv). exists q. split; [by apply elem_of_cons; right|done].
  - exists p. split; [by apply elem_of_cons; left|done].
  - apply IH in Hrun as (q & Hq & Hqv). exists q. split; [by apply elem_of_cons; right|done].
Qed.

(** When the loop runs to its end over a list that is not empty, the
    first clause is pending and heads [unsatisfied_clauses]. *)
Lemma scan_pure_continue m ps u pending' :
  scan_pure m ps [] = (Continue u, pending') → ps ≠ [] →
  ∃ p rest rest', ps = p :: rest ∧ pending' = p :: rest' ∧
                  clause_value m p.2 = None.
Proof.
  destruct ps as [|p ps]; [done|]. simpl. intros Hrun _.
  destruct (clause_value m p.2) as [[|]|] eqn:Hv; [done|done|].
  apply scan_pure_grows in Hrun as [(more & -> & _) _]. by exists p, ps, more.
Qed.

(** ** What a frame of [DPLL] returns *)

Lemma on_symbols_Val {X} (m : M heap X) s x s' :
  on_symbols m s = (Val x, s') →
  ∃ h', m (symbols s) = (Val x, h') ∧ s' = set_symbols h' s.
Proof.
  unfold on_symbols. destruct (m (symbols s)) as [o h'].
  intros [= -> <-]. by exists h'.
Qed.

Lemma queued_Permutation h h' : h ≡ₚ h' → queued h ≡ₚ queued h'.
Proof. unfold queued. by intros ->. Qed.

(** Popping [P] and committing it keeps the queue and the model in step. *)
Lemma queue_commit h0 h cnt P (m : gmap string TruthState) val :
  NoDup (queued h0) → (∀ x, x ∈ queued h0 ↔ m !! x = Some Free) →
  h0 ≡ₚ (cnt, P) :: h → val ≠ Free →
  m !! name P = Some Free ∧
  NoDup (queued h) ∧
  (∀ x, x ∈ queued h ↔ <[name P := val]> m !! x = Some Free).
Proof.
  intros Hnd Hfree Hperm Hval. apply queued_Permutation in Hperm. simpl in Hperm.
  rewrite Hperm in Hnd. apply NoDup_cons in Hnd as [HP Hnd].
  assert (∀ x, x ∈ name P :: queued h ↔ m !! x = Some Free) as Hfree'.
  { intros x. by rewrite <- Hperm. }
  split; [apply Hfree', elem_of_cons; by left|]. split; [done|].
  intros x. destruct (decide (x = name P)) as [->|Hx].
  - rewrite lookup_insert_eq. split; [done|]. by intros [= ->].
  - rewrite lookup_insert_ne by done. rewrite <- Hfree', elem_of_cons. naive_solver.
Qed.

Lemma clause_value_pending m lits :
  clause_value m lits = None → ∃ l, l ∈ lits ∧ lit_free m l.
Proof.
  unfold clause_value. destruct (existsb (lit_matchesb m) lits); [done|].
  destruct (existsb (lit_freeb m) lits) eqn:Hf; [|done].
  intros _. by apply existsb_free.
Qed.

(** A clause that evaluates to [False] is false under every assignment
    that agrees with the model, when the model has all its symbols. *)
Lemma clause_value_falsified m lits v :
  clause_value m lits = Some false →
  (∀ l, l ∈ lits → is_Some (m !! name l)) →
  extends m v → ¬ satisfies v lits.
Proof.
  unfold clause_value. destruct (existsb (lit_matchesb m) lits) eqn:Hm; [done|].
  destruct (existsb (lit_freeb m) lits) eqn:Hf; [done|].
  intros _ Hcov Hext (l & Hl & Hv).
  assert (¬ lit_matches m l) as Hnm.
  { intros H. assert (existsb (lit_matchesb m) lits = true); [|congruence].
    apply existsb_matches. eauto. }
  assert (¬ lit_free m l) as Hnf.
  { intros H. assert (existsb (lit_freeb m) lits = true); [|congruence].
    apply existsb_free. eauto. }
  destruct (Hcov l Hl) as [st Hst]. destruct (Hext (name l)) as [Ht Hfl].
  unfold lit_matches, lit_free in *.
  destruct st, (sign l); try done.
  - specialize (Ht Hst). congruence.
  - specialize (Hfl Hst). congruence.
Qed.

Lemma extends_commit m v x :
  extends m v →
  extends (<[x := if v x then StTrue else StFalse]> m) v.
Proof.
  intros Hext y. destruct (decide (y = x)) as [->|Hy].
  - rewrite lookup_insert_eq. by destruct (v x); split; intros [=].
  - rewrite lookup_insert_ne by done. apply Hext.
Qed.

Lemma clauses_at_grows s s' cl ps :
  grows s s' → clauses_at s cl ps → clauses_at s' cl ps.
Proof.
  unfold grows. intros Hg [Hcl Hps]. split.
  - by eapply prefix_lookup_Some.
  - eapply Forall_impl; [exact Hps|]. intros p Hp.
    exact (prefix_lookup_Some _ _ _ _ Hp Hg).
Qed.

Lemma covered_insert (m : gmap string TruthState) cs x val :
  covered m cs → covered (<[x := val]> m) cs.
Proof.
  intros Hc c l Hcin Hl. apply lookup_insert_is_Some'. right. by eapply Hc.
Qed.

(** One frame of [DPLL], entered with the clauses [ps]: what it returns
    and in what state it leaves the model and the queue. *)
Lemma DPLL_rec_spec fuel cl ps s b s' :
  clauses_at s cl ps → queue_inv s → covered (model s) ps.*2 →
  DPLL_rec fuel cl s = (Val b, s') →
  dom (model s') = dom (model s) ∧
  if b then ∃ p rest, ps = p :: rest ∧ clause_value (model s') p.2 = Some true
  else model s' = model s ∧ symbols s' ≡ₚ symbols s ∧
       (ps ≠ [] → ∀ v, extends (model s) v → ¬ Forall (satisfies v) ps.*2).
Proof.
  revert cl ps s b s'.
  induction fuel as [|fuel IH]; intros cl ps s b s' [Hcl Hps] [Hnd Hfree] Hcov H;
    [done|].
  cbn [DPLL_rec] in H.
  apply bind_Val in H as (u & s1 & Hnew & H). injection Hnew as <- <-.
  set (s1 := set_objs (λ o, o ++ [ListObj []]) s) in *.
  assert (∀ p, p ∈ ps → p.1 < length (objs s) ∧
                        objs s !! p.1 = Some (ClauseObj p.2)) as Hlt.
  { intros p Hp. pose proof (proj1 (Forall_forall _ _) Hps p Hp) as Hp'.
    cbv beta in Hp'. split; [by eapply lookup_lt_Some|done]. }
  apply bind_Val in H as (items & s2 & Hrd & H).
  unfold read_list in Hrd. simpl in Hrd.
  rewrite lookup_app_l, Hcl in Hrd by (by eapply lookup_lt_Some).
  injection Hrd as <- <-.
  destruct (DPLL_scan_run ps [] (length (objs s)) s1) as (s3 & Hrun & Hsy & Hm & Ho).
  { eapply Forall_impl; [exact Hps|]. intros p Hp. cbv beta in Hp. simpl.
    rewrite lookup_app_l; [done|by eapply lookup_lt_Some]. }
  { simpl. by rewrite lookup_app_r, Nat.sub_diag. }
  apply bind_Val in H as (scan & s3' & Hscan & H).
  rewrite Hrun in Hscan. injection Hscan as <- <-.
  simpl in Hsy, Hm. fold s1 in Hsy, Hm.
  change (model s1) with (model s) in *. change (symbols s1) with (symbols s) in *.
  destruct (scan_pure (model s) ps []) as [r pending] eqn:Hsp. simpl in H, Ho.
  destruct r as [[]|b0].
  2: { injection H as <- <-. rewrite Hm. split; [done|]. destruct b0.
       - apply scan_pure_true in Hsp as (p & rest & -> & Hv). eauto.
       - split; [done|]. split; [by rewrite Hsy|]. intros _ v Hext Hall.
         apply scan_pure_false in Hsp as (p & Hp & Hv).
         apply (clause_value_falsified _ _ v Hv); [|done|].
         + intros l Hl. apply (Hcov p.2); [|done]. apply list_elem_of_fmap. eauto.
         + apply (proj1 (Forall_forall _ _) Hall). apply list_elem_of_fmap. eauto. }
  apply bind_Val in H as (syms & s4 & Hg & H). injection Hg as <- <-.
  destruct (0 <? length (symbols s3)) eqn:Hlen.
  2: { injection H as <- <-. rewrite Hm. split; [done|]. split; [done|].
       split; [by rewrite Hsy|]. intros Hne v _ _.
       apply scan_pure_continue in Hsp as (p & rest & rest' & -> & _ & Hv); [|done].
       apply clause_value_pending in Hv as (l & _ & Hl).
       apply Hfree in Hl. rewrite <- Hsy in Hl. apply Nat.ltb_ge in Hlen.
       destruct (symbols s3); [by apply elem_of_nil in Hl|simpl in Hlen; lia]. }
  clear Hlen.
  apply bind_Val in H as ([cnt P] & s5 & Hpop & H).
  apply on_symbols_Val in Hpop as (h5 & Hpop & ->).
  apply heappop_Permutation in Hpop. rewrite Hsy in Hpop.
  apply bind_Val in H as ([] & s6 & Hset & H). injection Hset as <-.
  (* what every frame below needs *)
  assert (∀ p, p ∈ pending → p ∈ ps) as Hsub.
  { apply scan_pure_grows in Hsp as [(more & -> & Hmore) _]. exact Hmore. }
  assert (∀ s0, grows s3 s0 → clauses_at s0 (length (objs s)) pending) as Hat.
  { intros s0 Hg. apply (clauses_at_grows s3); [done|]. split.
    - rewrite Ho. apply list_lookup_insert_eq. simpl. rewrite length_app. simpl. lia.
    - apply Forall_forall. intros p Hp. destruct (Hlt p (Hsub p Hp)) as [Hp1 Hp2].
      rewrite Ho, list_lookup_insert_ne by lia. simpl.
      by rewrite lookup_app_l. }
  assert (∀ val, covered (<[name P := val]> (model s)) pending.*2) as Hcov'.
  { intros val. apply covered_insert. intros c l Hc Hl. apply (Hcov c); [|done].
    apply list_elem_of_fmap in Hc as (p & -> & Hp). apply list_elem_of_fmap. eauto. }
  assert (∀ v, Forall (satisfies v) ps.*2 → Forall (satisfies v) pending.*2) as Hsat.
  { intros v Hall. apply Forall_forall. intros c Hc.
    apply list_elem_of_fmap in Hc as (p & -> & Hp).
    apply (proj1 (Forall_forall _ _) Hall). apply list_elem_of_fmap. eauto. }
  assert (ps ≠ [] → ∃ p rest rest', ps = p :: rest ∧ pending = p :: rest') as Hhead.
  { intros Hne. apply scan_pure_continue in Hsp as (p & rest & rest' & -> & -> & _);
      [eauto|done]. }
  assert (pending ≠ [] → ps ≠ []) as Hne'.
  { intros Hpe ->. simpl in Hsp. by injection Hsp as <-. }
  destruct (queue_commit _ _ _ _ _ StTrue Hnd Hfree Hpop) as (HP & Hnd5 & Hfree5T);
    [done|].
  destruct (queue_commit _ _ _ _ _ StFalse Hnd Hfree Hpop) as (_ & _ & Hfree5F);
    [done|].
  assert (dom (<[name P := StTrue]> (model s)) = dom (model s)) as HdomT.
  { apply dom_insert_lookup_L. by eexists. }
  assert (dom (<[name P := StFalse]> (model s)) = dom (model s)) as HdomF.
  { apply dom_insert_lookup_L. by eexists. }
  apply bind_Val in H as (sat1 & s7 & Hrec1 & H).
  pose proof (DPLL_rec_grows fuel (length (objs s)) (set_model (λ m, <[name P := StTrue]> m)
                (set_symbols h5 s3))) as Hg1.
  rewrite Hrec1 in Hg1. simpl in Hg1.
  apply (IH _ pending) in Hrec1 as [Hdom1 Hres1].
  2: { apply Hat. unfold grows. done. }
  2: { split; simpl; [done|]. by rewrite Hm. }
  2: { simpl. rewrite Hm. apply Hcov'. }
  simpl in Hdom1, Hres1. rewrite Hm in Hdom1, Hres1.
  destruct sat1; cbn [negb] in H.
  { injection H as <- <-. split; [by rewrite Hdom1|].
    destruct Hres1 as (p & rest & -> & Hv).
    destruct Hhead as (p' & rest0 & rest' & -> & [= <- _]); [by apply Hne'|]. eauto. }
  destruct Hres1 as (Hm7 & Hsy7 & Hun1).
  apply bind_Val in H as ([] & s8 & Hset & H). injection Hset as <-.
  apply bind_Val in H as (sat2 & s9 & Hrec2 & H).
  pose proof (DPLL_rec_grows fuel (length (objs s))
                (set_model (λ m, <[name P := StFalse]> m) s7)) as Hg2.
  rewrite Hrec2 in Hg2. simpl in Hg2.
  apply (IH _ pending) in Hrec2 as [Hdom2 Hres2].
  2: { apply Hat. exact Hg1. }
  2: { split; simpl.
       - by rewrite (queued_Permutation _ _ Hsy7).
       - intros x. rewrite Hm7, insert_insert_eq.
         rewrite <- Hfree5F. by rewrite (queued_Permutation _ _ Hsy7). }
  2: { simpl. rewrite Hm7, insert_insert_eq. apply Hcov'. }
  simpl in Hdom2, Hres2. rewrite Hm7, insert_insert_eq in Hdom2, Hres2.
  destruct sat2; cbn [negb] in H.
  { injection H as <- <-. split; [by rewrite Hdom2|].
    destruct Hres2 as (p & rest & -> & Hv).
    destruct Hhead as (p' & rest0 & rest' & -> & [= <- _]); [by apply Hne'|]. eauto. }
  destruct Hres2 as (Hm9 & Hsy9 & Hun2).
  apply bind_Val in H as ([] & s10 & Hset & H). injection Hset as <-.
  apply bind_Val in H as ([] & s11 & Hpush & H). injection H as <- <-.
  apply on_symbols_Val in Hpush as (h11 & Hpush & ->).
  apply heappush_Permutation in Hpush. simpl in Hpush. simpl.
  assert (<[name P := Free]> (model s9) = model s) as Hback.
  { rewrite Hm9, insert_insert_eq. by apply insert_id. }
  rewrite Hback. split; [done|]. split; [done|]. split.
  - rewrite Hpush, Hsy9. simpl. rewrite Hsy7. simpl. by rewrite Hpop.
  - intros Hne v Hext Hall.
    destruct Hhead as (p & rest & rest' & -> & ->); [done|].
    pose proof (extends_commit _ _ (name P) Hext) as Hext'.
    destruct (v (name P)).
    + apply (Hun1 ltac:(done) v Hext'). by apply Hsat.
    + apply (Hun2 ltac:(done) v Hext'). by apply Hsat.
Qed.

(** ** The ranking as a fold over the literals *)

Lemma rank_literal_ranking l r s r' s' :
  rank_literal l r s = (Val r', s') →
  symbols_ranking r' = ranking_incr (symbols_ranking r) l.
Proof.
  unfold rank_literal. intros H. apply bind_Val in H as (signs & s1 & _ & H).
  by injection H as <- <-.
Qed.

Lemma rank_literals_ranking lits r s r' s' :
  for_each lits rank_literal r s = (Val r', s') →
  symbols_ranking r' = foldl ranking_incr (symbols_ranking r) lits.
Proof.
  revert r s. induction lits as [|l lits IH]; intros r s H; simpl in H.
  { by injection H as <- <-. }
  apply bind_Val in H as (r1 & s1 & H1 & H).
  apply rank_literal_ranking in H1. apply IH in H. simpl. by rewrite H, H1.
Qed.

Lemma rank_clause_ranking c lits r s r' s' :
  objs s !! c = Some (ClauseObj lits) →
  rank_clause c r s = (Val r', s') →
  symbols_ranking r' = foldl ranking_incr (symbols_ranking r) lits.
Proof.
  intros Hc H. unfold rank_clause in H.
  apply bind_Val in H as (lits' & s1 & Hrd & H).
  unfold read_clause in Hrd. rewrite Hc in Hrd. injection Hrd as <- <-.
  apply rank_literals_ranking in H. rewrite H. by destruct (length lits =? 1).
Qed.

Lemma rank_symbols_ranking items kb r s r' s' :
  Forall2 (λ c lits, objs s !! c = Some (ClauseObj lits)) items kb →
  for_each items rank_clause r s = (Val r', s') →
  symbols_ranking r' = foldl ranking_incr (symbols_ranking r) (concat kb).
Proof.
  intros HF. revert r s'. induction HF as [|c lits items kb Hc HF IH]; intros r s' H;
    simpl in H.
  { by injection H as <- <-. }
  apply bind_Val in H as (r1 & s1 & H1 & H).
  pose proof (rank_clause_state c r s) as Hs. rewrite H1 in Hs. simpl in Hs. subst s1.
  apply (rank_clause_ranking _ _ _ _ _ _ Hc) in H1. apply IH in H.
  simpl. by rewrite foldl_app, <- H1.
Qed.

(** What [symbols_ranking[literal] += 1] does to the items. *)
Lemma elem_of_ranking_incr d l k cnt :
  NoDup (names d) →
  (k, cnt) ∈ ranking_incr d l →
  (name k ≠ name l ∧ (k, cnt) ∈ d) ∨
  (name k = name l ∧ (k, (cnt - 1)%Z) ∈ d) ∨
  ((name l ∉ names d) ∧ k = l ∧ cnt = 1%Z).
Proof.
  unfold names. induction d as [|[k0 c0] d IH]; simpl; intros Hnd Hin.
  { apply list_elem_of_singleton in Hin as [= -> ->]. right. right.
    split; [apply not_elem_of_nil|done]. }
  apply NoDup_cons in Hnd as [Hk0 Hnd].
  destruct (Literal_eq k0 l) eqn:Heq.
  - apply Literal_eq_spec in Heq.
    apply elem_of_cons in Hin as [[= -> ->]|Hin].
    + right. left. split; [done|]. apply elem_of_cons. left. f_equal. lia.
    + left. split; [|by apply elem_of_cons; right].
      intros Hk. apply Hk0. rewrite Heq, <- Hk.
      apply list_elem_of_fmap. by exists (k, cnt).
  - assert (name k0 ≠ name l) as Hne.
    { intros H. apply Literal_eq_spec in H. congruence. }
    apply elem_of_cons in Hin as [[= -> ->]|Hin].
    + left. split; [done|]. by apply elem_of_cons; left.
    + destruct (IH Hnd Hin) as [[H1 H2]|[[H1 H2]|(H1 & H2 & H3)]].
      * left. split; [done|]. by apply elem_of_cons; right.
      * right. left. split; [done|]. by apply elem_of_cons; right.
      * right. right. split; [|done].
        intros [H|H]%elem_of_cons; [by apply Hne|done].
Qed.

Lemma names_ranking_incr_eq d l :
  names (ranking_incr d l) =
    if decide (name l ∈ names d) then names d else names d ++ [name l].
Proof.
  unfold names. induction d as [|[k0 c0] d IH]; cbn [ranking_incr fmap list_fmap].
  { rewrite decide_False; [reflexivity|]. apply not_elem_of_nil. }
  destruct (Literal_eq k0 l) eqn:Heq; cbn [fmap list_fmap fst].
  - apply Literal_eq_spec in Heq.
    rewrite decide_True; [reflexivity|]. apply elem_of_cons. by left.
  - assert (name k0 ≠ name l) as Hne.
    { intros H. apply Literal_eq_spec in H. congruence. }
    rewrite IH. destruct (decide (name l ∈ (λ kv, name kv.1) <$> d)) as [Hin|Hin].
    + rewrite decide_True; [reflexivity|]. by apply elem_of_cons; right.
    + rewrite decide_False; [reflexivity|].
      intros [H|H]%elem_of_cons; [by destruct Hne|done].
Qed.

Lemma occurrences_app x Ls Ls' :
  occurrences x (Ls ++ Ls') = occurrences x Ls + occurrences x Ls'.
Proof. unfold occurrences. by rewrite filter_app, length_app. Qed.

Lemma occurrences_zero x Ls : (∀ l, l ∈ Ls → name l ≠ x) → occurrences x Ls = 0.
Proof.
  unfold occurrences. induction Ls as [|l Ls IH]; intros H; [done|].
  rewrite filter_cons_False by (apply H, elem_of_cons; by left).
  apply IH. intros l' Hl'. apply H, elem_of_cons. by right.
Qed.

(** The table after the literals [Ls]: one item per symbol, in the order
    the symbols first occur, each with the number of its occurrences. *)
Lemma ranking_fold Ls :
  let d := foldl ranking_incr [] Ls in
  NoDup (names d) ∧
  (∀ x, x ∈ names d ↔ ∃ l, l ∈ Ls ∧ name l = x) ∧
  (∀ k cnt, (k, cnt) ∈ d → cnt = Z.of_nat (occurrences (name k) Ls)).
Proof.
  induction Ls as [|l Ls IH] using rev_ind; simpl.
  { split; [apply NoDup_nil_2|]. split.
    - intros x. split; [by intros ?%elem_of_nil|]. by intros (? & ?%elem_of_nil & _).
    - by intros k cnt ?%elem_of_nil. }
  rewrite foldl_app. simpl. destruct IH as (Hnd & Hnames & Hcnt).
  set (d := foldl ranking_incr [] Ls) in *. split; [|split].
  - rewrite names_ranking_incr_eq. destruct (decide _) as [Hin|Hin]; [done|].
    apply NoDup_app. split; [done|]. split; [|apply NoDup_singleton].
    intros x Hx ->%list_elem_of_singleton. done.
  - intros x. rewrite names_ranking_incr, Hnames. split.
    + intros [(l' & Hl' & <-)| ->].
      * exists l'. split; [|done]. apply elem_of_app. by left.
      * exists l. split; [|done]. apply elem_of_app. right. by apply list_elem_of_singleton.
    + intros (l' & [Hl'| ->%list_elem_of_singleton]%elem_of_app & <-); eauto.
  - intros k cnt Hin. rewrite occurrences_app.
    destruct (elem_of_ranking_incr d l k cnt Hnd Hin) as [[H1 H2]|[[H1 H2]|(H1 & -> & ->)]].
    + rewrite (Hcnt _ _ H2), (occurrences_zero _ [l]); [lia|].
      by intros ? ->%list_elem_of_singleton.
    + apply Hcnt in H2. unfold occurrences at 2. rewrite H1.
      rewrite filter_cons_True by done. simpl. rewrite <- H1. lia.
    + rewrite (occurrences_zero _ Ls).
      * unfold occurrences. by rewrite filter_cons_True.
      * intros l' Hl' Heq. apply H1, Hnames. eauto.
Qed.

(** ** The queue that [DPLLSatisfiable] builds *)

Lemma push_loop_entries r kvs s s' :
  (∀ kv, kv ∈ kvs → is_Some (pure_symbols r !! name kv.1)) →
  for_each kvs (push_symbol r) tt s = (Val tt, s') →
  objs s' = objs s ∧ model s' = model s ∧
  symbols s' ≡ₚ (entry_of r <$> kvs) ++ symbols s.
Proof.
  revert s. induction kvs as [|kv kvs IH]; intros s Hsome H; simpl in H.
  { by injection H as <-. }
  apply bind_Val in H as ([] & s1 & Hone & H).
  unfold push_symbol in Hone. apply bind_Val in Hone as (e & s0 & He & Hone).
  rewrite rank_entry_run in He by (apply Hsome, elem_of_cons; by left).
  injection He as <- <-.
  apply on_symbols_Val in Hone as (h1 & Hpush & ->).
  apply heappush_Permutation in Hpush.
  apply IH in H as (Ho & Hm & Hs).
  2: { intros kv' Hkv'. apply Hsome, elem_of_cons. by right. }
  split; [done|]. split; [done|]. rewrite Hs. simpl. rewrite Hpush.
  fold (entry_of r kv). by rewrite Permutation_middle.
Qed.

(** What [DPLLSatisfiable] has when it calls [DPLL]: the tables of the
    first loop, and a heap with one entry for each item of the ranking. *)
Lemma build_queue_Val s k kb r s' :
  read_kb s k = Some kb →
  build_queue k s = (Val r, s') →
  ranked (concat kb) r ∧
  symbols_ranking r = foldl ranking_incr [] (concat kb) ∧
  objs s' = objs s ∧ model s' = model s ∧
  symbols s' ≡ₚ entry_of r <$> symbols_ranking r.
Proof.
  intros Hkb Hrun. unfold read_kb in Hkb.
  destruct (objs s !! k) as [[|items]|] eqn:Hk; try done.
  apply mapM_Some in Hkb.
  assert (Forall2 (λ c lits, objs s !! c = Some (ClauseObj lits)) items kb) as HF.
  { eapply Forall2_impl; [exact Hkb|]. intros c lits. cbv beta.
    by destruct (objs s !! c) as [[]|]; intros [= ->]. }
  destruct (rank_symbols_ranked items kb [] _ s HF ranked_nil) as (r0 & Hrank & Hr).
  unfold build_queue in Hrun.
  apply bind_Val in Hrun as (items' & s1 & Hrd & Hrun).
  unfold read_list in Hrd. rewrite Hk in Hrd. injection Hrd as <- <-.
  apply bind_Val in Hrun as (r1 & s2 & Hrank' & Hrun).
  unfold rank_symbols in Hrank'. rewrite Hrank in Hrank'. injection Hrank' as <- <-.
  apply (rank_symbols_ranking _ _ _ _ _ _ HF) in Hrank.
  apply bind_Val in Hrun as ([] & s3 & Hmod & Hrun). injection Hmod as <-.
  apply bind_Val in Hrun as ([] & s4 & Hpush & Hrun). injection Hrun as <- <-.
  apply push_loop_entries in Hpush as (Ho & Hm & Hs).
  2: { intros kv Hkv. apply (ranked_names _ _ Hr). apply list_elem_of_fmap. eauto. }
  simpl in *. rewrite app_nil_r in Hs. done.
Qed.

(** ** The state in which [DPLLSatisfiable] calls [DPLL] *)

Lemma read_kb_clauses_at s k kb :
  read_kb s k = Some kb → ∃ ps, ps.*2 = kb ∧ clauses_at s k ps.
Proof.
  unfold read_kb, clauses_at. intros Hkb.
  destruct (objs s !! k) as [[|items]|] eqn:Hk; try done.
  apply mapM_Some in Hkb.
  assert (Forall2 (λ c lits, objs s !! c = Some (ClauseObj lits)) items kb) as HF.
  { eapply Forall2_impl; [exact Hkb|]. intros c lits. cbv beta.
    by destruct (objs s !! c) as [[]|]; intros [= ->]. }
  clear Hkb Hk. induction HF as [|c lits items kb Hc HF (ps & <- & [= ->] & HFa)].
  { exists []. by repeat split. }
  exists ((c, lits) :: ps). split; [done|]. split; [done|]. by apply Forall_cons.
Qed.

Lemma initial_model_lookup d x :
  initial_model d !! x = Some Free ↔ x ∈ names d.
Proof.
  unfold initial_model, names. split.
  - intros H. apply elem_of_list_to_map_2, list_elem_of_fmap in H as (kv & [= ->] & Hkv).
    apply list_elem_of_fmap. eauto.
  - intros Hx.
    destruct (list_to_map ((λ kv, (name kv.1, Free)) <$> d) !! x) as [v|] eqn:Hv.
    + by rewrite (initial_model_free d x v Hv).
    + apply not_elem_of_list_to_map_2 in Hv. destruct Hv.
      rewrite <- list_fmap_compose. exact Hx.
Qed.

Lemma initial_model_is_Some d x : is_Some (initial_model d !! x) ↔ x ∈ names d.
Proof.
  rewrite <- initial_model_lookup. split; [|by eauto].
  intros [v Hv]. by rewrite (initial_model_free d x v Hv) in Hv.
Qed.

Lemma extends_initial_model d v : extends (initial_model d) v.
Proof. intros x. split; by intros ?%initial_model_free. Qed.

Lemma queued_entries r d : queued (entry_of r <$> d) = names d.
Proof. unfold queued, names. by rewrite <- list_fmap_compose. Qed.

Lemma occurs_name kb x : (∃ b, occurs kb x b) ↔ ∃ l, l ∈ concat kb ∧ name l = x.
Proof.
  split.
  - intros [b Hb]. apply occurs_concat in Hb. by exists (mkLiteral x b).
  - intros ([n b] & Hl & <-). exists b. by apply occurs_concat.
Qed.

Lemma DPLLSatisfiable_entry s k kb r s1 :
  read_kb s k = Some kb →
  build_queue k s = (Val r, s1) →
  let s2 := set_model (λ _, initial_model (symbols_ranking r)) s1 in
  (∃ ps, ps.*2 = kb ∧ clauses_at s2 k ps) ∧
  queue_inv s2 ∧ covered (model s2) kb ∧
  (∀ x, is_Some (model s2 !! x) ↔ ∃ b, occurs kb x b).
Proof.
  intros Hkb Hrun. destruct (build_queue_Val _ _ _ _ _ Hkb Hrun)
    as (Hr & Hrank & Ho & _ & Hs).
  destruct (ranking_fold (concat kb)) as (Hnd & Hnames & _).
  rewrite <- Hrank in Hnd, Hnames. simpl.
  split; [|split; [|split]].
  - destruct (read_kb_clauses_at _ _ _ Hkb) as (ps & Hps & Hat).
    exists ps. split; [done|]. apply (clauses_at_grows s); [|done].
    unfold grows. simpl. by rewrite Ho.
  - split; simpl.
    + by rewrite (queued_Permutation _ _ Hs), queued_entries.
    + intros x. by rewrite (queued_Permutation _ _ Hs), queued_entries,
        initial_model_lookup.
  - intros c l Hc Hl. apply initial_model_is_Some, Hnames.
    exists l. split; [|done]. destruct l as [n b].
    apply (occurs_concat kb n b). by exists c.
  - intros x. by rewrite initial_model_is_Some, Hnames, occurs_name.
Qed.

(** What a call of [DPLLSatisfiable] on a loaded knowledge base returns. *)
Lemma solve_Val kb b m :
  solve kb = Val (b, m) →
  (∀ x, is_Some (m !! x) ↔ ∃ b', occurs kb x b') ∧
  if b then ∃ c rest, kb = c :: rest ∧ clause_value m c = Some true
  else kb ≠ [] → ∀ v, ¬ Forall (satisfies v) kb.
Proof.
  unfold solve. pose proof (read_kb_load kb) as Hkb.
  destruct (load kb) as [s k]. simpl in Hkb.
  destruct (DPLLSatisfiable k s) as [[b0| | |] s'] eqn:Hrun; try done.
  intros [= -> <-]. unfold DPLLSatisfiable in Hrun.
  apply bind_Val in Hrun as (r & s1 & Hq & Hrun).
  apply bind_Val in Hrun as ([] & s2 & [= <-] & Hrun).
  apply bind_Val in Hrun as (syms & s3 & [= <- <-] & Hrun).
  destruct (DPLLSatisfiable_entry _ _ _ _ _ Hkb Hq)
    as ((ps & Hps & Hat) & Hinv & Hcov & Hkeys).
  rewrite <- Hps in Hcov.
  destruct (DPLL_rec_spec _ _ _ _ _ _ Hat Hinv Hcov Hrun) as [Hdom Hres].
  split.
  - intros x. rewrite <- Hkeys, <- !elem_of_dom. by rewrite Hdom.
  - destruct b.
    + destruct Hres as (p & rest & -> & Hv). subst kb. simpl. eauto.
    + destruct Hres as (_ & _ & Hun). intros Hne v. subst kb.
      apply Hun; [by intros ->|]. apply extends_initial_model.
Qed.

(** ** What the answers of [DPLLSatisfiable] are worth *)

(** X1.  When [DPLLSatisfiable] returns [True], the knowledge base has a
    first clause and that clause is satisfied by the returned model: a
    literal of it is made true by what its symbol is committed to. *)
Theorem solve_true_first_clause (kb : list Clause) (m : gmap string TruthState) :
  solve kb = Val (true, m) →
  ∃ c rest, kb = c :: rest ∧ ∃ l, l ∈ c ∧ lit_matches m l.
Proof.
  intros H. apply solve_Val in H as [_ (c & rest & -> & Hv)].
  exists c, rest. split; [done|]. apply existsb_matches.
  unfold clause_value in Hv.
  destruct (existsb (lit_matchesb m) c); [done|].
  by destruct (existsb (lit_freeb m) c).
Qed.

Lemma solve_true_first_clause_witness :
  solve [[neg A; B; E]; [neg B; A]; [neg E; A]]
    = Val (true, {[ "A"%string := StTrue; "B"%string := StTrue; "E"%string := Free ]}) ∧
  ∃ c rest, [[neg A; B; E]; [neg B; A]; [neg E; A]] = c :: rest ∧
    ∃ l, l ∈ c ∧
      lit_matches {[ "A"%string := StTrue; "B"%string := StTrue; "E"%string := Free ]} l.
Proof.
  assert (solve [[neg A; B; E]; [neg B; A]; [neg E; A]]
          = Val (true, {[ "A"%string := StTrue; "B"%string := StTrue;
                          "E"%string := Free ]})) as Hrun.
  { vm_compute. reflexivity. }
  split; [exact Hrun|]. exact (solve_true_first_clause _ _ Hrun).
Defined.

(** X2.  When [DPLLSatisfiable] returns [False] on a knowledge base that
    has a clause, no assignment of truth values to the symbols satisfies
    every clause of it. *)
Theorem solve_false_unsatisfiable (kb : list Clause) (m : gmap string TruthState) :
  solve kb = Val (false, m) → kb ≠ [] →
  ∀ v : string → bool, ¬ Forall (satisfies v) kb.
Proof. intros H. by apply solve_Val in H as [_ Hun]. Qed.

Lemma solve_false_unsatisfiable_witness :
  (solve [[mkLiteral "Z" true]; [A]; [neg A]; [mkLiteral "Z" false]]
     = Val (false, {[ "A"%string := Free; "Z"%string := Free ]}) ∧
   [[mkLiteral "Z" true]; [A]; [neg A]; [mkLiteral "Z" false]] ≠ []) ∧
  ∀ v : string → bool,
    ¬ Forall (satisfies v) [[mkLiteral "Z" true]; [A]; [neg A]; [mkLiteral "Z" false]].
Proof.
  assert (solve [[mkLiteral "Z" true]; [A]; [neg A]; [mkLiteral "Z" false]]
          = Val (false, {[ "A"%string := Free; "Z"%string := Free ]})) as Hrun.
  { vm_compute. reflexivity. }
  assert ([[mkLiteral "Z" true]; [A]; [neg A]; [mkLiteral "Z" false]] ≠ []) as Hne.
  { discriminate. }
  split; [by split|]. exact (solve_false_unsatisfiable _ _ Hrun Hne).
Defined.

(** X3.  Whatever [DPLLSatisfiable] returns, the keys of the returned
    model are exactly the symbols that occur in the knowledge base. *)
Theorem solve_model_keys (kb : list Clause) (b : bool) (m : gmap string TruthState) :
  solve kb = Val (b, m) →
  ∀ x, is_Some (m !! x) ↔ ∃ b', occurs kb x b'.
Proof. intros H. by apply solve_Val in H as [Hkeys _]. Qed.

Lemma solve_model_keys_witness :
  solve [[A; B]; [neg A; neg B]]
    = Val (true, {[ "A"%string := StTrue; "B"%string := Free ]}) ∧
  ∀ x, is_Some (({[ "A"%string := StTrue; "B"%string := Free ]}
                   : gmap string TruthState) !! x)
       ↔ ∃ b', occurs [[A; B]; [neg A; neg B]] x b'.
Proof.
  assert (solve [[A; B]; [neg A; neg B]]
          = Val (true, {[ "A"%string := StTrue; "B"%string := Free ]})) as Hrun.
  { vm_compute. reflexivity. }
  split; [exact Hrun|]. exact (solve_model_keys _ _ _ Hrun).
Defined.

(** X4.  A frame of [DPLL] that returns [False] has undone what it did:
    the model is the one it was entered with, and the queue holds the
    entries it held, the popped symbol pushed back. *)
Theorem DPLL_false_restores
    (s : state) (clauses : loc) (ps : list (loc * Clause)) (s' : state) :
  clauses_at s clauses ps → queue_inv s → covered (model s) ps.*2 →
  DPLL clauses s = (Val false, s') →
  model s' = model s ∧ symbols s' ≡ₚ symbols s.
Proof.
  intros Hat Hinv Hcov H. unfold DPLL in H.
  apply bind_Val in H as (syms & s1 & [= <- <-] & H).
  by destruct (DPLL_rec_spec _ _ _ _ _ _ Hat Hinv Hcov H) as [_ (Hm & Hs & _)].
Qed.

Lemma DPLL_false_restores_witness :
  (clauses_at failing_state 3
     [(0, [mkLiteral "Z" true]); (1, [A]); (2, [neg A])] ∧
   queue_inv failing_state ∧
   covered (model failing_state)
     [(0, [mkLiteral "Z" true]); (1, [A]); (2, [neg A])].*2 ∧
   (DPLL 3 failing_state).1 = Val false) ∧
  model (DPLL 3 failing_state).2 = model failing_state ∧
  symbols (DPLL 3 failing_state).2 ≡ₚ symbols failing_state.
Proof.
  assert (clauses_at failing_state 3
            [(0, [mkLiteral "Z" true]); (1, [A]); (2, [neg A])]) as Hat.
  { split; [reflexivity|]. repeat constructor. }
  assert (queue_inv failing_state) as Hinv.
  { split.
    - change (NoDup ["A"%string; "Z"%string]).
      apply NoDup_cons_2; [|apply NoDup_singleton].
      intros H%list_elem_of_singleton. discriminate H.
    - intros x. unfold failing_state. cbn [symbols model].
      by rewrite initial_model_lookup. }
  assert (covered (model failing_state)
            [(0, [mkLiteral "Z" true]); (1, [A]); (2, [neg A])].*2) as Hcov.
  { intros c l Hc Hl. apply initial_model_is_Some.
    apply list_elem_of_In in Hc. simpl in Hc.
    destruct Hc as [<-|[<-|[<-|[]]]]; apply list_elem_of_In in Hl; simpl in Hl;
      destruct Hl as [<-|[]]; apply list_elem_of_In; simpl; auto. }
  assert ((DPLL 3 failing_state).1 = Val false) as Hrun.
  { vm_compute. reflexivity. }
  split; [exact (conj Hat (conj Hinv (conj Hcov Hrun)))|].
  apply (DPLL_false_restores failing_state 3 _ _ Hat Hinv Hcov).
  destruct (DPLL 3 failing_state) as [o s']. simpl in Hrun. by subst o.
Defined.

(** ** The queue [DPLLSatisfiable] hands to [DPLL] *)

(** X5.  When the queue is built, it holds one entry for each symbol of
    the knowledge base and no other, and the number in the entry is minus
    the number of literals of that symbol in the knowledge base. *)
Theorem queue_counts_occurrences (kb : list Clause) (h : heap) :
  queue_of kb = Val h →
  NoDup (queued h) ∧
  (∀ x, x ∈ queued h ↔ ∃ b, occurs kb x b) ∧
  (∀ e, e ∈ h → e.1.2 = (- Z.of_nat (occurrences (name e.2) (concat kb)))%Z).
Proof.
  unfold queue_of. pose proof (read_kb_load kb) as Hkb.
  destruct (load kb) as [s k]. simpl in Hkb.
  destruct (build_queue k s) as [[r| | |] s'] eqn:Hrun; try done.
  intros [= <-].
  destruct (build_queue_Val _ _ _ _ _ Hkb Hrun) as (Hr & Hrank & _ & _ & Hs).
  destruct (ranking_fold (concat kb)) as (Hnd & Hnames & Hcnt).
  rewrite <- Hrank in Hnd, Hnames, Hcnt.
  split; [|split].
  - by rewrite (queued_Permutation _ _ Hs), queued_entries.
  - intros x. by rewrite (queued_Permutation _ _ Hs), queued_entries, Hnames, occurs_name.
  - intros e He. rewrite Hs in He.
    apply list_elem_of_fmap in He as ([k0 cnt] & -> & Hkv). simpl.
    by rewrite (Hcnt _ _ Hkv).
Qed.

Lemma queue_counts_occurrences_witness :
  queue_of [[neg A; B; E]; [neg B; A]; [neg E; A]]
    = Val [((REST, (-3)%Z), neg A); ((REST, (-2)%Z), B); ((REST, (-2)%Z), E)] ∧
  NoDup (queued [((REST, (-3)%Z), neg A); ((REST, (-2)%Z), B); ((REST, (-2)%Z), E)]) ∧
  (∀ x, x ∈ queued [((REST, (-3)%Z), neg A); ((REST, (-2)%Z), B); ((REST, (-2)%Z), E)]
        ↔ ∃ b, occurs [[neg A; B; E]; [neg B; A]; [neg E; A]] x b) ∧
  (∀ e, e ∈ [((REST, (-3)%Z), neg A); ((REST, (-2)%Z), B); ((REST, (-2)%Z), E)] →
        e.1.2 = (- Z.of_nat (occurrences (name e.2)
                               (concat [[neg A; B; E]; [neg B; A]; [neg E; A]])))%Z).
Proof.
  assert (queue_of [[neg A; B; E]; [neg B; A]; [neg E; A]]
          = Val [((REST, (-3)%Z), neg A); ((REST, (-2)%Z), B); ((REST, (-2)%Z), E)])
    as Hrun.
  { vm_compute. reflexivity. }
  split; [exact Hrun|]. exact (queue_counts_occurrences _ _ Hrun).
Defined.

(** X6.  When the queue is built, an entry is [PURE] exactly when its
    symbol occurs in the knowledge base with one sign only, and [REST]
    exactly when it occurs with both. *)
Theorem queue_importance (kb : list Clause) (h : heap) :
  queue_of kb = Val h →
  ∀ e, e ∈ h →
    (importance e = PURE ↔
       ∃ b, occurs kb (name e.2) b ∧ ¬ occurs kb (name e.2) (negb b)) ∧
    (importance e = REST ↔
       occurs kb (name e.2) true ∧ occurs kb (name e.2) false).
Proof.
  unfold queue_of. pose proof (read_kb_load kb) as Hkb.
  destruct (load kb) as [s k]. simpl in Hkb.
  destruct (build_queue k s) as [[r| | |] s'] eqn:Hrun; try done.
  intros [= <-] e He.
  destruct (build_queue_Val _ _ _ _ _ Hkb Hrun) as (Hr & Hrank & _ & _ & Hs).
  destruct (ranking_fold (concat kb)) as (_ & Hnames & _).
  rewrite <- Hrank in Hnames.
  rewrite Hs in He. apply list_elem_of_fmap in He as ([k0 cnt] & -> & Hkv).
  unfold importance. simpl.
  assert (∃ b, occurs kb (name k0) b) as [b Hb].
  { apply occurs_name, Hnames. apply list_elem_of_fmap. by exists (k0, cnt). }
  setoid_rewrite occurs_concat. apply occurs_concat in Hb.
  destruct (decide (mkLiteral (name k0) (negb b) ∈ concat kb)) as [Hnb|Hnb].
  - assert (class_of r (name k0) = REST) as ->.
    { destruct b; by eapply class_of_mixed. }
    split; split; try done.
    + intros (b' & Hb' & Hnb'). destruct Hnb'. destruct b, b'; done.
    + intros _. by destruct b.
  - rewrite (class_of_pure _ _ _ _ Hr Hb Hnb). split; split; try done.
    + intros _. by exists b.
    + intros [Ht Hf]. destruct Hnb. by destruct b.
Qed.

Lemma queue_importance_witness :
  queue_of [[A]; [B; A]] = Val [((PURE, (-2)%Z), A); ((PURE, (-1)%Z), B)] ∧
  ∀ e, e ∈ [((PURE, (-2)%Z), A); ((PURE, (-1)%Z), B)] →
    (importance e = PURE ↔
       ∃ b, occurs [[A]; [B; A]] (name e.2) b ∧
            ¬ occurs [[A]; [B; A]] (name e.2) (negb b)) ∧
    (importance e = REST ↔
       occurs [[A]; [B; A]] (name e.2) true ∧ occurs [[A]; [B; A]] (name e.2) false).
Proof.
  assert (queue_of [[A]; [B; A]] = Val [((PURE, (-2)%Z), A); ((PURE, (-1)%Z), B)])
    as Hrun.
  { vm_compute. reflexivity. }
  split; [exact Hrun|]. exact (queue_importance _ _ Hrun).
Defined.

(** ** More on [clauseSatisfied] *)

Lemma existsb_same_elements {X} (f : X → bool) (l l' : list X) :
  (∀ x, x ∈ l ↔ x ∈ l') → existsb f l = existsb f l'.
Proof.
  intros Hsame. apply eq_true_iff_eq.
  split; intros (x & Hx & Hf)%existsb_exists; apply existsb_exists; exists x;
    (split; [|done]); apply list_elem_of_In, Hsame, list_elem_of_In, Hx.
Qed.

(** X7.  The result of [clauseSatisfied] depends only on which literals
    the clause holds, not on the order in which the clause is walked nor
    on how often a literal comes up in the walk. *)
Theorem clauseSatisfied_order_independent
    (s : state) (c c' : loc) (lits lits' : Clause) :
  objs s !! c = Some (ClauseObj lits) →
  objs s !! c' = Some (ClauseObj lits') →
  (∀ l, l ∈ lits ↔ l ∈ lits') →
  clauseSatisfied c s = clauseSatisfied c' s.
Proof.
  intros Hc Hc' Hsame.
  rewrite (clauseSatisfied_run _ _ _ Hc), (clauseSatisfied_run _ _ _ Hc').
  by rewrite (existsb_same_elements _ _ _ Hsame),
             (existsb_same_elements (lit_freeb _) _ _ Hsame).
Qed.

Lemma clauseSatisfied_order_independent_witness :
  (objs two_walks_state !! 0 = Some (ClauseObj [neg A; B; E]) ∧
   objs two_walks_state !! 1 = Some (ClauseObj [E; neg A; B; E]) ∧
   ∀ l, l ∈ [neg A; B; E] ↔ l ∈ [E; neg A; B; E]) ∧
  clauseSatisfied 0 two_walks_state = clauseSatisfied 1 two_walks_state.
Proof.
  assert (∀ l, l ∈ [neg A; B; E] ↔ l ∈ [E; neg A; B; E]) as Hsame.
  { intros l. rewrite !list_elem_of_In. simpl. tauto. }
  split; [exact (conj eq_refl (conj eq_refl Hsame))|].
  exact (clauseSatisfied_order_independent two_walks_state 0 1
           [neg A; B; E] [E; neg A; B; E] eq_refl eq_refl Hsame).
Defined.

Lemma lit_matches_commits m m' l :
  commits_more m m' → lit_matches m l → lit_matches m' l.
Proof.
  unfold lit_matches. intros Hc Hl. apply (Hc _ _ Hl). by destruct (sign l).
Qed.

(** X8.  A clause that is satisfied under a model stays satisfied under
    every model that keeps the commitments made; a clause that is
    falsified stays falsified when, in addition, the model had an entry
    for each of its symbols. *)
Theorem clauseSatisfied_stable
    (s s' : state) (c c' : loc) (lits : Clause) :
  objs s !! c = Some (ClauseObj lits) →
  objs s' !! c' = Some (ClauseObj lits) →
  commits_more (model s) (model s') →
  ((clauseSatisfied c s).1 = Val (Some true) →
   (clauseSatisfied c' s').1 = Val (Some true)) ∧
  ((∀ l, l ∈ lits → is_Some (model s !! name l)) →
   (clauseSatisfied c s).1 = Val (Some false) →
   (clauseSatisfied c' s').1 = Val (Some false)).
Proof.
  intros Hc Hc' Hmore.
  rewrite (clauseSatisfied_run _ _ _ Hc), (clauseSatisfied_run _ _ _ Hc'). simpl.
  split.
  - destruct (existsb (lit_matchesb (model s)) lits) eqn:Hm.
    + intros _. apply existsb_matches in Hm as (l & Hl & Hm).
      assert (existsb (lit_matchesb (model s')) lits = true) as ->; [|done].
      apply existsb_matches. exists l. split; [done|]. by eapply lit_matches_commits.
    + by destruct (existsb (lit_freeb (model s)) lits).
  - intros Hcov.
    destruct (existsb (lit_matchesb (model s)) lits) eqn:Hm; [done|].
    destruct (existsb (lit_freeb (model s)) lits) eqn:Hf; [done|]. intros _.
    assert (∀ l, l ∈ lits →
              model s' !! name l = Some (if sign l then StFalse else StTrue)) as Hall.
    { intros l Hl. destruct (Hcov l Hl) as [st Hst].
      assert (¬ lit_matches (model s) l) as Hnm.
      { intros H. assert (existsb (lit_matchesb (model s)) lits = true); [|congruence].
        apply existsb_matches. eauto. }
      assert (¬ lit_free (model s) l) as Hnf.
      { intros H. assert (existsb (lit_freeb (model s)) lits = true); [|congruence].
        apply existsb_free. eauto. }
      unfold lit_matches, lit_free in *.
      assert (st = if sign l then StFalse else StTrue) as Heq.
      { destruct st, (sign l); congruence. }
      rewrite <- Heq. apply (Hmore _ _ Hst). intros ->. congruence. }
    assert (existsb (lit_matchesb (model s')) lits = false) as ->.
    { apply not_true_is_false. intros (l & Hl & H)%existsb_matches.
      unfold lit_matches in H. rewrite (Hall l Hl) in H. by destruct (sign l). }
    assert (existsb (lit_freeb (model s')) lits = false) as ->; [|done].
    apply not_true_is_false. intros (l & Hl & H)%existsb_free.
    unfold lit_free in H. rewrite (Hall l Hl) in H. by destruct (sign l).
Qed.

Lemma clauseSatisfied_stable_witness :
  (objs before_commit_state !! 0 = Some (ClauseObj [neg A; B]) ∧
   objs after_commit_state !! 0 = Some (ClauseObj [neg A; B]) ∧
   commits_more (model before_commit_state) (model after_commit_state)) ∧
  ((clauseSatisfied 0 before_commit_state).1 = Val (Some true) →
   (clauseSatisfied 0 after_commit_state).1 = Val (Some true)) ∧
  ((∀ l, l ∈ [neg A; B] → is_Some (model before_commit_state !! name l)) →
   (clauseSatisfied 0 before_commit_state).1 = Val (Some false) →
   (clauseSatisfied 0 after_commit_state).1 = Val (Some false)).
Proof.
  assert (commits_more (model before_commit_state) (model after_commit_state))
    as Hmore.
  { intros x st Hx Hst. simpl in *.
    apply lookup_insert_Some in Hx as [[<- <-]|[Hne Hx]]; [reflexivity|].
    apply lookup_singleton_Some in Hx as [<- <-]. done. }
  split; [exact (conj eq_refl (conj eq_refl Hmore))|].
  exact (clauseSatisfied_stable before_commit_state after_commit_state 0 0
           [neg A; B] eq_refl eq_refl Hmore).
Defined.

(** X9.  A literal whose symbol has no entry in the model is passed over:
    the clause evaluates as it does without such literals, and a clause
    none of whose symbols has an entry evaluates to [False]. *)
Theorem clauseSatisfied_skips_missing
    (s : state) (c c' : loc) (lits : Clause) :
  objs s !! c = Some (ClauseObj lits) →
  objs s !! c' = Some (ClauseObj (filter (λ l, in_model (model s) l = true) lits)) →
  clauseSatisfied c s = clauseSatisfied c' s ∧
  ((∀ l, l ∈ lits → model s !! name l = None) →
   clauseSatisfied c s = (Val (Some false), s)).
Proof.
  intros Hc Hc'.
  rewrite (clauseSatisfied_run _ _ _ Hc), (clauseSatisfied_run _ _ _ Hc').
  assert (∀ f : Literal → bool,
            (∀ l, f l = true → in_model (model s) l = true) →
            existsb f (filter (λ l, in_model (model s) l = true) lits)
            = existsb f lits) as Hfilter.
  { intros f Hf. apply eq_true_iff_eq.
    split; intros (x & Hx & Hfx)%existsb_exists; apply existsb_exists; exists x;
      (split; [|done]); apply list_elem_of_In; apply list_elem_of_In in Hx.
    - by apply list_elem_of_filter in Hx as [_ Hx].
    - apply list_elem_of_filter. split; [by apply Hf|done]. }
  split.
  - rewrite !Hfilter; [done| |].
    + intros l Hl. apply bool_decide_eq_true in Hl. apply bool_decide_eq_true. by eexists.
    + intros l Hl. apply bool_decide_eq_true in Hl. apply bool_decide_eq_true. by eexists.
  - intros Hnone.
    assert (existsb (lit_matchesb (model s)) lits = false) as ->.
    { apply not_true_is_false. intros (l & Hl & H)%existsb_matches.
      unfold lit_matches in H. by rewrite (Hnone l Hl) in H. }
    assert (existsb (lit_freeb (model s)) lits = false) as ->; [|done].
    apply not_true_is_false. intros (l & Hl & H)%existsb_free.
    unfold lit_free in H. by rewrite (Hnone l Hl) in H.
Qed.

Lemma clauseSatisfied_skips_missing_witness :
  (objs missing_symbols_state !! 0 = Some (ClauseObj [C; neg A; D]) ∧
   objs missing_symbols_state !! 1
     = Some (ClauseObj (filter (λ l, in_model (model missing_symbols_state) l = true)
                          [C; neg A; D]))) ∧
  clauseSatisfied 0 missing_symbols_state = clauseSatisfied 1 missing_symbols_state ∧
  ((∀ l, l ∈ [C; neg A; D] → model missing_symbols_state !! name l = None) →
   clauseSatisfied 0 missing_symbols_state
   = (Val (Some false), missing_symbols_state)).
Proof.
  split; [split; reflexivity|].
  exact (clauseSatisfied_skips_missing missing_symbols_state 0 1 [C; neg A; D]
           eq_refl eq_refl).
Defined.

(** ** The [Literal] class *)

(** X10.  [__str__] tells literals apart as long as no name begins with
    ["-"]: two such literals with the same string are the same literal,
    name and sign. *)
Theorem Literal_str_injective (l1 l2 : Literal) :
  ¬ starts_with_minus (name l1) → ¬ starts_with_minus (name l2) →
  Literal_str l1 = Literal_str l2 → l1 = l2.
Proof.
  destruct l1 as [n1 [|]], l2 as [n2 [|]]; unfold Literal_str; simpl;
    intros H1 H2 Heq.
  - by subst.
  - destruct H1. by exists n2.
  - destruct H2. by exists n1.
  - cbv [String.append] in Heq. by injection Heq as ->.
Qed.

Lemma Literal_str_injective_witness :
  (¬ starts_with_minus (name (neg A)) ∧ ¬ starts_with_minus (name (neg A)) ∧
   Literal_str (neg A) = Literal_str (mkLiteral "A" false)) ∧
  neg A = mkLiteral "A" false.
Proof.
  assert (¬ starts_with_minus (name (neg A))) as H.
  { intros [rest Hrest]. discriminate Hrest. }
  split; [exact (conj H (conj H eq_refl))|].
  exact (Literal_str_injective (neg A) (mkLiteral "A" false) H H eq_refl).
Defined.

Lemma ascii_compare_refl a : Ascii.compare a a = Eq.
Proof. unfold Ascii.compare. apply N.compare_refl. Qed.

Lemma ascii_compare_lt_trans a b c :
  Ascii.compare a b = Lt → Ascii.compare b c = Lt → Ascii.compare a c = Lt.
Proof. unfold Ascii.compare. rewrite !N.compare_lt_iff. apply N.lt_trans. Qed.

Lemma string_compare_refl x : String.compare x x = Eq.
Proof. induction x as [|a x IH]; simpl; [done|]. by rewrite ascii_compare_refl. Qed.

Lemma string_compare_lt_trans x y z :
  String.compare x y = Lt → String.compare y z = Lt → String.compare x z = Lt.
Proof.
  revert y z. induction x as [|a x IH]; intros [|b y] [|c z]; simpl; try done.
  destruct (Ascii.compare a b) eqn:Hab; [| |done].
  - apply Ascii.compare_eq_iff in Hab as ->.
    destruct (Ascii.compare b c); [apply IH|done|done].
  - destruct (Ascii.compare b c) eqn:Hbc; [| |done].
    + apply Ascii.compare_eq_iff in Hbc as ->. by rewrite Hab.
    + by rewrite (ascii_compare_lt_trans _ _ _ Hab Hbc).
Qed.

(** X11.  [__lt__] orders literals strictly by name, in step with
    [__eq__]: of two literals [__eq__] holds or exactly one is [__lt__]
    the other, and [__lt__] is transitive. *)
Theorem Literal_lt_strict_order (l1 l2 l3 : Literal) :
  (Literal_eq l1 l2 = true → Literal_lt l1 l2 = false) ∧
  (Literal_eq l1 l2 = false → Literal_lt l1 l2 = negb (Literal_lt l2 l1)) ∧
  (Literal_lt l1 l2 = true → Literal_lt l2 l3 = true → Literal_lt l1 l3 = true).
Proof.
  unfold Literal_eq, Literal_lt, String.ltb. split; [|split].
  - intros ->%String.eqb_eq. by rewrite string_compare_refl.
  - intros Hne%String.eqb_neq. rewrite (String.compare_antisym (name l2) (name l1)).
    destruct (String.compare (name l1) (name l2)) eqn:Hc; [|done|done].
    by apply String.compare_eq_iff in Hc.
  - destruct (String.compare (name l1) (name l2)) eqn:H12; [done| |done].
    destruct (String.compare (name l2) (name l3)) eqn:H23; [done| |done].
    intros _ _. by rewrite (string_compare_lt_trans _ _ _ H12 H23).
Qed.

(** ** Set displays of literals *)

Lemma set_display_snoc ls l : set_display (ls ++ [l]) = set_add (set_display ls) l.
Proof. unfold set_display. by rewrite foldl_app. Qed.

Lemma existsb_Literal_eq l s :
  existsb (Literal_eq l) s = true ↔ name l ∈ name <$> s.
Proof.
  rewrite existsb_exists, list_elem_of_fmap. split.
  - intros (l' & Hl' & Heq). apply Literal_eq_spec in Heq.
    exists l'. split; [done|]. by apply list_elem_of_In.
  - intros (l' & Heq & Hl'). exists l'. split; [by apply list_elem_of_In|].
    by apply Literal_eq_spec.
Qed.

(** X12.  A set display of literals holds one literal for each symbol
    written in it: no two of its literals have the same name, its symbols
    are those written, and the literal kept for a symbol is the first one
    written with that name, whatever its sign. *)
Theorem set_display_first_of_each_symbol (ls : list Literal) :
  NoDup (name <$> set_display ls) ∧
  (∀ x, x ∈ name <$> set_display ls ↔ x ∈ name <$> ls) ∧
  (∀ l, l ∈ set_display ls →
        ∃ pre post, ls = pre ++ l :: post ∧ name l ∉ name <$> pre).
Proof.
  induction ls as [|l0 ls (Hnd & Hnames & Hfirst)] using rev_ind.
  { split; [apply NoDup_nil_2|]. split; [done|]. by intros l ?%elem_of_nil. }
  rewrite set_display_snoc. unfold set_add.
  destruct (existsb (Literal_eq l0) (set_display ls)) eqn:Hex.
  - apply existsb_Literal_eq in Hex. split; [done|]. split.
    + intros x. rewrite fmap_app. cbn [fmap list_fmap].
      rewrite elem_of_app, list_elem_of_singleton, Hnames.
      split; [by left|]. intros [H| ->]; [done|]. by apply Hnames.
    + intros l Hl. destruct (Hfirst l Hl) as (pre & post & -> & Hpre).
      exists pre, (post ++ [l0]). by rewrite <- app_assoc.
  - assert (name l0 ∉ name <$> set_display ls) as Hnew.
    { intros H. apply existsb_Literal_eq in H. congruence. }
    split; [|split].
    + rewrite fmap_app. cbn [fmap list_fmap]. apply NoDup_app. split; [done|].
      split; [|apply NoDup_singleton].
      by intros x Hx ->%list_elem_of_singleton.
    + intros x. rewrite !fmap_app, !elem_of_app, Hnames. done.
    + intros l [Hl| ->%list_elem_of_singleton]%elem_of_app.
      * destruct (Hfirst l Hl) as (pre & post & -> & Hpre).
        exists pre, (post ++ [l0]). by rewrite <- app_assoc.
      * exists ls, []. split; [done|]. by rewrite <- Hnames.
Qed.

(** ** Calls that go through *)

Lemma bind_run {S X Y} (m : M S X) (k : X → M S Y) s x s1 :
  m s = (Val x, s1) → bind m k s = k x s1.
Proof. unfold bind. by intros ->. Qed.

Lemma ret_returns {S X} (x : X) (s : S) : ∃ x' s', ret x s = (Val x', s').
Proof. by exists x, s. Qed.

Lemma uniform_Permutation c h h' : h ≡ₚ h' → uniform c h → uniform c h'.
Proof. unfold uniform. by intros ->. Qed.

Lemma siftdown_uniform c pos h :
  pos < length h → uniform c h →
  ∃ h', siftdown 0 pos h = (Val tt, h').
Proof.
  intros Hpos Hu. unfold siftdown.
  destruct (lookup_lt_is_Some_2 h pos Hpos) as [newitem Hn].
  unfold bind at 1, heap_get. rewrite Hn.
  destruct (siftdown_loop_uniform c pos newitem pos h)
    as (pos' & h' & Hrun & Hlt & Hu' & Hlen); [lia|done|done|..].
  { exact (Forall_lookup_1 _ _ _ _ Hu Hn). }
  unfold bind. rewrite Hrun. unfold heap_set. rewrite decide_True by done.
  by eexists.
Qed.

Lemma siftup_loop_uniform c fuel endpos pos childpos h :
  endpos = length h → pos < endpos → endpos ≤ fuel + childpos → uniform c h →
  ∃ pos' h', siftup_loop fuel endpos pos childpos h = (Val pos', h') ∧
             pos' < length h' ∧ uniform c h'.
Proof.
  revert pos childpos h.
  induction fuel as [|fuel IH]; intros pos childpos h Hend Hpos Hf Hu;
    cbn [siftup_loop].
  { rewrite (proj2 (Nat.ltb_ge _ _)) by lia. exists pos, h. by rewrite <- Hend. }
  destruct (childpos <? endpos) eqn:Hlt; [|exists pos, h; by rewrite <- Hend].
  apply Nat.ltb_lt in Hlt.
  assert (∃ childpos', childpos ≤ childpos' ∧ childpos' < endpos ∧
            (if childpos + 1 <? endpos then
               let* l := heap_get childpos in
               let* r := heap_get (childpos + 1) in
               let* smaller := compare_lt l r in
               ret (if negb smaller then childpos + 1 else childpos)
             else ret childpos) h = (Val childpos', h))
    as (childpos' & Hge & Hlt' & Hpick).
  { destruct (childpos + 1 <? endpos) eqn:Hr; [|by exists childpos].
    apply Nat.ltb_lt in Hr.
    destruct (lookup_lt_is_Some_2 h childpos) as [l Hl]; [lia|].
    destruct (lookup_lt_is_Some_2 h (childpos + 1)) as [r Hr']; [lia|].
    destruct (entry_lt_same l r) as [b Hb].
    { by rewrite (Forall_lookup_1 _ _ _ _ Hu Hl), (Forall_lookup_1 _ _ _ _ Hu Hr'). }
    exists (if negb b then childpos + 1 else childpos).
    split; [destruct b; simpl; lia|]. split; [destruct b; simpl; lia|].
    unfold bind, heap_get, compare_lt. by rewrite Hl, Hr', Hb. }
  rewrite (bind_run _ _ _ _ _ Hpick).
  destruct (lookup_lt_is_Some_2 h childpos') as [child Hc]; [lia|].
  unfold bind at 1, heap_get. rewrite Hc.
  unfold bind at 1, heap_set. rewrite decide_True by lia.
  apply IH.
  - by rewrite length_insert.
  - lia.
  - lia.
  - apply Forall_insert; [done|]. exact (Forall_lookup_1 _ _ _ _ Hu Hc).
Qed.

Lemma siftup_uniform c h :
  h ≠ [] → uniform c h → ∃ h', siftup 0 h = (Val tt, h').
Proof.
  intros Hne Hu. destruct h as [|e0 h0] eqn:Hh; [done|]. rewrite <- Hh in *.
  assert (0 < length h) as Hlen by (subst h; simpl; lia).
  assert (h !! 0 = Some e0) as H0 by (by subst h).
  clear Hh Hne. unfold siftup, bind at 1, get. unfold bind at 1, heap_get.
  rewrite H0.
  destruct (siftup_loop_uniform c (length h) (length h) 0 (2 * 0 + 1) h)
    as (pos' & h1 & Hrun & Hlt & Hu1); [done|lia|lia|done|].
  rewrite (bind_run _ _ _ _ _ Hrun).
  unfold bind at 1, heap_set. rewrite decide_True by done.
  apply (siftdown_uniform c).
  - by rewrite length_insert.
  - apply Forall_insert; [done|]. exact (Forall_lookup_1 _ _ _ _ Hu H0).
Qed.

(** On a heap of one importance that is not empty, [heappop] returns. *)
Lemma heappop_uniform c h :
  h ≠ [] → uniform c h → ∃ e h', heappop h = (Val e, h').
Proof.
  intros Hne Hu. destruct (last h) as [lastelt|] eqn:Hlast.
  2: { by apply last_None in Hlast. }
  unfold heappop, bind at 1, list_pop. rewrite Hlast.
  apply last_Some in Hlast as [h0 ->]. rewrite removelast_last.
  apply Forall_app in Hu as [Hu0 Hl]. rewrite Forall_singleton in Hl.
  unfold bind at 1, get. destruct h0 as [|e0 h0]; [apply ret_returns|].
  unfold bind at 1, heap_get. cbn [lookup list_lookup].
  unfold bind at 1, heap_set. rewrite decide_True by (simpl; lia).
  destruct (siftup_uniform c (<[0 := lastelt]> (e0 :: h0))) as [h' Hrun].
  { done. }
  { by apply Forall_insert. }
  rewrite (bind_run _ _ _ _ _ Hrun). apply ret_returns.
Qed.

Lemma DPLL_rec_false_Permutation fuel clauses s s' :
  DPLL_rec fuel clauses s = (Val false, s') → symbols s' ≡ₚ symbols s.
Proof.
  revert clauses s s'. induction fuel as [|fuel IH]; intros clauses s s' H; [done|].
  cbn [DPLL_rec] in H.
  apply bind_Val in H as (u & s1 & Hnew & H).
  assert (symbols s1 = symbols s) as Hm1 by (by injection Hnew as <- <-).
  apply bind_Val in H as (items & s2 & Hrd & H).
  assert (s2 = s1) as -> by (by rewrite <- (read_list_state clauses s1), Hrd).
  apply bind_Val in H as (scan & s3 & Hscan & H).
  assert (symbols s3 = symbols s1) as Hm3.
  { pose proof (DPLL_scan_search items u s1) as [Hs _]. by rewrite Hscan in Hs. }
  rewrite <- Hm1, <- Hm3. clear Hm1 Hm3 Hnew Hrd Hscan.
  destruct scan as [[]|b].
  2: { by injection H as -> <-. }
  apply bind_Val in H as (syms & s4 & Hg & H). injection Hg as <- <-.
  destruct (0 <? length (symbols s3)).
  2: { by injection H as <-. }
  apply bind_Val in H as ([cnt P] & s5 & Hpop & H).
  apply on_symbols_Val in Hpop as (h5 & Hpop & ->).
  apply heappop_Permutation in Hpop.
  apply bind_Val in H as ([] & s6 & Hset & H). injection Hset as <-.
  apply bind_Val in H as (sat1 & s7 & Hrec1 & H).
  destruct sat1; [done|]. cbn [negb] in H.
  apply IH in Hrec1. cbn in Hrec1.
  apply bind_Val in H as ([] & s8 & Hset & H). injection Hset as <-.
  apply bind_Val in H as (sat2 & s9 & Hrec2 & H).
  destruct sat2; [done|]. cbn [negb] in H.
  apply IH in Hrec2. cbn in Hrec2.
  apply bind_Val in H as ([] & s10 & Hset & H). injection Hset as <-.
  apply bind_Val in H as ([] & s11 & Hpush & H).
  injection H as <-.
  apply on_symbols_Val in Hpush as (h11 & Hpush & ->).
  apply heappush_Permutation in Hpush. cbn in *.
  by rewrite Hpush, Hrec2, Hrec1, Hpop.
Qed.

(** A frame of [DPLL] whose queue holds entries of one importance returns:
    nothing in it raises. *)
Lemma DPLL_rec_returns c fuel cl ps s :
  clauses_at s cl ps → uniform c (symbols s) → length (symbols s) < fuel →
  ∃ b s', DPLL_rec fuel cl s = (Val b, s').
Proof.
  revert cl ps s.
  induction fuel as [|fuel IH]; intros cl ps s [Hcl Hps] Hu Hfuel; [lia|].
  cbn [DPLL_rec].
  unfold bind at 1, new_list.
  set (s1 := set_objs (λ o, o ++ [ListObj []]) s).
  assert (∀ p, p ∈ ps → p.1 < length (objs s) ∧
                        objs s !! p.1 = Some (ClauseObj p.2)) as Hlt.
  { intros p Hp. pose proof (proj1 (Forall_forall _ _) Hps p Hp) as Hp'.
    cbv beta in Hp'. split; [by eapply lookup_lt_Some|done]. }
  unfold bind at 1, read_list. simpl objs.
  rewrite lookup_app_l, Hcl by (by eapply lookup_lt_Some).
  destruct (DPLL_scan_run ps [] (length (objs s)) s1) as (s3 & Hrun & Hsy & Hm & Ho).
  { eapply Forall_impl; [exact Hps|]. intros p Hp. cbv beta in Hp. simpl.
    rewrite lookup_app_l; [done|by eapply lookup_lt_Some]. }
  { simpl. by rewrite lookup_app_r, Nat.sub_diag. }
  rewrite (bind_run _ _ _ _ _ Hrun).
  change (symbols s1) with (symbols s) in Hsy.
  change (model s1) with (model s) in *.
  destruct (scan_pure (model s) ps []) as [r pending] eqn:Hsp. cbn [fst snd] in *.
  destruct r as [[]|b0]; [|apply ret_returns].
  unfold bind at 1, gets.
  destruct (0 <? length (symbols s3)) eqn:Hlen; [|apply ret_returns].
  apply Nat.ltb_lt in Hlen. rewrite Hsy in Hlen.
  destruct (heappop_uniform c (symbols s)) as ([cnt P] & h5 & Hpop); [|done|].
  { intros Hnil. rewrite Hnil in Hlen. simpl in Hlen. lia. }
  assert (on_symbols heappop s3 = (Val (cnt, P), set_symbols h5 s3)) as Hpop'.
  { unfold on_symbols. by rewrite Hsy, Hpop. }
  rewrite (bind_run _ _ _ _ _ Hpop'). cbv beta iota.
  pose proof (heappop_length _ _ _ Hpop) as Hlen5.
  apply heappop_Permutation in Hpop.
  assert (uniform c ((cnt, P) :: h5)) as [HcP Hu5]%Forall_cons
    by (by apply (uniform_Permutation c (symbols s))).
  unfold bind at 1, model_set, modify.
  assert (∀ p, p ∈ pending → p ∈ ps) as Hsub.
  { apply scan_pure_grows in Hsp as [(more & -> & Hmore) _]. exact Hmore. }
  assert (∀ s0, grows s3 s0 → clauses_at s0 (length (objs s)) pending) as Hat.
  { intros s0 Hg. apply (clauses_at_grows s3); [done|]. split.
    - rewrite Ho. apply list_lookup_insert_eq. simpl. rewrite length_app. simpl. lia.
    - apply Forall_forall. intros p Hp. destruct (Hlt p (Hsub p Hp)) as [Hp1 Hp2].
      rewrite Ho, list_lookup_insert_ne by lia. simpl.
      by rewrite lookup_app_l. }
  set (s6 := set_model _ (set_symbols h5 s3)).
  destruct (IH (length (objs s)) pending s6) as (b1 & s7 & Hrec1).
  { apply Hat. by unfold grows. }
  { done. }
  { simpl. lia. }
  rewrite (bind_run _ _ _ _ _ Hrec1).
  destruct b1; [apply ret_returns|]. cbn [negb].
  pose proof (DPLL_rec_false_Permutation _ _ _ _ Hrec1) as Hp7.
  pose proof (DPLL_rec_grows fuel (length (objs s)) s6) as Hg7.
  unfold always in Hg7. rewrite Hrec1 in Hg7. simpl in Hg7.
  unfold bind at 1, model_set, modify.
  set (s8 := set_model _ s7).
  destruct (IH (length (objs s)) pending s8) as (b2 & s9 & Hrec2).
  { apply Hat. unfold grows in *. exact Hg7. }
  { simpl. apply (uniform_Permutation c h5); [by symmetry|done]. }
  { simpl. rewrite Hp7. simpl. lia. }
  rewrite (bind_run _ _ _ _ _ Hrec2).
  destruct b2; [apply ret_returns|]. cbn [negb].
  pose proof (DPLL_rec_false_Permutation _ _ _ _ Hrec2) as Hp9.
  unfold bind at 1, model_set, modify.
  destruct (heappush_uniform c (cnt, P) (symbols s9)) as (h' & Hpush & _); [|done|].
  { apply (uniform_Permutation c h5); [|done]. symmetry. etrans; [exact Hp9|]. done. }
  unfold bind at 1, on_symbols. simpl symbols. rewrite Hpush. apply ret_returns.
Qed.

Lemma push_loop_returns r c kvs s :
  (∀ kv, kv ∈ kvs → is_Some (pure_symbols r !! name kv.1) ∧
                     class_of r (name kv.1) = c) →
  uniform c (symbols s) →
  ∃ s', for_each kvs (push_symbol r) tt s = (Val tt, s') ∧ uniform c (symbols s').
Proof.
  revert s. induction kvs as [|kv kvs IH]; intros s Hkv Hu; simpl.
  { by exists s. }
  destruct (Hkv kv) as [Hsome Hc]; [by apply elem_of_cons; left|].
  unfold bind at 1, push_symbol, bind at 1. rewrite rank_entry_run by done.
  destruct (heappush_uniform c (class_of r (name kv.1), (- kv.2)%Z, kv.1)
              (symbols s) Hu Hc) as (h' & Hpush & Hu' & _).
  unfold on_symbols. rewrite Hpush.
  apply (IH (set_symbols h' s)); [|done].
  intros kv' Hkv'. apply Hkv, elem_of_cons. by right.
Qed.

(** The importance of a symbol of the knowledge base, by its signs. *)
Lemma class_of_cases Ls r x b :
  ranked Ls r → mkLiteral x b ∈ Ls →
  (class_of r x = PURE ∧ ∃ b', mkLiteral x b' ∈ Ls ∧ mkLiteral x (negb b') ∉ Ls) ∨
  (class_of r x = REST ∧ mkLiteral x true ∈ Ls ∧ mkLiteral x false ∈ Ls).
Proof.
  intros Hr Hb. destruct (decide (mkLiteral x (negb b) ∈ Ls)) as [Hnb|Hnb].
  - right. destruct b; simpl in Hnb; (split; [by eapply class_of_mixed|done]).
  - left. split; [by eapply class_of_pure|]. eauto.
Qed.

(** The second loop of [DPLLSatisfiable] raises [TypeError] when the
    knowledge base has symbols of two importances, and runs to its end
    when it has not. *)
Lemma build_queue_dichotomy s k kb :
  read_kb s k = Some kb →
  (two_importances kb ∧ (build_queue k s).1 = Raise TypeError) ∨
  (¬ two_importances kb ∧
   ∃ r s' c, build_queue k s = (Val r, s') ∧ uniform c (symbols s')).
Proof.
  intros Hkb. pose proof Hkb as Hkb0. unfold read_kb in Hkb.
  destruct (objs s !! k) as [[|items]|] eqn:Hk; try done.
  apply mapM_Some in Hkb.
  assert (Forall2 (λ c lits, objs s !! c = Some (ClauseObj lits)) items kb) as HF.
  { eapply Forall2_impl; [exact Hkb|]. intros c lits. cbv beta.
    by destruct (objs s !! c) as [[]|]; intros [= ->]. }
  destruct (rank_symbols_ranked items kb [] _ s HF ranked_nil) as (r & Hrank & Hr).
  simpl in Hr.
  pose proof (rank_symbols_ranking _ _ _ _ _ _ HF Hrank) as Hfold. simpl in Hfold.
  destruct (ranking_fold (concat kb)) as (_ & Hnames & _).
  rewrite <- Hfold in Hnames.
  assert (∀ x b, mkLiteral x b ∈ concat kb →
            ∃ kv, kv ∈ symbols_ranking r ∧ name kv.1 = x) as Hin.
  { intros x b Hx.
    assert (x ∈ names (symbols_ranking r)) as Hn.
    { apply Hnames. by exists (mkLiteral x b). }
    apply list_elem_of_fmap in Hn as (kv & -> & Hkv). eauto. }
  assert (∀ kv, kv ∈ symbols_ranking r →
            is_Some (pure_symbols r !! name kv.1) ∧
            ∃ b, mkLiteral (name kv.1) b ∈ concat kb) as Hsome.
  { intros kv Hkv.
    assert (name kv.1 ∈ names (symbols_ranking r)) as Hn.
    { apply list_elem_of_fmap. eauto. }
    split; [by apply (ranked_names _ _ Hr)|].
    apply Hnames in Hn as ([n b] & Hl & Hname). simpl in Hname. subst n. eauto. }
  set (c0 := match symbols_ranking r with
             | [] => REST
             | kv :: _ => class_of r (name kv.1)
             end).
  destruct (decide (Forall (λ kv, class_of r (name kv.1) = c0) (symbols_ranking r)))
    as [Hall|Hnot].
  - right. split.
    + intros (x & b & y & Hx & Hnx & Hyt & Hyf). rewrite occurs_concat in *.
      destruct (Hin _ _ Hx) as (kvx & Hkvx & <-).
      destruct (Hin _ _ Hyt) as (kvy & Hkvy & <-).
      pose proof (class_of_pure _ _ _ _ Hr Hx Hnx) as Hcx.
      pose proof (class_of_mixed _ _ _ Hr Hyt Hyf) as Hcy.
      rewrite (proj1 (Forall_forall _ _) Hall _ Hkvx) in Hcx.
      rewrite (proj1 (Forall_forall _ _) Hall _ Hkvy) in Hcy. congruence.
    + destruct (push_loop_returns r c0 (symbols_ranking r) (set_symbols [] s))
        as (s' & Hpush & Hu).
      { intros kv Hkv. split; [by apply Hsome|].
        exact (proj1 (Forall_forall _ _) Hall _ Hkv). }
      { apply Forall_nil_2. }
      exists r, s', c0. split; [|done].
      unfold build_queue, bind at 1, read_list. rewrite Hk.
      unfold bind at 1, rank_symbols. rewrite Hrank.
      unfold bind at 1, modify. unfold bind at 1, push_symbols. by rewrite Hpush.
  - left. apply not_Forall_Exists in Hnot; [|apply _].
    apply Exists_exists in Hnot as (kv & Hkv & Hne). cbv beta in Hne.
    destruct (symbols_ranking r) as [|kv1 rest] eqn:Hd; [by apply elem_of_nil in Hkv|].
    assert (kv1 ∈ kv1 :: rest) as Hkv1 by (by apply elem_of_cons; left).
    destruct (Hsome _ Hkv) as [_ [b Hb]]. destruct (Hsome _ Hkv1) as [_ [b1 Hb1]].
    assert (∃ x b' y, mkLiteral x b' ∈ concat kb ∧ (mkLiteral x (negb b') ∉ concat kb) ∧
                      mkLiteral y true ∈ concat kb ∧ mkLiteral y false ∈ concat kb)
      as (x & b' & y & Hx & Hnx & Hyt & Hyf).
    { destruct (class_of_cases _ _ _ _ Hr Hb) as [[Hc (b' & Hx & Hnx)]|(Hc & Ht & Hf)],
        (class_of_cases _ _ _ _ Hr Hb1) as [[Hc1 (b1' & Hx1 & Hnx1)]|(Hc1 & Ht1 & Hf1)];
        subst c0.
      - congruence.
      - by exists (name kv.1), b', (name kv1.1).
      - by exists (name kv1.1), b1', (name kv.1).
      - congruence. }
    split.
    + exists x, b', y. by rewrite !occurs_concat.
    + apply (build_queue_mixed_raises s k kb x b' y Hkb0); by rewrite occurs_concat.
Qed.

(** A call of [DPLLSatisfiable] on a loaded knowledge base raises
    [TypeError] or returns, and which of the two is told by the signs of
    the symbols. *)
Lemma solve_dichotomy (kb : list Clause) :
  (two_importances kb ∧ solve kb = Raise TypeError) ∨
  (¬ two_importances kb ∧ ∃ b m, solve kb = Val (b, m)).
Proof.
  unfold solve. pose proof (read_kb_load kb) as Hkb.
  destruct (load kb) as [s k]. simpl in Hkb.
  destruct (build_queue_dichotomy _ _ _ Hkb)
    as [[Htwo Hq]|[Hone (r & s1 & c & Hq & Hu)]].
  - left. split; [done|]. unfold DPLLSatisfiable, bind at 1.
    destruct (build_queue k s) as [o s']. simpl in Hq. by subst o.
  - right. split; [done|].
    destruct (DPLLSatisfiable_entry _ _ _ _ _ Hkb Hq) as ((ps & _ & Hat) & _).
    destruct (DPLL_rec_returns c (Datatypes.S (length (symbols s1))) k ps
                (set_model (λ _, initial_model (symbols_ranking r)) s1))
      as (b & s' & Hrun); [done|done|simpl; lia|].
    exists b, (model s').
    unfold DPLLSatisfiable. rewrite (bind_run _ _ _ _ _ Hq).
    unfold bind at 1, modify. unfold DPLL, bind at 1, gets.
    simpl symbols. by rewrite Hrun.
Qed.

(** ** When [DPLLSatisfiable] returns *)




(** ** The order of the queue *)

Lemma parent_spec j : 0 < j → 2 * parent j + 1 = j ∨ 2 * parent j + 2 = j.
Proof.
  intros Hj. unfold parent. rewrite Nat.shiftr_div_pow2. change (2 ^ 1) with 2.
  pose proof (Nat.div_mod_eq (j - 1) 2) as Hd.
  pose proof (Nat.mod_upper_bound (j - 1) 2) as Hm. lia.
Qed.

Lemma parent_lt j : 0 < j → parent j < j.
Proof. intros Hj. destruct (parent_spec j Hj); lia. Qed.

Lemma parent_left pos : parent (2 * pos + 1) = pos.
Proof. destruct (parent_spec (2 * pos + 1)); lia. Qed.

Lemma parent_right pos : parent (2 * pos + 1 + 1) = pos.
Proof. destruct (parent_spec (2 * pos + 1 + 1)); lia. Qed.

(** [<] on two entries of the same importance: by the number, then by
    the name. *)
Lemma entry_lt_uniform e1 e2 :
  importance e1 = importance e2 →
  entry_lt e1 e2 = inr (if (e1.1.2 =? e2.1.2)%Z
                        then String.ltb (name e1.2) (name e2.2)
                        else (e1.1.2 <? e2.1.2)%Z).
Proof.
  destruct e1 as [[c1 n1] l1], e2 as [[c2 n2] l2]. unfold importance. simpl.
  intros ->. unfold entry_lt, key_eq, key_lt, importance_eq. simpl.
  rewrite bool_decide_eq_true_2 by done. simpl.
  destruct (n1 =? n2)%Z; simpl; [|done].
  unfold Literal_eq, Literal_lt. destruct (String.eqb_spec (name l1) (name l2)) as [->|];
    simpl; [|done].
  unfold String.ltb. by rewrite string_compare_refl.
Qed.

Lemma string_ltb_asym x y : String.ltb x y = true → String.ltb y x = false.
Proof.
  unfold String.ltb. rewrite (String.compare_antisym x y).
  by destruct (String.compare y x).
Qed.

Lemma string_leb_trans x y z :
  String.ltb y x = false → String.ltb z y = false → String.ltb z x = false.
Proof.
  unfold String.ltb. intros Hyx Hzy.
  destruct (String.compare z x) eqn:Hzx; [done| |done].
  destruct (String.compare y x) eqn:Hc; [|done|].
  - apply String.compare_eq_iff in Hc as ->. by rewrite Hzx in Hzy.
  - rewrite String.compare_antisym in Hc. apply CompOpp_iff in Hc. simpl in Hc.
    by rewrite (string_compare_lt_trans _ _ _ Hzx Hc) in Hzy.
Qed.

Lemma entry_le_refl e : entry_le e e.
Proof.
  unfold entry_le. rewrite entry_lt_uniform by done.
  rewrite Z.eqb_refl. unfold String.ltb. by rewrite string_compare_refl.
Qed.

Lemma entry_lt_le e1 e2 :
  importance e1 = importance e2 → entry_lt e1 e2 = inr true → entry_le e1 e2.
Proof.
  intros Hi. unfold entry_le. rewrite !entry_lt_uniform by done.
  rewrite (Z.eqb_sym e2.1.2). intros [= H]. f_equal.
  destruct (Z.eqb_spec e1.1.2 e2.1.2); [by apply string_ltb_asym|]. lia.
Qed.

Lemma entry_le_trans e1 e2 e3 :
  importance e1 = importance e2 → importance e2 = importance e3 →
  entry_le e1 e2 → entry_le e2 e3 → entry_le e1 e3.
Proof.
  intros H12 H23. unfold entry_le.
  rewrite !entry_lt_uniform by congruence.
  intros [= Ha] [= Hb]. f_equal.
  destruct (Z.eqb_spec e2.1.2 e1.1.2) as [E21|N21],
           (Z.eqb_spec e3.1.2 e2.1.2) as [E32|N32],
           (Z.eqb_spec e3.1.2 e1.1.2) as [E31|N31]; try lia.
  by eapply string_leb_trans.
Qed.

(** Filling the position [pos] with an entry that fits there gives an
    ordered heap. *)
Lemma heap_ordered_fill newitem pos h :
  (pos = 0 ∨ ∃ p, h !! parent pos = Some p ∧ entry_le p newitem) →
  ordered_but pos h → fits_above newitem pos h → pos < length h →
  heap_ordered (<[pos := newitem]> h).
Proof.
  intros Hup Hbut Hfit Hlt j x p Hj Hx Hp.
  destruct (decide (j = pos)) as [->|Hne].
  - rewrite list_lookup_insert_eq in Hx by done. injection Hx as <-.
    rewrite list_lookup_insert_ne in Hp by (pose proof (parent_lt pos Hj); lia).
    destruct Hup as [->|(p' & Hp' & Hle)]; [lia|]. congruence.
  - rewrite list_lookup_insert_ne in Hx by done.
    destruct (decide (parent j = pos)) as [Hpj|Hpj].
    + rewrite Hpj, list_lookup_insert_eq in Hp by done. injection Hp as <-.
      by eapply Hfit.
    + rewrite list_lookup_insert_ne in Hp by done. by eapply Hbut.
Qed.

Lemma uniform_lookup c h i x : uniform c h → h !! i = Some x → importance x = c.
Proof. intros Hu Hx. exact (Forall_lookup_1 _ _ _ _ Hu Hx). Qed.

(** The loop of [_siftdown] carries the new item up to a position where
    it fits. *)
Lemma siftdown_loop_ordered c fuel newitem pos h pos' h' :
  uniform c h → importance newitem = c → pos < length h →
  ordered_but pos h → fits_above newitem pos h → skips pos h →
  siftdown_loop fuel newitem 0 pos h = (Val pos', h') →
  pos' < length h' ∧ heap_ordered (<[pos' := newitem]> h').
Proof.
  revert pos h.
  induction fuel as [|fuel IH]; intros pos h Hu Hn Hlt Hbut Hfit Hskip Hrun;
    cbn [siftdown_loop] in Hrun;
    (destruct (0 <? pos) eqn:Hpos;
     [|apply Nat.ltb_ge in Hpos; injection Hrun as <- <-;
       split; [done|]; apply heap_ordered_fill; try done; left; lia]).
  { done. }
  apply Nat.ltb_lt in Hpos.
  change (Nat.shiftr (pos - 1) 1) with (parent pos) in Hrun.
  pose proof (parent_lt pos Hpos) as Hq.
  apply bind_Val in Hrun as (par & h1 & Hget & Hrun).
  apply heap_get_Val in Hget as [Hpar ->].
  pose proof (uniform_lookup _ _ _ _ Hu Hpar) as Hpc.
  apply bind_Val in Hrun as (smaller & h1 & Hcmp & Hrun).
  apply compare_lt_Val in Hcmp as [Hcmp ->].
  destruct smaller.
  2: { injection Hrun as <- <-. split; [done|].
       apply heap_ordered_fill; try done. right. by exists par. }
  apply bind_Val in Hrun as ([] & h1 & Hset & Hrun).
  apply heap_set_Val in Hset as [_ ->].
  assert (entry_le newitem par) as Hnp by (apply entry_lt_le; [congruence|done]).
  apply IH in Hrun; try done.
  - by apply Forall_insert.
  - rewrite length_insert. lia.
  - (* the edges that do not touch the parent's position *)
    intros j x p Hj Hjq Hpjq Hx Hp.
    destruct (decide (j = pos)) as [->|Hjp]; [done|].
    rewrite list_lookup_insert_ne in Hx by done.
    destruct (decide (parent j = pos)) as [Hpj|Hpj].
    + rewrite Hpj, list_lookup_insert_eq in Hp by done. injection Hp as <-.
      by eapply (Hskip j).
    + rewrite list_lookup_insert_ne in Hp by done. by eapply Hbut.
  - (* the new item fits above what is below the parent's position *)
    intros j x Hj Hpj Hx.
    destruct (decide (j = pos)) as [->|Hjp].
    + rewrite list_lookup_insert_eq in Hx by done. by injection Hx as <-.
    + rewrite list_lookup_insert_ne in Hx by done.
      apply (entry_le_trans _ par); try done.
      * congruence.
      * pose proof (uniform_lookup _ _ _ _ Hu Hx). congruence.
      * apply (Hbut j); try done; [lia|]. by rewrite Hpj.
  - (* so does the entry above the parent *)
    intros j x g Hq0 Hj Hpj Hx Hg.
    pose proof (parent_lt _ Hq0) as Hqq.
    rewrite list_lookup_insert_ne in Hg by lia.
    assert (entry_le g par) as Hgp.
    { apply (Hbut (parent pos)); try done; lia. }
    destruct (decide (j = pos)) as [->|Hjp].
    + rewrite list_lookup_insert_eq in Hx by done. by injection Hx as <-.
    + rewrite list_lookup_insert_ne in Hx by done.
      apply (entry_le_trans _ par); try done.
      * pose proof (uniform_lookup _ _ _ _ Hu Hg). congruence.
      * pose proof (uniform_lookup _ _ _ _ Hu Hx). congruence.
      * apply (Hbut j); try done; [lia|]. by rewrite Hpj.
Qed.

(** [_siftdown] on a position that has nothing below it. *)
Lemma siftdown_ordered c pos h h' :
  uniform c h → length h ≤ 2 * pos + 1 → ordered_but pos h →
  siftdown 0 pos h = (Val tt, h') → heap_ordered h'.
Proof.
  intros Hu Hleaf Hbut Hrun.
  apply bind_Val in Hrun as (newitem & h1 & Hget & Hrun).
  apply heap_get_Val in Hget as [Hnew ->].
  pose proof (lookup_lt_Some _ _ _ Hnew) as Hlt.
  apply bind_Val in Hrun as (pos' & h2 & Hloop & Hrun).
  assert (∀ j x, 0 < j → parent j = pos → h !! j = Some x → False) as Hnone.
  { intros j x Hj Hpj Hx. apply lookup_lt_Some in Hx.
    destruct (parent_spec j Hj); lia. }
  apply (siftdown_loop_ordered c) in Hloop as [Hlt' Hord]; try done.
  - by apply heap_set_Val in Hrun as [_ ->].
  - by eapply uniform_lookup.
  - intros j x Hj Hpj Hx. by destruct (Hnone j x).
  - intros j x g _ Hj Hpj Hx _. by destruct (Hnone j x).
Qed.

(** [heappush] keeps the heap ordered. *)
Lemma heappush_ordered c item h h' :
  uniform c h → importance item = c → heap_ordered h →
  heappush item h = (Val tt, h') → heap_ordered h'.
Proof.
  intros Hu Hi Hord Hrun.
  apply bind_Val in Hrun as ([] & h1 & [= <-] & Hrun).
  apply bind_Val in Hrun as (h2 & h3 & [= <- <-] & Hrun).
  rewrite length_app in Hrun. simpl in Hrun.
  replace (length h + 1 - 1) with (length h) in Hrun by lia.
  apply (siftdown_ordered c) in Hrun; try done.
  - apply Forall_app. split; [done|]. by apply Forall_singleton.
  - rewrite length_app. simpl. lia.
  - intros j x p Hj Hjl Hpl Hx Hp.
    pose proof (lookup_lt_Some _ _ _ Hx) as Hlt. rewrite length_app in Hlt.
    simpl in Hlt. pose proof (parent_lt j Hj) as Hpj.
    rewrite lookup_app_l in Hx by lia. rewrite lookup_app_l in Hp by lia.
    by eapply Hord.
Qed.

(** The loop of [_siftup] moves the smaller entry from below into the
    open position, down to a position with nothing below it. *)
Lemma siftup_loop_ordered c fuel endpos pos childpos h pos' h' :
  endpos = length h → childpos = 2 * pos + 1 → uniform c h → pos < endpos →
  ordered_but pos h → skips pos h →
  siftup_loop fuel endpos pos childpos h = (Val pos', h') →
  ordered_but pos' h' ∧ endpos ≤ 2 * pos' + 1 ∧ pos' < length h' ∧
  uniform c h' ∧ length h' = length h.
Proof.
  revert pos childpos h.
  induction fuel as [|fuel IH];
    intros pos childpos h Hend Hcp Hu Hpos Hbut Hskip Hrun;
    cbn [siftup_loop] in Hrun;
    (destruct (childpos <? endpos) eqn:Hlt;
     [|apply Nat.ltb_ge in Hlt; injection Hrun as <- <-;
       repeat split; try done; lia]).
  { done. }
  apply Nat.ltb_lt in Hlt.
  apply bind_Val in Hrun as (cp & h1 & Hpick & Hrun).
  assert (∀ j, 0 < j → parent j = pos → j = childpos ∨ j = childpos + 1) as Hbelow.
  { intros j Hj Hpj. destruct (parent_spec j Hj); lia. }
  assert (h1 = h ∧ ∃ child, h !! cp = Some child ∧ parent cp = pos ∧ pos < cp ∧
            ∀ j x, 0 < j → parent j = pos → h !! j = Some x → entry_le child x)
    as (-> & child & Hchild & Hpc & Hcpp & Hmin).
  { destruct (childpos + 1 <? endpos) eqn:Hr.
    - apply Nat.ltb_lt in Hr.
      apply bind_Val in Hpick as (l & h2 & Hl & Hpick).
      apply heap_get_Val in Hl as [Hl ->].
      apply bind_Val in Hpick as (r & h3 & Hr' & Hpick).
      apply heap_get_Val in Hr' as [Hr' ->].
      apply bind_Val in Hpick as (b & h4 & Hb & Hpick).
      apply compare_lt_Val in Hb as [Hb ->].
      pose proof (uniform_lookup _ _ _ _ Hu Hl) as Hlc.
      pose proof (uniform_lookup _ _ _ _ Hu Hr') as Hrc.
      destruct b; injection Hpick as <- <-; (split; [done|]).
      + exists l. split; [done|]. split; [subst childpos; apply parent_left|].
        split; [lia|]. intros j x Hj Hpj Hx.
        destruct (Hbelow j Hj Hpj) as [->| ->].
        * rewrite Hl in Hx. injection Hx as <-. apply entry_le_refl.
        * rewrite Hr' in Hx. injection Hx as <-. apply entry_lt_le; [congruence|done].
      + exists r. split; [done|]. split; [subst childpos; apply parent_right|].
        split; [lia|]. intros j x Hj Hpj Hx.
        destruct (Hbelow j Hj Hpj) as [->| ->].
        * rewrite Hl in Hx. by injection Hx as <-.
        * rewrite Hr' in Hx. injection Hx as <-. apply entry_le_refl.
    - apply Nat.ltb_ge in Hr. injection Hpick as <- <-. split; [done|].
      destruct (lookup_lt_is_Some_2 h childpos) as [l Hl]; [lia|].
      exists l. split; [done|]. split; [subst childpos; apply parent_left|].
      split; [lia|]. intros j x Hj Hpj Hx.
      destruct (Hbelow j Hj Hpj) as [->| ->].
      + rewrite Hl in Hx. injection Hx as <-. apply entry_le_refl.
      + apply lookup_lt_Some in Hx. lia. }
  apply bind_Val in Hrun as (child' & h2 & Hget & Hrun).
  apply heap_get_Val in Hget as [Hchild' ->].
  rewrite Hchild in Hchild'. injection Hchild' as <-.
  apply bind_Val in Hrun as ([] & h3 & Hset & Hrun).
  apply heap_set_Val in Hset as [_ ->].
  pose proof (lookup_lt_Some _ _ _ Hchild) as Hcplt.
  apply IH in Hrun as (Hbut' & Hleaf & Hlt' & Hu' & Hlen).
  - rewrite length_insert in Hlen. done.
  - by rewrite length_insert.
  - done.
  - apply Forall_insert; [done|]. by eapply uniform_lookup.
  - lia.
  - intros j x p Hj Hjc Hpjc Hx Hp.
    destruct (decide (j = pos)) as [->|Hjp].
    + rewrite list_lookup_insert_eq in Hx by lia. injection Hx as <-.
      rewrite list_lookup_insert_ne in Hp by (pose proof (parent_lt pos Hj); lia).
      apply (Hskip cp child p); try done. lia.
    + rewrite list_lookup_insert_ne in Hx by done.
      destruct (decide (parent j = pos)) as [Hpj|Hpj].
      * rewrite Hpj, list_lookup_insert_eq in Hp by lia. injection Hp as <-.
        by eapply Hmin.
      * rewrite list_lookup_insert_ne in Hp by done. by eapply Hbut.
  - intros j x g Hc0 Hj Hpj Hx Hg.
    rewrite Hpc, list_lookup_insert_eq in Hg by lia. injection Hg as <-.
    assert (cp < j) by (pose proof (parent_lt j Hj); lia).
    rewrite list_lookup_insert_ne in Hx by lia.
    apply (Hbut j); try done; [lia|lia|by rewrite Hpj].
Qed.

Lemma siftup_ordered c h h' :
  uniform c h → ordered_but 0 h → siftup 0 h = (Val tt, h') → heap_ordered h'.
Proof.
  intros Hu Hbut Hrun.
  apply bind_Val in Hrun as (h0 & h1 & [= <- <-] & Hrun).
  apply bind_Val in Hrun as (newitem & h1 & Hget & Hrun).
  apply heap_get_Val in Hget as [Hnew ->].
  apply bind_Val in Hrun as (pos' & h2 & Hloop & Hrun).
  apply (siftup_loop_ordered c) in Hloop as (Hbut' & Hleaf & Hlt' & Hu' & Hlen);
    try done.
  2: { by eapply lookup_lt_Some. }
  2: { intros j x g Hpos. lia. }
  apply bind_Val in Hrun as ([] & h3 & Hset & Hrun).
  apply heap_set_Val in Hset as [_ ->].
  apply (siftdown_ordered c) in Hrun; try done.
  - apply Forall_insert; [done|]. exact (uniform_lookup _ _ _ _ Hu Hnew).
  - rewrite length_insert. lia.
  - intros j x p Hj Hjp Hpj Hx Hp.
    rewrite list_lookup_insert_ne in Hx by done.
    rewrite list_lookup_insert_ne in Hp by done. by eapply Hbut'.
Qed.

(** [heappop] returns the entry at the root and keeps the heap ordered. *)
Lemma heappop_ordered c h e h' :
  uniform c h → heap_ordered h → heappop h = (Val e, h') →
  h !! 0 = Some e ∧ heap_ordered h'.
Proof.
  intros Hu Hord Hrun. apply bind_Val in Hrun as (lastelt & h1 & Hpop & Hrun).
  unfold list_pop in Hpop. destruct (last h) eqn:Hlast; [|done].
  injection Hpop as -> <-. apply last_Some in Hlast as [h0 ->].
  rewrite removelast_last in Hrun.
  apply bind_Val in Hrun as (h2 & h3 & [= <- <-] & Hrun).
  apply Forall_app in Hu as [Hu0 Hl]. rewrite Forall_singleton in Hl.
  destruct h0 as [|e0 h0].
  { injection Hrun as <- <-. split; [done|]. by intros j x p _ ?. }
  apply bind_Val in Hrun as (returnitem & h3 & Hget & Hrun).
  apply heap_get_Val in Hget as [[= ->] ->].
  apply bind_Val in Hrun as ([] & h4 & Hset & Hrun).
  apply heap_set_Val in Hset as [_ ->].
  apply bind_Val in Hrun as ([] & h5 & Hup & Hrun). injection Hrun as <- <-.
  split; [done|].
  apply (siftup_ordered c) in Hup; try done.
  - by apply Forall_insert.
  - intros j x p Hj _ Hpj Hx Hp.
    rewrite list_lookup_insert_ne in Hx by lia.
    rewrite list_lookup_insert_ne in Hp by lia.
    apply (Hord j); try done.
    + rewrite lookup_app_l; [done|]. by eapply lookup_lt_Some.
    + rewrite lookup_app_l; [done|]. by eapply lookup_lt_Some.
Qed.

(** The root of an ordered heap is a least entry. *)
Lemma heap_ordered_least c h e :
  uniform c h → heap_ordered h → h !! 0 = Some e → ∀ x, x ∈ h → entry_le e x.
Proof.
  intros Hu Hord H0 x Hx. apply list_elem_of_lookup in Hx as [j Hj]. revert x Hj.
  induction (lt_wf j) as [j _ IH]. intros x Hj.
  destruct (decide (j = 0)) as [->|Hne].
  { rewrite H0 in Hj. injection Hj as <-. apply entry_le_refl. }
  assert (0 < j) as Hpos by lia. pose proof (parent_lt j Hpos) as Hlt.
  destruct (lookup_lt_is_Some_2 h (parent j)) as [p Hp].
  { apply lookup_lt_Some in Hj. lia. }
  apply (entry_le_trans _ p).
  - rewrite (uniform_lookup _ _ _ _ Hu H0). symmetry. by eapply uniform_lookup.
  - rewrite (uniform_lookup _ _ _ _ Hu Hp). symmetry. by eapply uniform_lookup.
  - by apply (IH (parent j)).
  - by eapply Hord.
Qed.

(** ** The queue stays a heap *)

Lemma queue_ready_nil : queue_ready [].
Proof. split; [exists REST; apply Forall_nil_2|]. by intros j x p _ ?. Qed.

Lemma heappush_ready item h h' :
  queue_ready h → heappush item h = (Val tt, h') → queue_ready h'.
Proof.
  intros [[c Hu] Hord] Hrun.
  assert (∃ c', uniform c' h ∧ importance item = c') as (c' & Hu' & Hi).
  { destruct h as [|e0 h0] eqn:Hh.
    - exists (importance item). split; [apply Forall_nil_2|done].
    - rewrite <- Hh in *. exists c. split; [done|].
      destruct (decide (importance item = c)) as [|Hne]; [done|].
      assert (h ≠ []) as Hne' by (by subst h).
      pose proof (heappush_differ c item h Hu Hne' Hne) as Hd.
      by rewrite Hrun in Hd. }
  split.
  - exists c'. destruct (heappush_uniform c' item h Hu' Hi) as (h1 & Hrun1 & Hu1 & _).
    rewrite Hrun in Hrun1. by injection Hrun1 as ->.
  - by eapply heappush_ordered.
Qed.

Lemma heappop_ready h e h' :
  queue_ready h → heappop h = (Val e, h') →
  queue_ready h' ∧ ∀ x, x ∈ h → entry_le e x.
Proof.
  intros [[c Hu] Hord] Hrun.
  destruct (heappop_ordered c _ _ _ Hu Hord Hrun) as [H0 Hord'].
  split; [split; [|done]|].
  - exists c. apply heappop_Permutation in Hrun.
    pose proof (uniform_Permutation c _ _ Hrun Hu) as Hu'.
    by apply Forall_cons in Hu' as [_ ?].
  - by eapply heap_ordered_least.
Qed.

Lemma rank_entry_state r l cnt s : (rank_entry r l cnt s).2 = s.
Proof.
  unfold rank_entry, bind, dict_get. destruct (_ !! name l); simpl; [|done].
  destruct (size _ =? 1); [done|]. by destruct (negb _).
Qed.

Lemma push_loop_ready r kvs s s' :
  queue_ready (symbols s) →
  for_each kvs (push_symbol r) tt s = (Val tt, s') →
  queue_ready (symbols s').
Proof.
  revert s. induction kvs as [|kv kvs IH]; intros s Hready H; simpl in H.
  { by injection H as <-. }
  apply bind_Val in H as ([] & s1 & Hone & H).
  unfold push_symbol in Hone. apply bind_Val in Hone as (e & s0 & He & Hone).
  assert (s0 = s) as -> by (by rewrite <- (rank_entry_state r kv.1 kv.2 s), He).
  apply on_symbols_Val in Hone as (h1 & Hpush & ->).
  apply (IH (set_symbols h1 s)); [|done]. simpl. by eapply heappush_ready.
Qed.

Lemma build_queue_ready k s r s' :
  build_queue k s = (Val r, s') → queue_ready (symbols s').
Proof.
  intros Hrun. unfold build_queue in Hrun.
  apply bind_Val in Hrun as (items & s1 & _ & Hrun).
  apply bind_Val in Hrun as (r1 & s2 & _ & Hrun).
  apply bind_Val in Hrun as ([] & s3 & Hmod & Hrun). injection Hmod as <-.
  apply bind_Val in Hrun as ([] & s4 & Hpush & Hrun). injection Hrun as <- <-.
  apply (push_loop_ready r1 (symbols_ranking r1) (set_symbols [] s2)); [|done].
  apply queue_ready_nil.
Qed.

Lemma DPLL_rec_ready fuel clauses s b s' :
  queue_ready (symbols s) →
  DPLL_rec fuel clauses s = (Val b, s') → queue_ready (symbols s').
Proof.
  revert clauses s b s'.
  induction fuel as [|fuel IH]; intros clauses s b s' Hready H; [done|].
  cbn [DPLL_rec] in H.
  apply bind_Val in H as (u & s1 & Hnew & H).
  assert (symbols s1 = symbols s) as Hm1 by (by injection Hnew as <- <-).
  apply bind_Val in H as (items & s2 & Hrd & H).
  assert (s2 = s1) as -> by (by rewrite <- (read_list_state clauses s1), Hrd).
  apply bind_Val in H as (scan & s3 & Hscan & H).
  assert (symbols s3 = symbols s1) as Hm3.
  { pose proof (DPLL_scan_search items u s1) as [Hs _]. by rewrite Hscan in Hs. }
  rewrite <- Hm1, <- Hm3 in Hready. clear Hm1 Hm3 Hnew Hrd Hscan.
  destruct scan as [[]|b0].
  2: { by injection H as _ <-. }
  apply bind_Val in H as (syms & s4 & Hg & H). injection Hg as <- <-.
  destruct (0 <? length (symbols s3)).
  2: { by injection H as _ <-. }
  apply bind_Val in H as ([cnt P] & s5 & Hpop & H).
  apply on_symbols_Val in Hpop as (h5 & Hpop & ->).
  apply heappop_ready in Hpop as [Hready5 _]; [|done].
  apply bind_Val in H as ([] & s6 & Hset & H). injection Hset as <-.
  apply bind_Val in H as (sat1 & s7 & Hrec1 & H).
  apply IH in Hrec1; [|done].
  destruct sat1; cbn [negb] in H; [by injection H as _ <-|].
  apply bind_Val in H as ([] & s8 & Hset & H). injection Hset as <-.
  apply bind_Val in H as (sat2 & s9 & Hrec2 & H).
  apply IH in Hrec2; [|done].
  destruct sat2; cbn [negb] in H; [by injection H as _ <-|].
  apply bind_Val in H as ([] & s10 & Hset & H). injection Hset as <-.
  apply bind_Val in H as ([] & s11 & Hpush & H).
  injection H as _ <-.
  apply on_symbols_Val in Hpush as (h11 & Hpush & ->).
  by apply heappush_ready in Hpush.
Qed.

Lemma entry_le_number e1 e2 :
  importance e1 = importance e2 → entry_le e1 e2 →
  (e1.1.2 ≤ e2.1.2)%Z ∧
  (e1.1.2 = e2.1.2 → String.ltb (name e2.2) (name e1.2) = false).
Proof.
  intros Hi. unfold entry_le. rewrite entry_lt_uniform by done. intros [= H].
  destruct (Z.eqb_spec e2.1.2 e1.1.2) as [Heq|Hne].
  - split; [lia|done].
  - split; [lia|]. intros Heq. by destruct Hne.
Qed.

(** X15.  The symbol that [heappop] takes first from the queue that
    [DPLLSatisfiable] built has the most literals in the knowledge base,
    and the least name among the symbols with as many. *)
Theorem first_pop_most_frequent
    (kb : list Clause) (h h' : heap) (e : entry) (x : string) (b : bool) :
  queue_of kb = Val h → heappop h = (Val e, h') → occurs kb x b →
  occurrences x (concat kb) ≤ occurrences (name e.2) (concat kb) ∧
  (occurrences x (concat kb) = occurrences (name e.2) (concat kb) →
   String.ltb x (name e.2) = false).
Proof.
  unfold queue_of. pose proof (read_kb_load kb) as Hkb.
  destruct (load kb) as [s k]. simpl in Hkb.
  destruct (build_queue k s) as [[r| | |] s'] eqn:Hrun; try done.
  intros [= <-] Hpop Hx.
  pose proof (build_queue_ready _ _ _ _ Hrun) as Hready.
  destruct (build_queue_uniform _ _ _ _ _ Hkb Hrun) as (c & _ & Hu).
  destruct (build_queue_Val _ _ _ _ _ Hkb Hrun) as (Hr & Hrank & _ & _ & Hs).
  destruct (ranking_fold (concat kb)) as (_ & Hnames & Hcnt).
  rewrite <- Hrank in Hnames, Hcnt.
  assert (∀ e' : entry, e' ∈ symbols s' →
            e'.1.2 = (- Z.of_nat (occurrences (name e'.2) (concat kb)))%Z) as Hnum.
  { intros e' He'. rewrite Hs in He'.
    apply list_elem_of_fmap in He' as ([k0 cnt] & -> & Hkv). simpl.
    by rewrite (Hcnt _ _ Hkv). }
  assert (∃ e', e' ∈ symbols s' ∧ name e'.2 = x) as (e' & He' & <-).
  { assert (x ∈ queued (symbols s')) as Hq.
    { rewrite (queued_Permutation _ _ Hs), queued_entries. apply Hnames.
      apply occurs_name. eauto. }
    apply list_elem_of_fmap in Hq as (e' & -> & He'). eauto. }
  assert (e ∈ symbols s') as He.
  { apply heappop_Permutation in Hpop. rewrite Hpop. by apply elem_of_cons; left. }
  apply heappop_ready in Hpop as [_ Hleast]; [|done].
  destruct (entry_le_number e e') as [Hle Htie]; [|by apply Hleast|].
  { rewrite (proj1 (Forall_forall _ _) Hu _ He).
    by rewrite (proj1 (Forall_forall _ _) Hu _ He'). }
  rewrite (Hnum _ He), (Hnum _ He') in Hle, Htie.
  split; [lia|]. intros Heq. apply Htie. by rewrite Heq.
Qed.

Lemma first_pop_most_frequent_witness :
  (queue_of [[neg A; B; E]; [neg B; A]; [neg E; A]]
     = Val [((REST, (-3)%Z), neg A); ((REST, (-2)%Z), B); ((REST, (-2)%Z), E)] ∧
   heappop [((REST, (-3)%Z), neg A); ((REST, (-2)%Z), B); ((REST, (-2)%Z), E)]
     = (Val ((REST, (-3)%Z), neg A), [((REST, (-2)%Z), B); ((REST, (-2)%Z), E)]) ∧
   occurs [[neg A; B; E]; [neg B; A]; [neg E; A]] "E" true) ∧
  occurrences "E" (concat [[neg A; B; E]; [neg B; A]; [neg E; A]])
    ≤ occurrences (name (neg A)) (concat [[neg A; B; E]; [neg B; A]; [neg E; A]]) ∧
  (occurrences "E" (concat [[neg A; B; E]; [neg B; A]; [neg E; A]])
     = occurrences (name (neg A)) (concat [[neg A; B; E]; [neg B; A]; [neg E; A]]) →
   String.ltb "E" (name (neg A)) = false).
Proof.
  assert (queue_of [[neg A; B; E]; [neg B; A]; [neg E; A]]
          = Val [((REST, (-3)%Z), neg A); ((REST, (-2)%Z), B); ((REST, (-2)%Z), E)])
    as Hq.
  { vm_compute. reflexivity. }
  assert (heappop [((REST, (-3)%Z), neg A); ((REST, (-2)%Z), B); ((REST, (-2)%Z), E)]
          = (Val ((REST, (-3)%Z), neg A),
             [((REST, (-2)%Z), B); ((REST, (-2)%Z), E)])) as Hpop.
  { vm_compute. reflexivity. }
  assert (occurs [[neg A; B; E]; [neg B; A]; [neg E; A]] "E" true) as Hx.
  { exists [neg A; B; E]. split; apply list_elem_of_In; simpl; auto. }
  split; [exact (conj Hq (conj Hpop Hx))|].
  exact (first_pop_most_frequent _ _ _ _ "E" true Hq Hpop Hx).
Defined.

(** X16.  A call of [DPLL] that returns leaves the queue as [heapq] keeps
    it, if it was so on entry: entries of one importance, none smaller
    than the one above it.  This holds for the frames that return [True]
    with symbols popped and for those that push their symbol back. *)
Theorem DPLL_keeps_queue_ready (s s' : state) (clauses : loc) (b : bool) :
  queue_ready (symbols s) → DPLL clauses s = (Val b, s') →
  queue_ready (symbols s').
Proof.
  intros Hready Hrun. unfold DPLL in Hrun.
  apply bind_Val in Hrun as (syms & s1 & [= <- <-] & Hrun).
  by eapply DPLL_rec_ready.
Qed.

Lemma queue_ready_failing_state : queue_ready (symbols failing_state).
Proof.
  split; [exists REST; by repeat constructor|].
  intros j x p Hj Hx Hp. destruct j as [|[|j]]; [lia| |by vm_compute in Hx].
  injection Hx as <-. injection Hp as <-. reflexivity.
Qed.

Lemma DPLL_keeps_queue_ready_witness :
  (queue_ready (symbols failing_state) ∧
   DPLL 3 failing_state = (Val false, (DPLL 3 failing_state).2)) ∧
  queue_ready (symbols (DPLL 3 failing_state).2).
Proof.
  assert (DPLL 3 failing_state = (Val false, (DPLL 3 failing_state).2)) as Hrun.
  { vm_compute. reflexivity. }
  split; [exact (conj queue_ready_failing_state Hrun)|].
  exact (DPLL_keeps_queue_ready _ _ 3 false queue_ready_failing_state Hrun).
Defined.

(** X17.  The entry [DPLL] pops to branch on is a least entry of the
    queue (the largest count, then the least name), and the queue is left
    as [heapq] keeps it, whenever the queue was so before. *)
Theorem DPLL_pops_least_entry (s s' : state) (e : entry) :
  queue_ready (symbols s) → on_symbols heappop s = (Val e, s') →
  (∀ x, x ∈ symbols s → entry_le e x) ∧ e ∈ symbols s ∧
  queue_ready (symbols s').
Proof.
  intros Hready Hrun. apply on_symbols_Val in Hrun as (h' & Hpop & ->).
  pose proof (heappop_Permutation _ _ _ Hpop) as Hperm.
  apply heappop_ready in Hpop as [Hready' Hleast]; [|done].
  split; [done|]. split; [|done]. rewrite Hperm. by apply elem_of_cons; left.
Qed.

Lemma DPLL_pops_least_entry_witness :
  (queue_ready (symbols failing_state) ∧
   on_symbols heappop failing_state
     = (Val ((REST, (-2)%Z), A),
        set_symbols [((REST, (-1)%Z), mkLiteral "Z" true)] failing_state)) ∧
  (∀ x, x ∈ symbols failing_state → entry_le ((REST, (-2)%Z), A) x) ∧
  ((REST, (-2)%Z), A) ∈ symbols failing_state ∧
  queue_ready [((REST, (-1)%Z), mkLiteral "Z" true)].
Proof.
  assert (on_symbols heappop failing_state
          = (Val ((REST, (-2)%Z), A),
             set_symbols [((REST, (-1)%Z), mkLiteral "Z" true)] failing_state))
    as Hrun.
  { vm_compute. reflexivity. }
  split; [exact (conj queue_ready_failing_state Hrun)|].
  exact (DPLL_pops_least_entry _ _ _ queue_ready_failing_state Hrun).
Defined.

(** ** The queue and the model stay in step *)

Lemma queue_inv_commit s cnt P h val :
  queue_inv s → symbols s ≡ₚ (cnt, P) :: h → val ≠ Free →
  queue_inv (set_model (λ m, <[name P := val]> m) (set_symbols h s)).
Proof.
  intros [Hnd Hfree] Hperm Hval.
  destruct (queue_commit _ _ _ _ _ val Hnd Hfree Hperm Hval) as (_ & Hnd' & Hfree').
  by split.
Qed.

(** Committing a symbol that is not queued to another value. *)
Lemma queue_inv_recommit s P val :
  queue_inv s → name P ∉ queued (symbols s) → val ≠ Free →
  queue_inv (set_model (λ m, <[name P := val]> m) s).
Proof.
  intros [Hnd Hfree] HP Hval. split; [done|]. intros x. simpl.
  destruct (decide (x = name P)) as [->|Hx].
  - rewrite lookup_insert_eq. split; [done|]. by intros [= ->].
  - rewrite lookup_insert_ne by done. apply Hfree.
Qed.

(** Freeing a symbol and pushing it back. *)
Lemma queue_inv_free s cnt P h' :
  queue_inv s → name P ∉ queued (symbols s) → h' ≡ₚ (cnt, P) :: symbols s →
  queue_inv (set_symbols h' (set_model (λ m, <[name P := Free]> m) s)).
Proof.
  intros [Hnd Hfree] HP Hperm. apply queued_Permutation in Hperm. simpl in Hperm.
  split; simpl.
  - rewrite Hperm. by apply NoDup_cons_2.
  - intros x. rewrite Hperm, elem_of_cons.
    destruct (decide (x = name P)) as [->|Hx].
    + rewrite lookup_insert_eq. naive_solver.
    + rewrite lookup_insert_ne by done. rewrite <- Hfree. naive_solver.
Qed.

Lemma DPLL_rec_queue_inv fuel clauses s b s' :
  queue_inv s → DPLL_rec fuel clauses s = (Val b, s') → queue_inv s'.
Proof.
  revert clauses s b s'.
  induction fuel as [|fuel IH]; intros clauses s b s' Hinv H; [done|].
  cbn [DPLL_rec] in H.
  apply bind_Val in H as (u & s1 & Hnew & H).
  assert (queue_inv s1) as Hinv1 by (by injection Hnew as <- <-).
  apply bind_Val in H as (items & s2 & Hrd & H).
  assert (s2 = s1) as -> by (by rewrite <- (read_list_state clauses s1), Hrd).
  apply bind_Val in H as (scan & s3 & Hscan & H).
  assert (queue_inv s3) as Hinv3.
  { pose proof (DPLL_scan_search items u s1) as [Hs Hm]. rewrite Hscan in Hs, Hm.
    simpl in Hs, Hm. unfold queue_inv. by rewrite Hs, Hm. }
  clear Hinv Hinv1 Hnew Hrd Hscan.
  destruct scan as [[]|b0].
  2: { by injection H as _ <-. }
  apply bind_Val in H as (syms & s4 & Hg & H). injection Hg as <- <-.
  destruct (0 <? length (symbols s3)).
  2: { by injection H as _ <-. }
  apply bind_Val in H as ([cnt P] & s5 & Hpop & H).
  apply on_symbols_Val in Hpop as (h5 & Hpop & ->).
  apply heappop_Permutation in Hpop.
  assert (name P ∉ queued h5) as HP.
  { destruct Hinv3 as [Hnd _]. rewrite (queued_Permutation _ _ Hpop) in Hnd.
    simpl in Hnd. by apply NoDup_cons in Hnd as [? _]. }
  apply bind_Val in H as ([] & s6 & Hset & H). injection Hset as <-.
  apply bind_Val in H as (sat1 & s7 & Hrec1 & H).
  pose proof (IH _ _ _ _ (queue_inv_commit _ _ _ _ StTrue Hinv3 Hpop ltac:(done)) Hrec1)
    as Hinv7.
  destruct sat1; cbn [negb] in H; [by injection H as _ <-|].
  apply DPLL_rec_false_Permutation in Hrec1. cbn in Hrec1.
  apply bind_Val in H as ([] & s8 & Hset & H). injection Hset as <-.
  apply bind_Val in H as (sat2 & s9 & Hrec2 & H).
  assert (name P ∉ queued (symbols s7)) as HP7.
  { by rewrite (queued_Permutation _ _ Hrec1). }
  pose proof (IH _ _ _ _ (queue_inv_recommit _ P StFalse Hinv7 HP7 ltac:(done)) Hrec2)
    as Hinv9.
  destruct sat2; cbn [negb] in H; [by injection H as _ <-|].
  apply DPLL_rec_false_Permutation in Hrec2. cbn in Hrec2.
  apply bind_Val in H as ([] & s10 & Hset & H). injection Hset as <-.
  apply bind_Val in H as ([] & s11 & Hpush & H).
  injection H as _ <-.
  apply on_symbols_Val in Hpush as (h11 & Hpush & ->).
  apply heappush_Permutation in Hpush. cbn in Hpush.
  apply (queue_inv_free s9 cnt P h11); [done| |done].
  by rewrite (queued_Permutation _ _ Hrec2).
Qed.

(** X18.  When a call of [DPLL] returns, with [True] or with [False], the
    queue holds each symbol once and holds exactly the symbols that are
    ['Free'] in the model, if that was so on entry: a symbol is popped
    when it is committed and pushed back when it is freed. *)
Theorem DPLL_keeps_queue_in_step (s s' : state) (clauses : loc) (b : bool) :
  queue_inv s → DPLL clauses s = (Val b, s') → queue_inv s'.
Proof.
  intros Hinv Hrun. unfold DPLL in Hrun.
  apply bind_Val in Hrun as (syms & s1 & [= <- <-] & Hrun).
  by eapply DPLL_rec_queue_inv.
Qed.

Lemma DPLL_keeps_queue_in_step_witness :
  (queue_inv branching_state ∧
   DPLL 1 branching_state = (Val true, (DPLL 1 branching_state).2)) ∧
  queue_inv (DPLL 1 branching_state).2.
Proof.
  assert (queue_inv branching_state) as Hinv.
  { split.
    - change (NoDup ["A"%string; "B"%string]).
      apply NoDup_cons_2; [|apply NoDup_singleton].
      intros H%list_elem_of_singleton. discriminate H.
    - intros x. unfold branching_state. cbn [symbols model].
      by rewrite initial_model_lookup. }
  assert (DPLL 1 branching_state = (Val true, (DPLL 1 branching_state).2)) as Hrun.
  { vm_compute. reflexivity. }
  split; [exact (conj Hinv Hrun)|].
  exact (DPLL_keeps_queue_in_step _ _ 1 true Hinv Hrun).
Defined.

(** ** Negation *)

Lemma string_cons_neq a x : String a x ≠ x.
Proof. intros H. apply (f_equal String.length) in H. simpl in H. lia. Qed.

(** X19.  [__neg__] is its own inverse.  A literal and its negation are
    [==] and neither is [<] the other, and [repr] gives the same for
    both; [str] tells them apart. *)
Theorem neg_same_symbol (l : Literal) :
  neg (neg l) = l ∧
  Literal_eq (neg l) l = true ∧
  Literal_lt (neg l) l = false ∧ Literal_lt l (neg l) = false ∧
  Literal_repr (neg l) = Literal_repr l ∧
  Literal_str (neg l) ≠ Literal_str l.
Proof.
  destruct l as [n b]. unfold neg, Literal_eq, Literal_lt, Literal_repr, Literal_str.
  simpl. rewrite negb_involutive, String.eqb_refl. unfold String.ltb.
  rewrite string_compare_refl. repeat split.
  destruct b; simpl; [apply string_cons_neq|].
  intros H. symmetry in H. by apply string_cons_neq in H.
Qed.

(** ** The order in which the sets are walked *)

Lemma uniform_keys c h h' :
  entry_key <$> h ≡ₚ entry_key <$> h' → uniform c h → uniform c h'.
Proof.
  intros Hperm Hu.
  assert (∀ g, uniform c g ↔ Forall (λ k : key * string, k.1.1 = c) (entry_key <$> g))
    as Hkeys.
  { intros g. unfold uniform. by rewrite Forall_fmap. }
  apply Hkeys. rewrite <- Hperm. by apply Hkeys.
Qed.

Lemma sim_uniform_r c s t : sim c s t → uniform c (symbols t).
Proof. intros Hsim. eapply uniform_keys; [apply Hsim|apply Hsim]. Qed.

Lemma sim_set_model c s t f :
  sim c s t → sim c (set_model f s) (set_model f t).
Proof. intros [Hm Hq Hu Hl Hr Ho]. split; simpl; try done. by rewrite Hm. Qed.

Lemma sim_set_symbols c s t h h' :
  sim c s t → entry_key <$> h ≡ₚ entry_key <$> h' → uniform c h →
  heap_ordered h → heap_ordered h' →
  sim c (set_symbols h s) (set_symbols h' t).
Proof. intros [Hm Hq Hu Hl Hr Ho] Hq' Hu' Hl' Hr'. by split. Qed.

Lemma sim_set_objs c s t f :
  sim c s t → Forall2 obj_sim (f (objs s)) (f (objs t)) →
  sim c (set_objs f s) (set_objs f t).
Proof. intros [Hm Hq Hu Hl Hr Ho] Ho'. by split. Qed.

Lemma simulates_ret {X} c (x : X) : simulates c (ret x).
Proof. intros s t x' s1 Hsim [= <- <-]. by exists t. Qed.

Lemma simulates_bind {X Y} c (m : M state X) (k : X → M state Y) :
  simulates c m → (∀ x, simulates c (k x)) → simulates c (bind m k).
Proof.
  intros Hm Hk s t y s' Hsim H.
  apply bind_Val in H as (x & s1 & Hrun & H).
  destruct (Hm _ _ _ _ Hsim Hrun) as (t1 & Hrun' & Hsim1).
  rewrite (bind_run _ _ _ _ _ Hrun'). by apply (Hk x s1).
Qed.

Lemma simulates_for_in {X L Y} c (xs : list X) (body : X → L → M state (ctl L Y)) l :
  (∀ x l, simulates c (body x l)) → simulates c (for_in xs body l).
Proof.
  intros Hbody. revert l. induction xs as [|x xs IH]; intros l; simpl.
  { apply simulates_ret. }
  apply simulates_bind; [apply Hbody|]. intros [l'|r]; [apply IH|apply simulates_ret].
Qed.

Lemma read_list_simulates c l : simulates c (read_list l).
Proof.
  intros s t items s1 Hsim H. unfold read_list in *.
  destruct (objs s !! l) as [[|items0]|] eqn:Hl; try done. injection H as <- <-.
  destruct (Forall2_lookup_l _ _ _ _ _ (sim_objs _ _ _ Hsim) Hl) as (o' & Hl' & Ho).
  rewrite Hl'. destruct o' as [|items']; [done|]. simpl in Ho. subst items'.
  by exists t.
Qed.

Lemma list_append_simulates c l x : simulates c (list_append l x).
Proof.
  intros s t [] s1 Hsim H. unfold list_append in *.
  destruct (objs s !! l) as [[|items0]|] eqn:Hl; try done. injection H as <-.
  destruct (Forall2_lookup_l _ _ _ _ _ (sim_objs _ _ _ Hsim) Hl) as (o' & Hl' & Ho).
  rewrite Hl'. destruct o' as [|items']; [done|]. simpl in Ho. subst items'.
  eexists. split; [done|]. apply sim_set_objs; [done|].
  apply Forall2_insert; [apply Hsim|done].
Qed.

Lemma clause_value_Permutation m lits lits' :
  lits ≡ₚ lits' → clause_value m lits = clause_value m lits'.
Proof.
  intros Hperm. unfold clause_value.
  rewrite (existsb_same_elements (lit_matchesb m) lits lits'),
          (existsb_same_elements (lit_freeb m) lits lits'); [done|..];
    intros l; by rewrite Hperm.
Qed.

Lemma clauseSatisfied_simulates c clause : simulates c (clauseSatisfied clause).
Proof.
  intros s t v s1 Hsim H.
  assert (∃ lits, objs s !! clause = Some (ClauseObj lits)) as [lits Hcl].
  { apply bind_Val in H as (lits & s0 & Hrd & _). unfold read_clause in Hrd.
    destruct (objs s !! clause) as [[lits0|]|]; try done. by exists lits0. }
  rewrite (clauseSatisfied_value _ _ _ Hcl) in H. injection H as <- <-.
  destruct (Forall2_lookup_l _ _ _ _ _ (sim_objs _ _ _ Hsim) Hcl) as (o' & Hcl' & Ho).
  destruct o' as [lits'|]; [|done]. simpl in Ho.
  exists t. split; [|done].
  rewrite (clauseSatisfied_value _ _ _ Hcl'), <- (sim_model _ _ _ Hsim).
  by rewrite (clause_value_Permutation _ _ _ Ho).
Qed.

Lemma DPLL_scan_simulates c items u : simulates c (DPLL_scan items u).
Proof.
  apply simulates_for_in. intros clause _.
  apply simulates_bind; [apply clauseSatisfied_simulates|]. intros v.
  destruct (decide (v = Some false)); [apply simulates_ret|].
  apply simulates_bind.
  { destruct (decide (v = None)); [apply list_append_simulates|apply simulates_ret]. }
  intros _. apply simulates_bind; [apply read_list_simulates|].
  intros [|? ?]; apply simulates_ret.
Qed.

Lemma string_ltb_antisym x y :
  String.ltb x y = false → String.ltb y x = false → x = y.
Proof.
  unfold String.ltb. rewrite (String.compare_antisym x y).
  destruct (String.compare y x) eqn:Hc; try done.
  intros _ _. symmetry. by apply String.compare_eq_iff.
Qed.

Lemma elem_of_keys h h' e :
  entry_key <$> h ≡ₚ entry_key <$> h' → e ∈ h →
  ∃ e', e' ∈ h' ∧ entry_key e' = entry_key e.
Proof.
  intros Hperm He.
  assert (entry_key e ∈ entry_key <$> h') as Hin.
  { rewrite <- Hperm. apply list_elem_of_fmap. eauto. }
  apply list_elem_of_fmap in Hin as (e' & Heq & He'). eauto.
Qed.

(** The two queues give up the same symbol, with the same pair. *)
Lemma heappop_sim c s t e h :
  sim c s t → heappop (symbols s) = (Val e, h) →
  ∃ e' h', heappop (symbols t) = (Val e', h') ∧
           entry_key e' = entry_key e ∧ importance e = c ∧
           sim c (set_symbols h s) (set_symbols h' t).
Proof.
  intros Hsim Hpop. pose proof (sim_uniform_r _ _ _ Hsim) as Hut.
  destruct Hsim as [Hm Hq Hu Hl Hr Ho].
  pose proof (heappop_Permutation _ _ _ Hpop) as Hperm.
  assert (symbols t ≠ []) as Hne.
  { intros Hnil. rewrite Hnil, Hperm in Hq. simpl in Hq.
    by apply Permutation_nil_r in Hq. }
  destruct (heappop_uniform c (symbols t) Hne Hut) as (e' & h' & Hpop').
  pose proof (heappop_Permutation _ _ _ Hpop') as Hperm'.
  destruct (heappop_ordered c _ _ _ Hu Hl Hpop) as [H0 Hl'].
  destruct (heappop_ordered c _ _ _ Hut Hr Hpop') as [H0' Hr'].
  assert (e ∈ symbols s) as He by (rewrite Hperm; by apply elem_of_cons; left).
  assert (e' ∈ symbols t) as He' by (rewrite Hperm'; by apply elem_of_cons; left).
  destruct (elem_of_keys _ _ _ Hq He) as (e1 & He1 & Hk1).
  symmetry in Hq. destruct (elem_of_keys _ _ _ Hq He') as (e2 & He2 & Hk2).
  symmetry in Hq.
  pose proof (proj1 (Forall_forall _ _) Hu) as Hus.
  pose proof (proj1 (Forall_forall _ _) Hut) as Hutt. cbv beta in Hus, Hutt.
  destruct (entry_le_number e e2) as [Hle Htie].
  { by rewrite (Hus _ He), (Hus _ He2). }
  { by apply (heap_ordered_least c (symbols s)). }
  destruct (entry_le_number e' e1) as [Hle' Htie'].
  { by rewrite (Hutt _ He'), (Hutt _ He1). }
  { by apply (heap_ordered_least c (symbols t)). }
  assert (entry_key e' = entry_key e) as Hkey.
  { pose proof (Hus _ He) as Hi. pose proof (Hutt _ He') as Hi'.
    destruct e as [[ci n] l], e' as [[ci' n'] l'], e1 as [[c1 n1] l1],
      e2 as [[c2 n2] l2].
    unfold entry_key, importance in *. simpl in *.
    injection Hk1 as -> -> Hn1. injection Hk2 as -> -> Hn2.
    rewrite Hn1 in Htie'. rewrite Hn2 in Htie.
    assert (n = n') as -> by lia.
    pose proof (string_ltb_antisym (name l) (name l') (Htie' eq_refl) (Htie eq_refl)).
    congruence. }
  exists e', h'. split; [done|]. split; [done|]. split; [by apply Hus|].
  assert (uniform c (e :: h)) as [_ Huh]%Forall_cons
    by (by apply (uniform_Permutation c (symbols s))).
  split; simpl; try done.
  rewrite Hperm, Hperm' in Hq. simpl in Hq. rewrite Hkey in Hq.
  by apply Permutation_cons_inv in Hq.
Qed.

(** Pushing the symbol back on the two queues. *)
Lemma heappush_sim c s t e e' h :
  sim c s t → entry_key e' = entry_key e → importance e = c →
  heappush e (symbols s) = (Val tt, h) →
  ∃ h', heappush e' (symbols t) = (Val tt, h') ∧
        sim c (set_symbols h s) (set_symbols h' t).
Proof.
  intros Hsim Hkey Hi Hpush. pose proof (sim_uniform_r _ _ _ Hsim) as Hut.
  assert (importance e' = c) as Hi'.
  { rewrite <- Hi. unfold importance.
    change (e'.1) with (entry_key e').1. by rewrite Hkey. }
  destruct (heappush_uniform c e' (symbols t) Hut Hi') as (h' & Hpush' & Hu' & _).
  exists h'. split; [done|].
  destruct (heappush_uniform c e (symbols s) (sim_uniform _ _ _ Hsim) Hi)
    as (h0 & Hpush0 & Hu0 & _).
  rewrite Hpush in Hpush0. injection Hpush0 as <-.
  apply sim_set_symbols; try done.
  - apply heappush_Permutation in Hpush, Hpush'. rewrite Hpush, Hpush'. simpl.
    rewrite Hkey. apply Permutation_skip, Hsim.
  - apply (heappush_ordered c e (symbols s)); [apply Hsim|done|apply Hsim|done].
  - apply (heappush_ordered c e' (symbols t)); [done|done|apply Hsim|done].
Qed.

(** Two frames of [DPLL] entered in states so related return the same
    answer, in states so related. *)
Lemma DPLL_rec_sim c fuel cl s t b s' :
  sim c s t → DPLL_rec fuel cl s = (Val b, s') →
  ∃ t', DPLL_rec fuel cl t = (Val b, t') ∧ sim c s' t'.
Proof.
  revert cl s t b s'.
  induction fuel as [|fuel IH]; intros cl s t b s' Hsim H; [done|].
  cbn [DPLL_rec] in H |- *.
  apply bind_Val in H as (u & s1 & Hnew & H). injection Hnew as <- <-.
  unfold bind at 1, new_list.
  rewrite <- (Forall2_length _ _ _ (sim_objs _ _ _ Hsim)).
  assert (sim c (set_objs (λ o, o ++ [ListObj []]) s)
                (set_objs (λ o, o ++ [ListObj []]) t)) as Hsim1.
  { apply sim_set_objs; [done|]. apply Forall2_app; [apply Hsim|].
    by apply Forall2_cons. }
  apply bind_Val in H as (items & s2 & Hrd & H).
  destruct (read_list_simulates c _ _ _ _ _ Hsim1 Hrd) as (t2 & Hrd' & Hsim2).
  rewrite (bind_run _ _ _ _ _ Hrd').
  apply bind_Val in H as (scan & s3 & Hscan & H).
  destruct (DPLL_scan_simulates c _ _ _ _ _ _ Hsim2 Hscan) as (t3 & Hscan' & Hsim3).
  rewrite (bind_run _ _ _ _ _ Hscan').
  destruct scan as [[]|b0].
  2: { injection H as <- <-. by exists t3. }
  apply bind_Val in H as (syms & s4 & Hg & H). injection Hg as <- <-.
  unfold bind at 1, gets.
  assert (length (symbols t3) = length (symbols s3)) as ->.
  { pose proof (Permutation_length (sim_queue _ _ _ Hsim3)) as Hlen.
    by rewrite !length_fmap in Hlen. }
  destruct (0 <? length (symbols s3)).
  2: { injection H as <- <-. by exists t3. }
  apply bind_Val in H as ([cnt P] & s5 & Hpop & H).
  apply on_symbols_Val in Hpop as (h5 & Hpop & ->).
  destruct (heappop_sim c _ _ _ _ Hsim3 Hpop)
    as ([cnt' P'] & h5' & Hpop' & Hkey & Hi & Hsim5).
  assert (on_symbols heappop t3 = (Val (cnt', P'), set_symbols h5' t3)) as Hpop''.
  { unfold on_symbols. by rewrite Hpop'. }
  rewrite (bind_run _ _ _ _ _ Hpop''). cbv beta iota.
  assert (name P' = name P) as HP by (by injection Hkey).
  apply bind_Val in H as ([] & s6 & Hset & H). injection Hset as <-.
  unfold bind at 1, model_set, modify. rewrite ?HP.
  apply bind_Val in H as (sat1 & s7 & Hrec1 & H).
  destruct (IH _ _ _ _ _ (sim_set_model c _ _ _ Hsim5) Hrec1) as (t7 & Hrec1' & Hsim7).
  rewrite (bind_run _ _ _ _ _ Hrec1').
  destruct sat1; cbn [negb] in H |- *.
  { injection H as <- <-. by exists t7. }
  apply bind_Val in H as ([] & s8 & Hset & H). injection Hset as <-.
  unfold bind at 1, model_set, modify. rewrite ?HP.
  apply bind_Val in H as (sat2 & s9 & Hrec2 & H).
  destruct (IH _ _ _ _ _ (sim_set_model c _ _ _ Hsim7) Hrec2) as (t9 & Hrec2' & Hsim9).
  rewrite (bind_run _ _ _ _ _ Hrec2').
  destruct sat2; cbn [negb] in H |- *.
  { injection H as <- <-. by exists t9. }
  apply bind_Val in H as ([] & s10 & Hset & H). injection Hset as <-.
  unfold bind at 1, model_set, modify. rewrite ?HP.
  apply bind_Val in H as ([] & s11 & Hpush & H). injection H as <- <-.
  apply on_symbols_Val in Hpush as (h11 & Hpush & ->).
  destruct (heappush_sim c _ _ (cnt, P) (cnt', P') h11
              (sim_set_model c _ _ (λ m, <[name P := Free]> m) Hsim9) Hkey Hi Hpush)
    as (h11' & Hpush' & Hsim11).
  unfold bind at 1, on_symbols. rewrite Hpush'.
  eexists. split; [done|]. exact Hsim11.
Qed.

Lemma fmap_ext_Permutation {X Y} (f g : X → Y) l :
  (∀ x, x ∈ l → f x = g x) → f <$> l ≡ₚ g <$> l.
Proof.
  intros Hext. by rewrite (Forall_fmap_ext_1 f g l) by (by apply Forall_forall).
Qed.

Lemma concat_Permutation (kb kb' : list Clause) :
  Forall2 (≡ₚ) kb kb' → concat kb ≡ₚ concat kb'.
Proof.
  induction 1 as [|c c' kb kb' Hc _ IH]; simpl; [done|]. by rewrite Hc, IH.
Qed.

Lemma occurrences_Permutation x Ls Ls' :
  Ls ≡ₚ Ls' → occurrences x Ls = occurrences x Ls'.
Proof. unfold occurrences. by intros ->. Qed.

Lemma sign_class_Permutation Ls Ls' x :
  Ls ≡ₚ Ls' → sign_class Ls x = sign_class Ls' x.
Proof.
  intros Hperm. unfold sign_class.
  by rewrite (bool_decide_ext _ (mkLiteral x true ∈ Ls' ∧ mkLiteral x false ∈ Ls'))
    by (by rewrite Hperm).
Qed.

Lemma symbol_key_Permutation Ls Ls' x :
  Ls ≡ₚ Ls' → symbol_key Ls x = symbol_key Ls' x.
Proof.
  intros Hperm. unfold symbol_key.
  by rewrite (sign_class_Permutation _ _ _ Hperm), (occurrences_Permutation _ _ _ Hperm).
Qed.

Lemma class_of_sign_class Ls r x b :
  ranked Ls r → mkLiteral x b ∈ Ls → class_of r x = sign_class Ls x.
Proof.
  intros Hr Hb. unfold sign_class.
  destruct (class_of_cases _ _ _ _ Hr Hb) as [[-> (b' & Hb' & Hnb')]|(-> & Ht & Hf)].
  - rewrite bool_decide_eq_false_2; [done|]. intros [Ht Hf]. by destruct b'.
  - by rewrite bool_decide_eq_true_2.
Qed.

(** The queue that [DPLLSatisfiable] builds, as the search reads it: one
    entry for each symbol, told by the literals of the knowledge base. *)
Lemma build_queue_keys s k kb r s' :
  read_kb s k = Some kb →
  build_queue k s = (Val r, s') →
  entry_key <$> symbols s' ≡ₚ symbol_key (concat kb) <$> names (symbols_ranking r).
Proof.
  intros Hkb Hrun.
  destruct (build_queue_Val _ _ _ _ _ Hkb Hrun) as (Hr & Hrank & _ & _ & Hs).
  destruct (ranking_fold (concat kb)) as (_ & Hnames & Hcnt).
  rewrite <- Hrank in Hnames, Hcnt.
  rewrite Hs. unfold names. rewrite <- !list_fmap_compose.
  apply fmap_ext_Permutation. intros [k0 cnt] Hkv.
  unfold entry_key, entry_of, symbol_key. simpl.
  assert (∃ b, mkLiteral (name k0) b ∈ concat kb) as [b Hb].
  { assert (name k0 ∈ names (symbols_ranking r)) as Hn.
    { apply list_elem_of_fmap. by exists (k0, cnt). }
    apply Hnames in Hn as ([n b] & Hl & Hname). simpl in Hname. subst n. eauto. }
  by rewrite (Hcnt _ _ Hkv), (class_of_sign_class _ _ _ _ Hr Hb).
Qed.

Lemma initial_model_names d d' :
  (∀ x, x ∈ names d ↔ x ∈ names d') → initial_model d = initial_model d'.
Proof.
  intros Hsame. apply map_eq. intros x.
  destruct (decide (x ∈ names d)) as [Hx|Hx].
  - rewrite (proj2 (initial_model_lookup d x) Hx).
    symmetry. by apply initial_model_lookup, Hsame.
  - assert (initial_model d !! x = None) as ->.
    { apply eq_None_not_Some. by rewrite initial_model_is_Some. }
    symmetry. apply eq_None_not_Some. by rewrite initial_model_is_Some, <- Hsame.
Qed.

Lemma two_importances_Permutation kb kb' :
  Forall2 (≡ₚ) kb kb' → two_importances kb → two_importances kb'.
Proof.
  intros HF%concat_Permutation (x & b & y & Hx & Hnx & Hyt & Hyf).
  exists x, b, y. rewrite !occurs_concat in *. by rewrite <- HF.
Qed.

Lemma load_sim kb kb' :
  Forall2 (≡ₚ) kb kb' → Forall2 obj_sim (objs (load kb).1) (objs (load kb').1).
Proof.
  intros HF. simpl. apply Forall2_app.
  - apply Forall2_fmap. eapply Forall2_impl; [exact HF|]. by intros c c' Hc.
  - rewrite (Forall2_length _ _ _ HF). by apply Forall2_cons.
Qed.

Lemma solve_unfold kb :
  solve kb = match DPLLSatisfiable (load kb).2 (load kb).1 with
             | (Val b, s') => Val (b, model s')
             | (Raise e, _) => Raise e
             | (BadRef, _) => BadRef
             | (OutOfFuel, _) => OutOfFuel
             end.
Proof. reflexivity. Qed.

(** The state in which [DPLLSatisfiable] calls [DPLL], for two knowledge
    bases that differ in the order of the literals in their clauses. *)
Lemma DPLLSatisfiable_entry_sim kb kb' r s1 r' s1' :
  Forall2 (≡ₚ) kb kb' →
  build_queue (load kb).2 (load kb).1 = (Val r, s1) →
  build_queue (load kb').2 (load kb').1 = (Val r', s1') →
  ∃ c, sim c (set_model (λ _, initial_model (symbols_ranking r)) s1)
             (set_model (λ _, initial_model (symbols_ranking r')) s1').
Proof.
  intros HF Hq Hq'. pose proof (concat_Permutation _ _ HF) as Hperm.
  pose proof (read_kb_load kb) as Hkb. pose proof (read_kb_load kb') as Hkb'.
  destruct (build_queue_uniform _ _ _ _ _ Hkb Hq) as (c & _ & Hu). exists c.
  destruct (build_queue_Val _ _ _ _ _ Hkb Hq) as (_ & Hrank & Ho & _ & _).
  destruct (build_queue_Val _ _ _ _ _ Hkb' Hq') as (_ & Hrank' & Ho' & _ & _).
  destruct (ranking_fold (concat kb)) as (Hnd & Hnames & _).
  destruct (ranking_fold (concat kb')) as (Hnd' & Hnames' & _).
  rewrite <- Hrank in Hnd, Hnames. rewrite <- Hrank' in Hnd', Hnames'.
  assert (∀ x, x ∈ names (symbols_ranking r) ↔ x ∈ names (symbols_ranking r'))
    as Hsame.
  { intros x. rewrite Hnames, Hnames'. by setoid_rewrite Hperm. }
  split; simpl.
  - by apply initial_model_names.
  - rewrite (build_queue_keys _ _ _ _ _ Hkb Hq), (build_queue_keys _ _ _ _ _ Hkb' Hq').
    rewrite (NoDup_Permutation _ _ Hnd Hnd' Hsame).
    apply fmap_ext_Permutation. intros x _.
    by apply symbol_key_Permutation.
  - done.
  - by destruct (build_queue_ready _ _ _ _ Hq).
  - by destruct (build_queue_ready _ _ _ _ Hq').
  - rewrite Ho, Ho'. by apply load_sim.
Qed.

(** X20.  The pair [DPLLSatisfiable] returns, or the exception it raises,
    does not depend on the order in which Python walks the sets: two
    knowledge bases whose clauses hold the same literals, listed in any
    order, give the same outcome. *)
Theorem solve_order_independent (kb kb' : list Clause) :
  Forall2 (≡ₚ) kb kb' → solve kb = solve kb'.
Proof.
  intros HF.
  destruct (solve_dichotomy kb) as [[Htwo Hr]|[Hone (b & m & Hv)]].
  { rewrite Hr. destruct (solve_dichotomy kb') as [[_ Hr']|[Hone' _]]; [done|].
    destruct Hone'. by apply (two_importances_Permutation kb). }
  destruct (solve_dichotomy kb') as [[Htwo' _]|[_ (b' & m' & Hv')]].
  { destruct Hone. apply (two_importances_Permutation kb'); [|done].
    apply Forall2_flip. eapply Forall2_impl; [exact HF|]. by intros c c' ->. }
  rewrite Hv, Hv'. rewrite solve_unfold in Hv, Hv'.
  destruct (DPLLSatisfiable (load kb).2 (load kb).1) as [[b0| | |] s2] eqn:Hrun;
    try done. injection Hv as -> <-.
  destruct (DPLLSatisfiable (load kb').2 (load kb').1) as [[b0| | |] s2'] eqn:Hrun';
    try done. injection Hv' as -> <-.
  unfold DPLLSatisfiable in Hrun, Hrun'.
  apply bind_Val in Hrun as (r & s1 & Hq & Hrun).
  apply bind_Val in Hrun as ([] & s0 & [= <-] & Hrun).
  apply bind_Val in Hrun as (syms & s3 & [= <- <-] & Hrun).
  apply bind_Val in Hrun' as (r' & s1' & Hq' & Hrun').
  apply bind_Val in Hrun' as ([] & s0' & [= <-] & Hrun').
  apply bind_Val in Hrun' as (syms' & s3' & [= <- <-] & Hrun').
  destruct (DPLLSatisfiable_entry_sim _ _ _ _ _ _ HF Hq Hq') as [c Hsim].
  destruct (DPLL_rec_sim c _ _ _ _ _ _ Hsim Hrun) as (t' & Hrun'' & Hsim').
  assert (length (symbols s1') = length (symbols s1)) as Hlen.
  { pose proof (Permutation_length (sim_queue _ _ _ Hsim)) as Hlen.
    by rewrite !length_fmap in Hlen. }
  simpl in Hrun, Hrun', Hrun''. rewrite (Forall2_length _ _ _ HF), <- Hlen in Hrun''.
  rewrite Hrun' in Hrun''. injection Hrun'' as -> ->.
  by rewrite (sim_model _ _ _ Hsim').
Qed.

Lemma solve_order_independent_witness :
  Forall2 (≡ₚ) [[neg A; B; E]; [neg B; A]; [neg E; A]]
               [[B; neg A; E]; [A; neg B]; [A; neg E]] ∧
  solve [[neg A; B; E]; [neg B; A]; [neg E; A]]
    = solve [[B; neg A; E]; [A; neg B]; [A; neg E]].
Proof.
  assert (Forall2 (≡ₚ) [[neg A; B; E]; [neg B; A]; [neg E; A]]
                       [[B; neg A; E]; [A; neg B]; [A; neg E]]) as HF.
  { repeat apply Forall2_cons_2; [| | |apply Forall2_nil_2].
    - apply perm_swap.
    - apply perm_swap.
    - apply perm_swap. }
  split; [exact HF|].
  exact (solve_order_independent _ _ HF).
Defined.

(** ** What the three answers of [clauseSatisfied] mean *)

Lemma extends_assignment_for m l : lit_free m l → extends m (assignment_for m l).
Proof.
  unfold lit_free, assignment_for. intros Hl x.
  destruct (decide (x = name l)) as [->|Hx].
  - rewrite Hl. by split.
  - split; intros Hm; rewrite Hm; [by rewrite bool_decide_eq_true_2|].
    by rewrite bool_decide_eq_false_2.
Qed.

(** X21.  The answers of [clauseSatisfied] read as statements about the
    assignments that agree with the model on the committed symbols.
    [True]: each of them satisfies the clause.  [None]: one of them does.
    [False]: none does, provided the model has an entry for every symbol
    of the clause. *)
Theorem clauseSatisfied_sound (s : state) (c : loc) (lits : Clause) :
  objs s !! c = Some (ClauseObj lits) →
  match (clauseSatisfied c s).1 with
  | Val (Some true) => ∀ v, extends (model s) v → satisfies v lits
  | Val None => ∃ v, extends (model s) v ∧ satisfies v lits
  | Val (Some false) =>
      (∀ l, l ∈ lits → is_Some (model s !! name l)) →
      ∀ v, extends (model s) v → ¬ satisfies v lits
  | _ => False
  end.
Proof.
  intros Hc. rewrite (clauseSatisfied_value _ _ _ Hc). simpl.
  destruct (clause_value (model s) lits) as [[|]|] eqn:Hv.
  - intros v Hext. unfold clause_value in Hv.
    destruct (existsb (lit_matchesb (model s)) lits) eqn:Hm.
    2: { by destruct (existsb (lit_freeb (model s)) lits). }
    apply existsb_matches in Hm as (l & Hl & Hm).
    exists l. split; [done|]. unfold lit_matches in Hm.
    destruct (Hext (name l)) as [Ht Hf]. destruct (sign l); auto.
  - intros Hcov v Hext. by apply (clause_value_falsified (model s)).
  - apply clause_value_pending in Hv as (l & Hl & Hfree).
    exists (assignment_for (model s) l). split; [by apply extends_assignment_for|].
    exists l. split; [done|]. unfold assignment_for. by rewrite decide_True.
Qed.

Lemma clauseSatisfied_sound_witness :
  objs pending_state !! 0 = Some (ClauseObj [neg A; B]) ∧
  ∃ v, extends (model pending_state) v ∧ satisfies v [neg A; B].
Proof.
  split; [reflexivity|].
  exact (clauseSatisfied_sound pending_state 0 [neg A; B] eq_refl).
Defined.
